(** * Glyphify: [img2ascii.py], an image to ANSI-coloured ASCII renderer

    A shallow embedding of [src/img2ascii.py] and the properties of its
    dimension formula, tone pipeline, glyph quantizer, renderer and ramp
    selection.

    Python's [float] is IEEE 754 binary64.  It is modelled bit for bit by the
    Standard Library's [spec_float] at precision 53 and maximal exponent 1024:
    every [+], [-], [*], [/] and comparison below rounds exactly as the
    interpreter does.  Python's [int] is [Z], [str] is [string], an exception
    is the [Raise] branch of [result]. *)

From Stdlib Require Import ZArith List String Ascii Bool Lia Lqa QArith Qpower.
From Stdlib Require Import Floats.SpecFloat DecimalString DecimalZ DecimalPos.
Import ListNotations.

Local Open Scope string_scope.
Local Open Scope Z_scope.

(** ** Exceptions *)

Inductive exn : Set :=
| ZeroDivisionError
| OverflowError
| ValueError
| IndexError
| TypeError.

Inductive result (A : Type) : Type :=
| Ok (a : A)
| Raise (e : exn).

Arguments Ok {A} a.
Arguments Raise {A} e.

Definition bind {A B : Type} (m : result A) (k : A -> result B) : result B :=
  match m with
  | Ok a => k a
  | Raise e => Raise e
  end.

Declare Scope py_scope.
Delimit Scope py_scope with py.
Notation "x <- m ;; k" := (bind m (fun x => k))
  (at level 61, m at next level, right associativity) : py_scope.
Local Open Scope py_scope.

(** [for x in xs: ys.append(f x)], stopping at the first exception. *)
Fixpoint mapM {A B : Type} (f : A -> result B) (xs : list A) : result (list B) :=
  match xs with
  | [] => Ok []
  | x :: xs' => y <- f x ;; ys <- mapM f xs' ;; Ok (y :: ys)
  end.

(** [range(n)]: empty when [n <= 0]. *)
Definition range (n : Z) : list Z := map Z.of_nat (seq 0 (Z.to_nat n)).

(** ** Python floats *)

Module F64.

Definition prec : Z := 53.
Definition emax : Z := 1024.

Definition float : Set := spec_float.

Definition add : float -> float -> float := SFadd prec emax.
Definition sub : float -> float -> float := SFsub prec emax.
Definition mul : float -> float -> float := SFmul prec emax.
Definition div : float -> float -> float := SFdiv prec emax.
Definition ltb : float -> float -> bool := SFltb.
Definition eqb : float -> float -> bool := SFeqb.
Definition leb : float -> float -> bool := SFleb.
Definition opp : float -> float := SFopp.
Definition abs : float -> float := SFabs.

(** The nearest float to an integer, ties to even; an infinity past the
    largest float. *)
Definition of_Z (z : Z) : float := binary_normalize prec emax z 0 false.

(** A decimal literal [n / d] of the source text, read as the interpreter
    reads it: the nearest float to the rational (a correctly rounded
    quotient of two exact floats). *)
Definition lit (n d : Z) : float := div (of_Z n) (of_Z d).

Definition zero : float := S754_zero false.
Definition one : float := Eval vm_compute in of_Z 1.
Definition half : float := Eval vm_compute in lit 1 2.

Definition is_nan (x : float) : bool :=
  match x with S754_nan => true | _ => false end.

Definition is_inf (x : float) : bool :=
  match x with S754_infinity _ => true | _ => false end.

Definition is_finite (x : float) : bool :=
  match x with S754_zero _ | S754_finite _ _ _ => true | _ => false end.

Definition sign (x : float) : bool :=
  match x with
  | S754_zero s | S754_infinity s | S754_finite s _ _ => s
  | S754_nan => false
  end.

(** [x == floor(x)] on a finite float. *)
Definition is_integer (x : float) : bool :=
  match x with
  | S754_zero _ => true
  | S754_finite _ m e =>
      if 0 <=? e then true else (Zpos m mod 2 ^ (- e) =? 0)
  | _ => false
  end.

(** [fmod(fabs(x), 2.0) == 1.0]. *)
Definition is_odd_integer (x : float) : bool :=
  match x with
  | S754_finite _ m e =>
      if 0 <? e then false
      else (Zpos m mod 2 ^ (- e) =? 0) && Z.odd (Zpos m / 2 ^ (- e))
  | _ => false
  end.

(** The integer part of a finite float, towards zero. *)
Definition trunc (x : float) : Z :=
  match x with
  | S754_finite s m e => cond_Zopp s (Z.shiftl (Zpos m) e)
  | _ => 0
  end.

(** The nearest integer to a finite float, ties to even. *)
Definition nearest_even (x : float) : Z :=
  match x with
  | S754_finite s m e =>
      if 0 <=? e then cond_Zopp s (Z.shiftl (Zpos m) e)
      else
        let q := Zpos m / 2 ^ (- e) in
        let r := Zpos m mod 2 ^ (- e) in
        let up :=
          match 2 * r ?= 2 ^ (- e) with
          | Lt => false
          | Eq => Z.odd q
          | Gt => true
          end in
        cond_Zopp s (if up then q + 1 else q)
  | _ => 0
  end.

End F64.

Import F64.

(** [float(n)] as the mixed arithmetic [int * float] performs it. *)
Definition py_float_of_int (n : Z) : result float :=
  let x := of_Z n in
  if is_inf x then Raise OverflowError else Ok x.

(** [a / b] on two ints: the correctly rounded quotient. *)
Definition py_int_truediv (a b : Z) : result float :=
  let raw (z : Z) : float :=
    match z with
    | Z0 => S754_zero false
    | Zpos p => S754_finite false p 0
    | Zneg p => S754_finite true p 0
    end in
  if b =? 0 then Raise ZeroDivisionError
  else
    let q := div (raw a) (raw b) in
    if is_inf q then Raise OverflowError else Ok q.

(** [int(x)] on a float. *)
Definition py_int (x : float) : result Z :=
  match x with
  | S754_nan => Raise ValueError
  | S754_infinity _ => Raise OverflowError
  | _ => Ok (trunc x)
  end.

(** [round(x)] on a float, with no digits argument. *)
Definition py_round (x : float) : result Z :=
  match x with
  | S754_nan => Raise ValueError
  | S754_infinity _ => Raise OverflowError
  | _ => Ok (nearest_even x)
  end.

(** [str(n)] on an int, as an f-string formats it. *)
Definition py_str_of_int (n : Z) : string := NilZero.string_of_int (Z.to_int n).

(** [s[i]] on a string: a negative index counts from the end. *)
Definition py_getitem (s : string) (i : Z) : result ascii :=
  let n := Z.of_nat (String.length s) in
  let j := if i <? 0 then i + n else i in
  if (j <? 0) || (n <=? j) then Raise IndexError
  else
    match String.get (Z.to_nat j) s with
    | Some c => Ok c
    | None => Raise IndexError
    end.

(** What [lum ** gamma] can evaluate to: a float, or a complex number when the
    base is negative and the exponent is not an integer.  The complex value is
    not modelled further: ordering it against a float raises [TypeError]. *)
Inductive pynum : Type :=
| PyFloat (x : float)
| PyComplex.

Definition as_ordered (v : pynum) : result float :=
  match v with
  | PyFloat x => Ok x
  | PyComplex => Raise TypeError
  end.

(** ** The program *)

(** Palette, from the lightest to the densest glyph. *)
Definition DEFAULT_RAMP : string := " .,:;i1tfLCG08@".
Definition ALT_RAMP : string := " .:-=+*#%@".

Definition clamp (n lo hi : float) : float :=
  if ltb n lo then lo else if ltb hi n then hi else n.

Definition c_0_2126 : float := Eval vm_compute in lit 2126 10000.
Definition c_0_7152 : float := Eval vm_compute in lit 7152 10000.
Definition c_0_0722 : float := Eval vm_compute in lit 722 10000.

Definition rgb_to_luma (r g b : Z) : result float :=
  fr <- py_float_of_int r ;;
  fg <- py_float_of_int g ;;
  fb <- py_float_of_int b ;;
  Ok (add (add (mul c_0_2126 fr) (mul c_0_7152 fg)) (mul c_0_0722 fb)).

Definition ESC : ascii := ascii_of_nat 27.

Definition ansi_fg (r g b : Z) : string :=
  String ESC "[38;2;" ++ py_str_of_int r ++ ";" ++ py_str_of_int g ++ ";"
    ++ py_str_of_int b ++ "m".

Definition RESET : string := String ESC "[0m".

(** A decoded image: its size [(width, height)] and its pixels, each a triple
    of 8-bit channel values once converted to RGB. *)
Record Image : Type := {
  size : Z * Z;
  getpixel : Z -> Z -> Z * Z * Z
}.

Section Program.

(** The platform's [pow] of the C library, which the interpreter calls for a
    finite positive base other than 1 and a finite non-zero exponent. *)
Variable libm_pow : float -> float -> float.

(** The imaging library's [convert("RGB")] and Lanczos [resize]. *)
Variable convert_RGB : Image -> Image.
Variable resize : Image -> Z * Z -> result Image.

(** [iv ** iw] on two floats. *)
Definition py_pow (iv iw : float) : result pynum :=
  if eqb iw zero then Ok (PyFloat one)
  else if is_nan iv then Ok (PyFloat iv)
  else if is_nan iw then Ok (PyFloat (if eqb iv one then one else iw))
  else if is_inf iw then
    let av := abs iv in
    if eqb av one then Ok (PyFloat one)
    else if Bool.eqb (ltb zero iw) (ltb one av) then Ok (PyFloat (abs iw))
    else Ok (PyFloat zero)
  else if is_inf iv then
    let odd := is_odd_integer iw in
    if ltb zero iw then Ok (PyFloat (if odd then iv else abs iv))
    else Ok (PyFloat (if odd then S754_zero (sign iv) else zero))
  else if eqb iv zero then
    if ltb iw zero then Raise ZeroDivisionError
    else Ok (PyFloat (if is_odd_integer iw then iv else zero))
  else if ltb iv zero && negb (is_integer iw) then Ok PyComplex
  else
    let negate := ltb iv zero && is_odd_integer iw in
    let av := if ltb iv zero then opp iv else iv in
    if eqb av one then Ok (PyFloat (if negate then opp one else one))
    else
      let ix := libm_pow av iw in
      if is_inf ix then Raise OverflowError
      else Ok (PyFloat (if negate then opp ix else ix)).

(** Lines 41-42: the height of the character grid. *)
Definition target_height (orig : Z * Z) (width : Z) (aspect : float)
  : result Z :=
  let '(orig_w, orig_h) := orig in
  q <- py_int_truediv orig_h orig_w ;;
  w <- py_float_of_int width ;;
  h <- py_int (mul (mul q w) aspect) ;;
  Ok (Z.max 1 h).

Definition inv_255 : float := Eval vm_compute in div one (of_Z 255).

(** Line 58: the normalised luminance of a pixel. *)
Definition luminance (r g b : Z) : result float :=
  l <- rgb_to_luma r g b ;;
  Ok (mul l inv_255).

(** Lines 63-66: contrast, brightness, clamp, gamma, clamp. *)
Definition adjust (lum brightness contrast gamma : float) : result float :=
  let lum := add (mul (sub lum half) contrast) half in
  let lum := mul lum brightness in
  let lum := clamp lum zero one in
  p <- py_pow lum gamma ;;
  x <- as_ordered p ;;
  Ok (clamp x zero one).

(** Lines 69-70: the index in the ramp and its glyph. *)
Definition glyph_index (lum : float) (ramp_len : Z) : result Z :=
  k <- py_float_of_int (ramp_len - 1) ;;
  py_int (mul lum k).

Definition ramp_length (ramp : string) : Z := Z.of_nat (String.length ramp).

Definition glyph (ramp : string) (lum : float) : result ascii :=
  idx <- glyph_index lum (ramp_length ramp) ;;
  py_getitem ramp idx.

(** Lines 55-75: the body of the inner loop, one entry of [line_parts]. *)
Definition pixel_part (ramp : string) (color : bool)
    (brightness contrast gamma : float) (px : Z * Z * Z) : result string :=
  let '(r, g, b) := px in
  lum <- luminance r g b ;;
  lum <- adjust lum brightness contrast gamma ;;
  ch <- glyph ramp lum ;;
  if color then Ok (ansi_fg r g b ++ String ch "")
  else Ok (String ch "").

(** Lines 53-79: one line of output. *)
Definition render_line (img : Image) (width : Z) (ramp : string) (color : bool)
    (brightness contrast gamma : float) (y : Z) : result string :=
  line_parts <-
    mapM (fun x => pixel_part ramp color brightness contrast gamma
                     (getpixel img x y)) (range width) ;;
  let line_parts := if color then (line_parts ++ [RESET])%list else line_parts in
  Ok (String.concat "" line_parts).

Definition newline : string := String (ascii_of_nat 10) "".

Definition image_to_ascii (img : Image) (width : Z) (ramp : string)
    (color : bool) (brightness contrast gamma aspect : float) : result string :=
  let img := convert_RGB img in
  height <- target_height (size img) width aspect ;;
  img <- resize img (width, height) ;;
  lines <-
    mapM (render_line img width ramp color brightness contrast gamma)
      (range height) ;;
  Ok (String.concat newline lines).

(** The parsed command line. *)
Record Args : Type := {
  arg_image : string;
  arg_width : Z;
  arg_ramp : string;
  arg_custom_ramp : string;
  arg_no_color : bool;
  arg_brightness : float;
  arg_contrast : float;
  arg_gamma : float;
  arg_aspect : float
}.

(** The options as typed; [None] is an option left out, which [argparse]
    fills with its default. *)
Record CommandLine : Type := {
  cl_image : string;
  cl_width : option Z;
  cl_ramp : option string;
  cl_custom_ramp : option string;
  cl_no_color : bool;
  cl_brightness : option float;
  cl_contrast : option float;
  cl_gamma : option float;
  cl_aspect : option float
}.

Definition or_default {A : Type} (o : option A) (d : A) : A :=
  match o with Some a => a | None => d end.

Definition parse_args (cl : CommandLine) : Args := {|
  arg_image := cl_image cl;
  arg_width := or_default (cl_width cl) 0;
  arg_ramp := or_default (cl_ramp cl) "alt";
  arg_custom_ramp := or_default (cl_custom_ramp cl) "";
  arg_no_color := cl_no_color cl;
  arg_brightness := or_default (cl_brightness cl) (lit 105 100);
  arg_contrast := or_default (cl_contrast cl) (lit 125 100);
  arg_gamma := or_default (cl_gamma cl) (lit 85 100);
  arg_aspect := or_default (cl_aspect cl) (lit 55 100)
|}.

(** Lines 99-101. *)
Definition select_ramp (args : Args) : string :=
  let ramp := if String.eqb (arg_ramp args) "default" then DEFAULT_RAMP
              else ALT_RAMP in
  if negb (String.eqb (arg_custom_ramp args) "") then arg_custom_ramp args
  else ramp.

(** Lines 96-97; [term_w] is the terminal's column count. *)
Definition select_width (args : Args) (term_w : Z) : Z :=
  if 0 <? arg_width args then arg_width args else term_w.

(** [main] up to [print(out)]: the text printed; [img] is the opened image. *)
Definition main (args : Args) (term_w : Z) (img : Image) : result string :=
  image_to_ascii img (select_width args term_w) (select_ramp args)
    (negb (arg_no_color args)) (arg_brightness args) (arg_contrast args)
    (arg_gamma args) (arg_aspect args).

End Program.

Arguments py_pow libm_pow iv iw : simpl never.

(** ** Reference definitions, worded as the specification words them *)

(** Section 4.1: [max(1, round((sourceHeight / sourceWidth) * width * aspect))]. *)
Definition target_height_rounded (orig : Z * Z) (width : Z) (aspect : float)
  : result Z :=
  let '(orig_w, orig_h) := orig in
  q <- py_int_truediv orig_h orig_w ;;
  w <- py_float_of_int width ;;
  h <- py_round (mul (mul q w) aspect) ;;
  Ok (Z.max 1 h).

(** Section 4.3, step 1: the luma divided by 255. *)
Definition luminance_divided (r g b : Z) : result float :=
  l <- rgb_to_luma r g b ;;
  Ok (div l (of_Z 255)).

(** Section 4.3, steps 2 to 5, one binding per numbered step. *)
Definition five_steps (libm_pow : float -> float -> float)
    (lum0 brightness contrast gamma : float) : result float :=
  let lum1 := add (mul (sub lum0 half) contrast) half in
  let lum2 := mul lum1 brightness in
  let lum3 := clamp lum2 zero one in
  lum4 <- py_pow libm_pow lum3 gamma ;;
  lum4 <- as_ordered lum4 ;;
  Ok (clamp lum4 zero one).

(** The tone mapping of a pixel as the program computes it, and as section
    4.3 words it. *)
Definition tone (libm_pow : float -> float -> float) (r g b : Z)
    (brightness contrast gamma : float) : result float :=
  lum <- luminance r g b ;;
  adjust libm_pow lum brightness contrast gamma.

Definition tone_divided (libm_pow : float -> float -> float) (r g b : Z)
    (brightness contrast gamma : float) : result float :=
  lum0 <- luminance_divided r g b ;;
  five_steps libm_pow lum0 brightness contrast gamma.

(** The tone mapping with brightness applied before contrast. *)
Definition tone_reordered (libm_pow : float -> float -> float) (r g b : Z)
    (brightness contrast gamma : float) : result float :=
  lum0 <- luminance r g b ;;
  let lum1 := mul lum0 brightness in
  let lum2 := add (mul (sub lum1 half) contrast) half in
  let lum3 := clamp lum2 zero one in
  lum4 <- py_pow libm_pow lum3 gamma ;;
  lum4 <- as_ordered lum4 ;;
  Ok (clamp lum4 zero one).

(** The glyph of a pixel: its tone-mapped luminance, quantized. *)
Definition pixel_glyph (libm_pow : float -> float -> float) (ramp : string)
    (brightness contrast gamma : float) (px : Z * Z * Z) : result ascii :=
  let '(r, g, b) := px in
  lum <- tone libm_pow r g b brightness contrast gamma ;;
  glyph ramp lum.

(** Section 4.5: the text of one pixel, the escape sequence of its colour
    (when colour is on) immediately before its glyph. *)
Definition cell (color : bool) (px : Z * Z * Z) (ch : ascii) : string :=
  let '(r, g, b) := px in
  (if color then ansi_fg r g b else "") ++ String ch "".

(** The line of row [y]: the cells of its glyphs from left to right, then the
    reset sequence when colour is on. *)
Definition line_of (img : Image) (width : Z) (color : bool) (y : Z)
    (glyphs : list ascii) : string :=
  String.concat ""
    (map (fun xc => cell color (getpixel img (fst xc) y) (snd xc))
       (combine (range width) glyphs))
  ++ (if color then RESET else "").

(** The text of a grid of glyphs: its lines from top to bottom, one
    line break between two lines. *)
Definition text_of (img : Image) (width height : Z) (color : bool)
    (rows : list (list ascii)) : string :=
  String.concat newline
    (map (fun yr => line_of img width color (fst yr) (snd yr))
       (combine (range height) rows)).

(** The glyphs of a [width] x [height] grid of pixels, row by row. *)
Definition glyph_grid (libm_pow : float -> float -> float) (img : Image)
    (width height : Z) (ramp : string) (brightness contrast gamma : float)
  : result (list (list ascii)) :=
  mapM (fun y =>
          mapM (fun x => pixel_glyph libm_pow ramp brightness contrast gamma
                           (getpixel img x y)) (range width))
    (range height).



(** Sample inputs for the examples: a 2x2 image, an imaging library that
    hands the image back unchanged, and a [pow] that is exact at exponent 1.0
    (the only exponent it is called with in the examples). *)
Definition sample_image : Image :=
  {| size := (2, 2); getpixel := fun x y => (255 * x, 255 * y, 0) |}.
Definition sample_convert (img : Image) : Image := img.
Definition sample_resize (img : Image) (wh : Z * Z) : result Image := Ok img.
Definition sample_pow (x y : float) : float := x.

(** The default tone parameters of the command line. *)
Definition default_brightness : float := Eval vm_compute in lit 105 100.
Definition default_contrast : float := Eval vm_compute in lit 125 100.
Definition default_gamma : float := Eval vm_compute in lit 85 100.
Definition default_aspect : float := Eval vm_compute in lit 55 100.

(** ** The meaning of the float operations

    What the bit-level operations of [F64] compute, in terms of the rational
    a float stands for. *)

(** The exponent of the format's grid at magnitude [e]. *)
Definition fexp64 (e : Z) : Z := Z.max (e - 53) (-1074).

(** Nearest-even rounding of [m / 2 ^ k] to an integer, [m] non-negative. *)
Definition rne (m k : Z) : Z :=
  if k <=? 0 then m
  else
    let q := m / 2 ^ k in
    match 2 * (m mod 2 ^ k) ?= 2 ^ k with
    | Lt => q
    | Eq => if Z.even q then q else q + 1
    | Gt => q + 1
    end.

(** The magnitude of a positive dyadic: [2 ^ (mag - 1) <= m * 2 ^ e < 2 ^ mag]. *)
Definition mag (m e : Z) : Z := Zdigits2 m + e.

(** The mantissa and exponent the rounding of the exact dyadic [m * 2 ^ e]
    settles on, before the overflow test. *)
Definition round_shift (m e : Z) : Z := fexp64 (mag m e) - e.
Definition round_mant (m e : Z) : Z := rne m (round_shift m e).
Definition round_exp (m e : Z) : Z := Z.max e (fexp64 (mag m e)).

Definition round_exact (m e : Z) : Z * Z :=
  let m1 := round_mant m e in
  let e1 := e + Z.max 0 (round_shift m e) in
  let k2 := fexp64 (Zdigits2 m1 + e1) - e1 in
  (if 0 <? k2 then m1 / 2 ^ k2 else m1, e1 + Z.max 0 k2).

Definition pack (s : bool) (me : Z * Z) : float :=
  match fst me with
  | Z0 => S754_zero s
  | Zpos p => if snd me <=? 971 then S754_finite s p (snd me) else S754_infinity s
  | Zneg _ => S754_nan
  end.

(** The rational [m * 2 ^ e]. *)
Definition F2Q (m e : Z) : Q := (inject_Z m * 2 ^ e)%Q.

(** A positive mantissa and its exponent in the canonical form of the format
    (no bound on the exponent from above). *)
Definition canonical (m e : Z) : Prop := 0 < m /\ fexp64 (Zdigits2 m + e) = e.

(** The rational a float stands for; zero for what is not finite. *)
Definition B2Q (x : float) : Q :=
  match x with
  | S754_finite s m e => F2Q (cond_Zopp s (Zpos m)) e
  | _ => 0%Q
  end.

(** The floats the interpreter can hold: mantissa and exponent in range. *)
Definition valid (x : float) : Prop := valid_binary prec emax x = true.

(** The value [round_exact] settles on. *)
Definition rval (m e : Z) : Q :=
  F2Q (fst (round_exact m e)) (snd (round_exact m e)).

(** The rounded value of a dyadic that [binary_round] pads first. *)
Definition aligned_rval (m e : Z) : Q :=
  rval (m * 2 ^ (e - Z.min e (fexp64 (mag m e)))) (Z.min e (fexp64 (mag m e))).

(** Where an infinity sits among the values, and the overflow of a rounded
    value. *)
Definition B2Qx (x : float) : Q :=
  match x with
  | S754_infinity s => if s then (- F2Q 1 1025)%Q else F2Q 1 1025
  | _ => B2Q x
  end.

Definition clip (q : Q) : Q :=
  if Qlt_le_dec q (F2Q 1 1024) then q else F2Q 1 1025.

(** The mantissa and the exponent of a finite float. *)
Definition mant (x : float) : Z :=
  match x with S754_finite _ m _ => Zpos m | _ => 0 end.
Definition expo (x : float) : Z :=
  match x with S754_finite _ _ e => e | _ => 0 end.

(** [x <= y], or one of the two is not a number. *)
Definition mle (x y : float) : Prop :=
  is_nan x = true \/ is_nan y = true \/ leb x y = true.

(** Lines 63-64: the luminance after contrast and brightness; and line 65,
    its clamp, the value that line 66 raises to the power [gamma]. *)
Definition pre_clamp (lum brightness contrast : float) : float :=
  mul (add (mul (sub lum half) contrast) half) brightness.

Definition gamma_base (lum brightness contrast : float) : float :=
  clamp (pre_clamp lum brightness contrast) zero one.

(** Line 66 on its own: the power, then the clamp. *)
Definition gamma_step (libm_pow : float -> float -> float) (base gamma : float)
  : result float :=
  p <- py_pow libm_pow base gamma ;;
  x <- as_ordered p ;;
  Ok (clamp x zero one).

(** Lines 63-69: from the normalised luminance of a pixel to its index. *)
Definition luminance_index (libm_pow : float -> float -> float) (lum : float)
    (ramp_len : Z) (brightness contrast gamma : float) : result Z :=
  l <- adjust libm_pow lum brightness contrast gamma ;;
  glyph_index l ramp_len.

(** What the monotonicity of the index needs of the C library's [pow] at
    exponent [gamma]: it returns floats, and on bases strictly between 0 and 1
    it is monotone once clamped to [[0, 1]] (increasing for a positive
    exponent; at least 1.0 throughout, hence constant once clamped, for a
    negative one). *)
Definition pow_monotone (libm_pow : float -> float -> float) (gamma : float)
  : Prop :=
  (forall x, valid x -> valid (libm_pow x gamma)) /\
  (forall x y, valid x -> valid y ->
     ltb zero x = true -> leb x y = true -> ltb y one = true ->
     mle (clamp (libm_pow x gamma) zero one) (clamp (libm_pow y gamma) zero one)).

(** What the gamma step can yield: a value that is not a number, 1.0, a
    zero, or the clamped result of the C library's [pow]. *)
Definition gamma_class (libm_pow : float -> float -> float) (x g f : float)
  : Prop :=
  is_nan f = true \/
  (f = one /\
   ((B2Qx x == 1)%Q \/ eqb g zero = true \/
    (is_inf g = true /\ ltb zero g = false))) \/
  (is_nan x = false /\ is_nan f = false /\ (B2Qx f == 0)%Q /\
   eqb g zero = false /\
   ((is_inf g = true /\ ltb zero g = true /\ (B2Qx x < 1)%Q) \/
    (is_inf g = false /\ (B2Qx x == 0)%Q))) \/
  (is_nan x = false /\ f = clamp (libm_pow x g) zero one /\
   (0 < B2Qx x)%Q /\ (B2Qx x < 1)%Q /\
   eqb g zero = false /\ is_inf g = false).

(** ** Definitions for the further properties *)

(** A valid finite float. *)
Definition good (x : float) : Prop := valid x /\ is_finite x = true.

(** The largest finite float, and the largest float below 1.0,
    [0.9999999999999999]. *)
Definition max_float : float := S754_finite false 9007199254740991 971.
Definition pred_one : float := S754_finite false 9007199254740991 (-53).

(** Line 58 on the floats of the three channels. *)
Definition luma_unit (fr fg fb : float) : float :=
  mul (add (add (mul c_0_2126 fr) (mul c_0_7152 fg)) (mul c_0_0722 fb)) inv_255.

(** An 8-bit RGB pixel. *)
Definition rgb8 (px : Z * Z * Z) : Prop :=
  let '(r, g, b) := px in
  0 <= r <= 255 /\ 0 <= g <= 255 /\ 0 <= b <= 255.

(** What rendering without failure needs of the C library's [pow] at exponent
    [gamma]: on a base strictly between 0 and 1 it returns a finite float. *)
Definition pow_finite (libm_pow : float -> float -> float) (gamma : float)
  : Prop :=
  forall x, valid x -> ltb zero x = true -> ltb x one = true ->
    valid (libm_pow x gamma) /\ is_finite (libm_pow x gamma) = true.

(** A string all of whose characters satisfy [P]; one in which the character
    [c] does not occur; a character that occurs in a string; how many times
    it does. *)
Fixpoint each_char (P : ascii -> Prop) (s : string) : Prop :=
  match s with
  | EmptyString => True
  | String a s' => P a /\ each_char P s'
  end.

Definition lacks (c : ascii) (s : string) : Prop :=
  each_char (fun a => a <> c) s.

Fixpoint occurs (c : ascii) (s : string) : Prop :=
  match s with
  | EmptyString => False
  | String a s' => a = c \/ occurs c s'
  end.

Fixpoint count_char (c : ascii) (s : string) : nat :=
  match s with
  | EmptyString => 0
  | String a s' => (if Ascii.eqb a c then 1 else 0) + count_char c s'
  end.

(** The line break. *)
Definition LF : ascii := ascii_of_nat 10.

(** The lines of a text: the strings between its line breaks, as
    [str.split] gives them at the line break. *)
Fixpoint split_lines (s : string) : list string :=
  match s with
  | EmptyString => [EmptyString]
  | String c s' =>
      let ls := split_lines s' in
      if Ascii.eqb c LF then EmptyString :: ls
      else String c (hd EmptyString ls) :: tl ls
  end.

(** The characters of a decimal numeral: the digits and the minus sign. *)
Definition numeric (c : ascii) : bool :=
  existsb (Ascii.eqb c)
    ["-"; "0"; "1"; "2"; "3"; "4"; "5"; "6"; "7"; "8"; "9"]%char.

(** What a terminal shows of a text: the characters outside the escape
    sequences, an escape sequence running from the escape character to the
    next [m]. *)
Fixpoint visible_from (esc : bool) (s : string) : string :=
  match s with
  | EmptyString => EmptyString
  | String c s' =>
      if esc then visible_from (negb (Ascii.eqb c "m")) s'
      else if Ascii.eqb c ESC then visible_from true s'
      else String c (visible_from false s')
  end.

Definition visible (s : string) : string := visible_from false s.

(** The command line with every option left out. *)
Definition no_options (image : string) : CommandLine := {|
  cl_image := image;
  cl_width := None;
  cl_ramp := None;
  cl_custom_ramp := None;
  cl_no_color := false;
  cl_brightness := None;
  cl_contrast := None;
  cl_gamma := None;
  cl_aspect := None
|}.
(** * Properties *)

(** ** The error monad *)

Lemma bind_Ok {A B : Type} (m : result A) (k : A -> result B) (b : B) :
  bind m k = Ok b -> exists a, m = Ok a /\ k a = Ok b.
Proof. destruct m as [a|e]; simpl; [eauto | discriminate]. Qed.

Lemma bind_Raise {A B : Type} (m : result A) (k : A -> result B) (e : exn) :
  bind m k = Raise e -> m = Raise e \/ exists a, m = Ok a /\ k a = Raise e.
Proof. destruct m as [a|e']; simpl; [eauto | intros [= ->]; auto]. Qed.

Ltac inv_bind H :=
  let a := fresh "a" in
  let Ha := fresh "H" a in
  apply bind_Ok in H; destruct H as (a & Ha & H).

Lemma mapM_length {A B : Type} (f : A -> result B) (xs : list A) (ys : list B) :
  mapM f xs = Ok ys -> List.length ys = List.length xs.
Proof.
  revert ys; induction xs as [|x xs IH]; simpl; intros ys H.
  - now inversion H.
  - inv_bind H. inv_bind H. inversion H; subst; simpl.
    f_equal; eauto.
Qed.

Lemma mapM_nth {A B : Type} (f : A -> result B) (xs : list A) (ys : list B)
    (i : nat) (dx : A) (dy : B) :
  mapM f xs = Ok ys -> (i < List.length xs)%nat ->
  f (nth i xs dx) = Ok (nth i ys dy).
Proof.
  revert ys i; induction xs as [|x xs IH]; simpl; intros ys i H Hi.
  - lia.
  - inv_bind H. inv_bind H. inversion H; subst.
    destruct i as [|i]; simpl; [assumption | apply IH; [assumption | lia]].
Qed.

Lemma mapM_total {A B : Type} (f : A -> result B) (xs : list A) :
  (forall x, In x xs -> exists y, f x = Ok y) ->
  exists ys, mapM f xs = Ok ys.
Proof.
  induction xs as [|x xs IH]; simpl; intros Hf.
  - eauto.
  - destruct (Hf x) as [y Hy]; [auto |].
    destruct IH as [ys Hys]; [intros; apply Hf; auto |].
    exists (y :: ys). now rewrite Hy, Hys.
Qed.

Lemma mapM_map {A B : Type} (f : A -> result B) (g : A -> B) (xs : list A) :
  (forall x, In x xs -> f x = Ok (g x)) -> mapM f xs = Ok (map g xs).
Proof.
  induction xs as [|x xs IH]; simpl; intros Hf; [reflexivity |].
  rewrite Hf by auto. simpl. rewrite IH by auto. reflexivity.
Qed.

Lemma range_length (n : Z) : List.length (range n) = Z.to_nat n.
Proof. unfold range. now rewrite length_map, length_seq. Qed.

Lemma range_nth (n : Z) (i : nat) :
  (i < Z.to_nat n)%nat -> nth i (range n) 0 = Z.of_nat i.
Proof.
  intros Hi. unfold range.
  change 0 with (Z.of_nat 0). rewrite map_nth, seq_nth by assumption.
  reflexivity.
Qed.

Lemma range_In (n x : Z) : In x (range n) <-> 0 <= x < n.
Proof.
  unfold range. rewrite in_map_iff. split.
  - intros (i & <- & Hi). apply in_seq in Hi. lia.
  - intros Hx. exists (Z.to_nat x). split; [lia | apply in_seq; lia].
Qed.
(** ** Binary64 rounding *)

Lemma digits2_bounds (p : positive) :
  2 ^ (Zpos (digits2_pos p) - 1) <= Zpos p < 2 ^ Zpos (digits2_pos p).
Proof.
  induction p as [p IH|p IH|]; simpl digits2_pos;
    [rewrite Pos2Z.inj_succ; change (Zpos p~1) with (2 * Zpos p + 1)
    |rewrite Pos2Z.inj_succ; change (Zpos p~0) with (2 * Zpos p)
    |simpl; lia].
  all: pose proof (Pos2Z.is_pos (digits2_pos p)) as Hd;
    revert IH Hd; generalize (Zpos (digits2_pos p)); intros d IH Hd;
    replace (Z.succ d - 1) with (Z.succ (d - 1)) by lia;
    rewrite !Z.pow_succ_r by lia; lia.
Qed.

Lemma iter_pos_nat {A : Type} (f : A -> A) (p : positive) (x : A) :
  iter_pos f p x = Nat.iter (Pos.to_nat p) f x.
Proof.
  revert x; induction p as [p IH|p IH|]; intros x; simpl iter_pos.
  - rewrite !IH, Pos2Nat.inj_xI.
    replace (S (2 * Pos.to_nat p)) with (Pos.to_nat p + (Pos.to_nat p + 1))%nat by lia.
    rewrite !Nat.iter_add. reflexivity.
  - rewrite !IH, Pos2Nat.inj_xO.
    replace (2 * Pos.to_nat p)%nat with (Pos.to_nat p + Pos.to_nat p)%nat by lia.
    rewrite Nat.iter_add. reflexivity.
  - reflexivity.
Qed.

Lemma shr_1_nonneg (m : Z) (r s : bool) :
  0 <= m ->
  shr_1 (Build_shr_record m r s) = Build_shr_record (m / 2) (Z.odd m) (r || s).
Proof.
  intros Hm. destruct m as [|[p|p|]|p]; try lia; simpl shr_1; f_equal.
  - change (Zpos p~1) with (2 * Zpos p + 1). apply Z.div_unique with 1; lia.
  - change (Zpos p~0) with (2 * Zpos p). apply Z.div_unique with 0; lia.
Qed.

(** The state after [j + 1] right shifts of [m]. *)
Lemma shr_iter (m : Z) (j : nat) :
  0 <= m ->
  Nat.iter (S j) shr_1 (Build_shr_record m false false) =
  Build_shr_record (m / 2 ^ Z.of_nat (S j)) (Z.odd (m / 2 ^ Z.of_nat j))
    (negb (m mod 2 ^ Z.of_nat j =? 0)).
Proof.
  intros Hm. induction j as [|j IH].
  - cbn [Nat.iter nat_rect]. rewrite shr_1_nonneg by assumption.
    change (2 ^ Z.of_nat 0) with 1. change (2 ^ Z.of_nat 1) with 2.
    rewrite Z.div_1_r, Z.mod_1_r. reflexivity.
  - rewrite (Nat.iter_succ (S j)), IH.
    assert (Hp0 : 0 < 2 ^ Z.of_nat (S j)) by (apply Z.pow_pos_nonneg; lia).
    rewrite shr_1_nonneg by (apply Z.div_pos; lia).
    assert (Hp : 0 < 2 ^ Z.of_nat j) by (apply Z.pow_pos_nonneg; lia).
    assert (E1 : 2 ^ Z.of_nat (S j) = 2 ^ Z.of_nat j * 2)
      by (rewrite Nat2Z.inj_succ, Z.pow_succ_r by lia; lia).
    assert (E2 : 2 ^ Z.of_nat (S (S j)) = 2 ^ Z.of_nat (S j) * 2)
      by (rewrite (Nat2Z.inj_succ (S j)), Z.pow_succ_r by lia; lia).
    f_equal.
    + rewrite E2, Z.div_div by lia. reflexivity.
    + rewrite E1.
      pose proof (Z.div_mod m (2 ^ Z.of_nat j) ltac:(lia)) as D.
      pose proof (Z.mod_pos_bound m (2 ^ Z.of_nat j) Hp) as B.
      set (q := m / 2 ^ Z.of_nat j) in *. set (r := m mod 2 ^ Z.of_nat j) in *.
      pose proof (Z.div_mod q 2 ltac:(lia)) as D2.
      pose proof (Z.mod_pos_bound q 2 ltac:(lia)) as B2.
      assert (Er : m mod (2 ^ Z.of_nat j * 2) = 2 ^ Z.of_nat j * (q mod 2) + r).
      { symmetry. apply Z.mod_unique with (q / 2); [left|]; nia. }
      rewrite Er. rewrite Zodd_mod.
      destruct (Z.eqb_spec (q mod 2) 1) as [E|E], (Z.eqb_spec r 0) as [F|F]; simpl;
        symmetry; first [apply Z.eqb_eq | apply Z.eqb_neq | idtac]; try nia.
      all: try (destruct (Z.eqb_spec (2 ^ Z.of_nat j * (q mod 2) + r) 0); simpl; try reflexivity; nia).
Qed.



Lemma shr_exact (m e k : Z) :
  0 <= m ->
  let '(mrs, e') := shr (Build_shr_record m false false) e k in
  round_nearest_even (shr_m mrs) (loc_of_shr_record mrs) = rne m k /\
  shr_m mrs = (if 0 <? k then m / 2 ^ k else m) /\
  e' = e + Z.max 0 k.
Proof.
  intros Hm. destruct k as [|p|p]; simpl shr.
  - cbn. repeat split; lia.
  - rewrite iter_pos_nat.
    destruct (Pos2Nat.is_succ p) as [j Hj]. rewrite Hj, shr_iter by assumption.
    assert (Ek : Zpos p = Z.of_nat (S j)) by lia.
    rewrite Ek. cbn [shr_m].
    assert (Hp : 0 < 2 ^ Z.of_nat j) by (apply Z.pow_pos_nonneg; lia).
    assert (E1 : 2 ^ Z.of_nat (S j) = 2 ^ Z.of_nat j * 2)
      by (rewrite Nat2Z.inj_succ, Z.pow_succ_r by lia; lia).
    split; [| split; [reflexivity | lia]].
    unfold rne. replace (Z.of_nat (S j) <=? 0) with false by (symmetry; apply Z.leb_gt; lia).
    rewrite E1.
    pose proof (Z.div_mod m (2 ^ Z.of_nat j) ltac:(lia)) as D.
    pose proof (Z.mod_pos_bound m (2 ^ Z.of_nat j) Hp) as B.
    rewrite <- (Z.div_div m _ 2) by lia.
    set (q := m / 2 ^ Z.of_nat j) in *. set (r := m mod 2 ^ Z.of_nat j) in *.
    pose proof (Z.div_mod q 2 ltac:(lia)) as D2.
    pose proof (Z.mod_pos_bound q 2 ltac:(lia)) as B2.
    assert (Er : m mod (2 ^ Z.of_nat j * 2) = 2 ^ Z.of_nat j * (q mod 2) + r).
    { symmetry. apply Z.mod_unique with (q / 2); [left|]; nia. }
    rewrite Er, Zodd_mod.
    destruct (Z.eqb_spec (q mod 2) 1) as [E|E], (Z.eqb_spec r 0) as [F|F];
      cbn [negb loc_of_shr_record round_nearest_even];
      match goal with
      | |- context [?a ?= ?b] => destruct (Z.compare_spec a b)
      end; try reflexivity; nia.
  - cbn. repeat split; lia.
Qed.

Lemma rne_nonneg m k : 0 <= m -> 0 <= rne m k.
Proof.
  intros Hm. unfold rne.
  destruct (Z.leb_spec k 0) as [L|G]; [assumption |].
  assert (0 <= m / 2 ^ k) by (apply Z.div_pos; [assumption | apply Z.pow_pos_nonneg; lia]).
  destruct (_ ?= _); [destruct (Z.even _) | |]; lia.
Qed.


Lemma binary_round_aux_exact (s : bool) (m e : Z) :
  0 <= m ->
  binary_round_aux 53 1024 s m e loc_Exact = pack s (round_exact m e).
Proof.
  intros Hm.
  unfold binary_round_aux, shr_fexp, round_exact, round_mant, round_shift, mag, pack.
  change (fexp 53 1024) with fexp64. cbn [shr_record_of_loc].
  pose proof (shr_exact m e (fexp64 (Zdigits2 m + e) - e) Hm) as H1.
  destruct (shr _ e _) as [mrs1 e1]. destruct H1 as (R1 & _ & E1).
  rewrite R1. subst e1.
  set (m1 := rne m _). set (e1 := e + Z.max 0 _).
  pose proof (shr_exact m1 e1 (fexp64 (Zdigits2 m1 + e1) - e1) (rne_nonneg _ _ Hm)) as H2.
  destruct (shr _ e1 _) as [mrs2 e2]. destruct H2 as (_ & M2 & E2).
  rewrite M2, E2. cbn [fst snd]. reflexivity.
Qed.


Lemma Qpow2_pos (e : Z) : (0 < 2 ^ e)%Q.
Proof. apply Qpower_0_lt. reflexivity. Qed.

Lemma Qpow2_inject (k : Z) : 0 <= k -> (inject_Z (2 ^ k) == 2 ^ k)%Q.
Proof. intros Hk. now rewrite Zpower_Qpower. Qed.

Lemma F2Q_scale (m e k : Z) : 0 <= k -> (F2Q (m * 2 ^ k) e == F2Q m (e + k))%Q.
Proof.
  intros Hk. unfold F2Q.
  rewrite inject_Z_mult, Qpow2_inject by assumption.
  rewrite (Qpower_plus 2 e k) by discriminate. ring.
Qed.

Lemma F2Q_le (a b e : Z) : (F2Q a e <= F2Q b e)%Q <-> a <= b.
Proof.
  unfold F2Q. rewrite Qmult_le_r by apply Qpow2_pos.
  rewrite <- Zle_Qle. reflexivity.
Qed.

Lemma F2Q_lt (a b e : Z) : (F2Q a e < F2Q b e)%Q <-> a < b.
Proof.
  unfold F2Q. rewrite Qmult_lt_r by apply Qpow2_pos.
  rewrite <- Zlt_Qlt. reflexivity.
Qed.

(** Comparing two dyadics at any exponent [c] below both. *)
Lemma F2Q_le_at (c a ea b eb : Z) :
  c <= ea -> c <= eb ->
  (F2Q a ea <= F2Q b eb)%Q <-> a * 2 ^ (ea - c) <= b * 2 ^ (eb - c).
Proof.
  intros Ha Hb.
  replace ea with (c + (ea - c)) at 1 by lia.
  replace eb with (c + (eb - c)) at 1 by lia.
  rewrite <- !F2Q_scale by lia. apply F2Q_le.
Qed.

Lemma F2Q_lt_at (c a ea b eb : Z) :
  c <= ea -> c <= eb ->
  (F2Q a ea < F2Q b eb)%Q <-> a * 2 ^ (ea - c) < b * 2 ^ (eb - c).
Proof.
  intros Ha Hb.
  replace ea with (c + (ea - c)) at 1 by lia.
  replace eb with (c + (eb - c)) at 1 by lia.
  rewrite <- !F2Q_scale by lia. apply F2Q_lt.
Qed.

Lemma F2Q_mul (a ea b eb : Z) : (F2Q (a * b) (ea + eb) == F2Q a ea * F2Q b eb)%Q.
Proof.
  unfold F2Q. rewrite inject_Z_mult, (Qpower_plus 2 ea eb) by discriminate. ring.
Qed.

Lemma F2Q_nonneg (m e : Z) : 0 <= m -> (0 <= F2Q m e)%Q.
Proof.
  intros Hm. unfold F2Q. apply Qmult_le_0_compat.
  - change 0%Q with (inject_Z 0). now rewrite <- Zle_Qle.
  - apply Qlt_le_weak, Qpow2_pos.
Qed.

Lemma F2Q_pos (m e : Z) : 0 < m -> (0 < F2Q m e)%Q.
Proof.
  intros Hm. unfold F2Q. apply Qmult_lt_0_compat.
  - change 0%Q with (inject_Z 0). now rewrite <- Zlt_Qlt.
  - apply Qpow2_pos.
Qed.


Lemma Zdigits2_bounds (m : Z) :
  0 < m -> 2 ^ (Zdigits2 m - 1) <= m < 2 ^ Zdigits2 m.
Proof. destruct m; try lia. intros _. apply digits2_bounds. Qed.

Lemma Zdigits2_pos (m : Z) : 0 < m -> 0 < Zdigits2 m.
Proof. destruct m; simpl; lia. Qed.

Lemma Zdigits2_unique (m d : Z) :
  2 ^ (d - 1) <= m < 2 ^ d -> 0 < d -> Zdigits2 m = d.
Proof.
  intros H Hd.
  assert (Hm : 0 < m).
  { assert (0 < 2 ^ (d - 1)) by (apply Z.pow_pos_nonneg; lia). lia. }
  pose proof (Zdigits2_bounds m Hm) as B. pose proof (Zdigits2_pos m Hm) as P.
  destruct (Z.lt_trichotomy (Zdigits2 m) d) as [L|[E|G]]; [exfalso | assumption | exfalso].
  - assert (2 ^ Zdigits2 m <= 2 ^ (d - 1)) by (apply Z.pow_le_mono_r; lia). lia.
  - assert (2 ^ d <= 2 ^ (Zdigits2 m - 1)) by (apply Z.pow_le_mono_r; lia). lia.
Qed.

Lemma Zdigits2_mono (a b : Z) : 0 < a -> a <= b -> Zdigits2 a <= Zdigits2 b.
Proof.
  intros Ha Hab.
  pose proof (Zdigits2_bounds a Ha) as Ba.
  pose proof (Zdigits2_bounds b ltac:(lia)) as Bb.
  destruct (Z_le_gt_dec (Zdigits2 a) (Zdigits2 b)) as [|G]; [assumption | exfalso].
  assert (2 ^ Zdigits2 b <= 2 ^ (Zdigits2 a - 1)) by (apply Z.pow_le_mono_r; lia). lia.
Qed.

Lemma Zdigits2_scale (m k : Z) :
  0 < m -> 0 <= k -> Zdigits2 (m * 2 ^ k) = Zdigits2 m + k.
Proof.
  intros Hm Hk. pose proof (Zdigits2_bounds m Hm) as B.
  pose proof (Zdigits2_pos m Hm) as P.
  apply Zdigits2_unique; [| lia].
  replace (Zdigits2 m + k - 1) with (Zdigits2 m - 1 + k) by lia.
  rewrite !Z.pow_add_r by lia.
  assert (0 < 2 ^ k) by (apply Z.pow_pos_nonneg; lia). nia.
Qed.

Lemma mag_le (a ea b eb : Z) :
  0 < a -> 0 < b -> (F2Q a ea <= F2Q b eb)%Q -> mag a ea <= mag b eb.
Proof.
  intros Ha Hb H. unfold mag.
  set (c := Z.min ea eb).
  apply (F2Q_le_at c) in H; [| lia | lia].
  assert (Ha' : 0 < a * 2 ^ (ea - c)) by (apply Z.mul_pos_pos; [| apply Z.pow_pos_nonneg]; lia).
  apply (Zdigits2_mono _ _ Ha') in H.
  rewrite !Zdigits2_scale in H by lia. lia.
Qed.

Section Rne.
Variables (k : Z).
Hypothesis Hk : 0 < k.

Lemma pow2_shift_pos : 0 < 2 ^ k.
Proof. apply Z.pow_pos_nonneg; lia. Qed.

Lemma rne_floor (m : Z) : m / 2 ^ k <= rne m k <= m / 2 ^ k + 1.
Proof.
  unfold rne. replace (k <=? 0) with false by (symmetry; apply Z.leb_gt; lia).
  destruct (_ ?= _); [destruct (Z.even _) | |]; lia.
Qed.

Lemma rne_exact (g : Z) : rne (g * 2 ^ k) k = g.
Proof.
  unfold rne. replace (k <=? 0) with false by (symmetry; apply Z.leb_gt; lia).
  set (P := 2 ^ k) in *. pose proof pow2_shift_pos as HP. fold P in HP. rewrite Z.mod_mul, Z.div_mul by lia.
  destruct (Z.compare_spec (2 * 0) P); lia.
Qed.

Lemma rne_mono (a b : Z) : a <= b -> rne a k <= rne b k.
Proof.
  intros Hab. unfold rne.
  replace (k <=? 0) with false by (symmetry; apply Z.leb_gt; lia). set (P := 2 ^ k) in *. pose proof pow2_shift_pos as HP. fold P in HP.
  pose proof (Z.div_mod a P ltac:(lia)) as Da.
  pose proof (Z.mod_pos_bound a P HP) as Ba.
  pose proof (Z.div_mod b P ltac:(lia)) as Db.
  pose proof (Z.mod_pos_bound b P HP) as Bb.
  assert (Hq : a / P <= b / P) by (apply Z.div_le_mono; lia).
  destruct (Z.eq_dec (a / P) (b / P)) as [E|N].
  - rewrite E in *.
    destruct (Z.compare_spec (2 * (a mod P)) P), (Z.compare_spec (2 * (b mod P)) P);
      destruct (Z.even (b / P)); lia.
  - destruct (Z.compare_spec (2 * (a mod P)) P), (Z.compare_spec (2 * (b mod P)) P);
      destruct (Z.even (a / P)), (Z.even (b / P)); lia.
Qed.

Lemma rne_le_grid (m g : Z) : m <= g * 2 ^ k -> rne m k <= g.
Proof. intros H. rewrite <- (rne_exact g). now apply rne_mono. Qed.

Lemma rne_ge_grid (m g : Z) : g * 2 ^ k <= m -> g <= rne m k.
Proof. intros H. rewrite <- (rne_exact g). now apply rne_mono. Qed.

Lemma rne_scale (m j : Z) : 0 <= j -> rne (m * 2 ^ j) (k + j) = rne m k.
Proof.
  intros Hj. unfold rne.
  replace (k <=? 0) with false by (symmetry; apply Z.leb_gt; lia).
  replace (k + j <=? 0) with false by (symmetry; apply Z.leb_gt; lia).
  rewrite Z.pow_add_r by lia. set (P := 2 ^ k) in *. pose proof pow2_shift_pos as HP. fold P in HP.
  assert (HJ : 0 < 2 ^ j) by (apply Z.pow_pos_nonneg; lia).
  rewrite Z.div_mul_cancel_r by lia.
  rewrite Z.mul_mod_distr_r by lia.
  replace (2 * (m mod P * 2 ^ j) ?= P * 2 ^ j) with (2 * (m mod P) ?= P).
  - reflexivity.
  - rewrite Z.mul_assoc.
    destruct (Z.compare_spec (2 * (m mod P)) P),
      (Z.compare_spec (2 * (m mod P) * 2 ^ j) (P * 2 ^ j)); try reflexivity; nia.
Qed.
End Rne.

Lemma rne_mono_cross (a ka b kb : Z) :
  0 < ka -> 0 < kb -> a * 2 ^ kb <= b * 2 ^ ka -> rne a ka <= rne b kb.
Proof.
  intros Ha Hb H.
  rewrite <- (rne_scale ka Ha a kb), <- (rne_scale kb Hb b ka) by lia.
  rewrite (Z.add_comm kb ka). apply rne_mono; [lia | assumption].
Qed.


Lemma pow2_53 : 2 ^ 53 = 9007199254740992.
Proof. reflexivity. Qed.

Lemma digits_le_53 (m : Z) : 0 < m -> m < 2 ^ 53 -> Zdigits2 m <= 53.
Proof.
  intros Hm Hlt. pose proof (Zdigits2_bounds m Hm) as B.
  destruct (Z_le_gt_dec (Zdigits2 m) 53) as [|G]; [assumption | exfalso].
  assert (2 ^ 53 <= 2 ^ (Zdigits2 m - 1)) by (apply Z.pow_le_mono_r; lia). lia.
Qed.

Lemma digits_ge_53 (m : Z) : 2 ^ 52 <= m -> 53 <= Zdigits2 m.
Proof.
  intros Hm. assert (Hm' : 0 < m) by (change (2 ^ 52) with 4503599627370496 in Hm; lia).
  pose proof (Zdigits2_bounds m Hm') as B.
  destruct (Z_le_gt_dec 53 (Zdigits2 m)) as [|G]; [assumption | exfalso].
  assert (2 ^ Zdigits2 m <= 2 ^ 52) by (apply Z.pow_le_mono_r; lia). lia.
Qed.

Section RoundExact.
Variables (m e : Z).
Hypothesis Hm : 0 < m.

Lemma round_exact_mantissa : 0 <= round_mant m e <= 2 ^ 53.
Proof.
  split; [apply rne_nonneg; lia |].
  pose proof (Zdigits2_bounds m Hm) as B.
  unfold round_mant. destruct (Z.leb_spec (round_shift m e) 0) as [L|G].
  - unfold rne. replace (round_shift m e <=? 0) with true
      by (symmetry; apply Z.leb_le; lia).
    assert (H53 : Zdigits2 m <= 53) by (unfold round_shift, mag, fexp64 in L; lia).
    assert (2 ^ Zdigits2 m <= 2 ^ 53) by (apply Z.pow_le_mono_r; lia). lia.
  - apply rne_le_grid; [assumption |].
    rewrite <- Z.pow_add_r by lia.
    assert (2 ^ Zdigits2 m <= 2 ^ (53 + round_shift m e))
      by (apply Z.pow_le_mono_r; unfold round_shift, mag, fexp64 in *; lia).
    lia.
Qed.

Lemma round_exact_shape :
  (round_mant m e < 2 ^ 53 /\ round_exact m e = (round_mant m e, round_exp m e)) \/
  (round_mant m e = 2 ^ 53 /\ round_exact m e = (2 ^ 52, round_exp m e + 1)).
Proof.
  pose proof round_exact_mantissa as [H0 H53].
  assert (He1 : e + Z.max 0 (round_shift m e) = round_exp m e)
    by (unfold round_exp, round_shift; lia).
  assert (Hmin : -1074 <= round_exp m e) by (unfold round_exp, fexp64; lia).
  unfold round_exact. rewrite He1.
  destruct (Z.eq_dec (round_mant m e) (2 ^ 53)) as [E|N]; [right | left];
    (split; [lia |]).
  - rewrite E. change (Zdigits2 (2 ^ 53)) with 54.
    replace (fexp64 (54 + round_exp m e) - round_exp m e) with 1
      by (unfold fexp64; lia).
    reflexivity.
  - assert (Hk2 : fexp64 (Zdigits2 (round_mant m e) + round_exp m e)
                    - round_exp m e <= 0).
    { destruct (Z.eq_dec (round_mant m e) 0) as [Z|NZ].
      - rewrite Z. simpl Zdigits2. unfold fexp64. lia.
      - pose proof (digits_le_53 (round_mant m e) ltac:(lia) ltac:(lia)).
        unfold fexp64. lia. }
    replace (0 <? _) with false by (symmetry; apply Z.ltb_ge; lia).
    f_equal. lia.
Qed.

Lemma round_exact_value :
  (F2Q (fst (round_exact m e)) (snd (round_exact m e))
   == F2Q (round_mant m e) (round_exp m e))%Q.
Proof.
  destruct round_exact_shape as [[_ ->]|[E ->]]; cbn [fst snd]; [reflexivity |].
  rewrite E. rewrite <- (F2Q_scale (2 ^ 52) (round_exp m e) 1) by lia. reflexivity.
Qed.

Lemma round_exact_nonneg : 0 <= fst (round_exact m e).
Proof.
  pose proof round_exact_mantissa.
  destruct round_exact_shape as [[_ ->]|[_ ->]]; cbn [fst]; lia.
Qed.

Lemma round_unshifted :
  round_shift m e <= 0 -> round_mant m e = m /\ round_exp m e = e.
Proof.
  intros L. unfold round_mant, rne, round_exp.
  replace (round_shift m e <=? 0) with true by (symmetry; apply Z.leb_le; lia).
  unfold round_shift in L. lia.
Qed.

(** Rounding does not cross a canonical bound from below ... *)
Lemma round_exact_le (mb eb : Z) :
  canonical mb eb -> (F2Q m e <= F2Q mb eb)%Q ->
  (F2Q (fst (round_exact m e)) (snd (round_exact m e)) <= F2Q mb eb)%Q.
Proof.
  intros [Hb Cb] Hle. rewrite round_exact_value.
  pose proof (mag_le _ _ _ _ Hm Hb Hle) as Hmag.
  destruct (Z.leb_spec (round_shift m e) 0) as [L|G].
  - destruct (round_unshifted L) as [-> ->]. assumption.
  - assert (Ee : round_exp m e = e + round_shift m e)
      by (unfold round_exp, round_shift in *; lia).
    assert (Hg : round_exp m e <= eb).
    { rewrite <- Cb. unfold round_exp, round_shift, fexp64, mag in *. lia. }
    replace eb with (round_exp m e + (eb - round_exp m e)) by lia.
    rewrite <- F2Q_scale by lia. apply F2Q_le. apply rne_le_grid; [assumption |].
    apply (F2Q_le_at e) in Hle; [| lia | lia].
    rewrite Z.sub_diag, Z.mul_1_r in Hle.
    replace (eb - e) with ((eb - round_exp m e) + round_shift m e) in Hle by lia.
    rewrite Z.pow_add_r in Hle by lia. lia.
Qed.

(** ... nor from above. *)
Lemma round_exact_ge (mb eb : Z) :
  canonical mb eb -> (F2Q mb eb <= F2Q m e)%Q ->
  (F2Q mb eb <= F2Q (fst (round_exact m e)) (snd (round_exact m e)))%Q.
Proof.
  intros [Hb Cb] Hle. rewrite round_exact_value.
  pose proof (mag_le _ _ _ _ Hb Hm Hle) as Hmag.
  destruct (Z.leb_spec (round_shift m e) 0) as [L|G].
  - destruct (round_unshifted L) as [-> ->]. assumption.
  - assert (Ee : round_exp m e = e + round_shift m e)
      by (unfold round_exp, round_shift in *; lia).
    assert (Hg : eb <= round_exp m e).
    { rewrite <- Cb. unfold round_exp, round_shift, fexp64, mag in *. lia. }
    pose proof (Zdigits2_bounds mb Hb) as Bb.
    pose proof (Zdigits2_bounds m Hm) as Bm.
    destruct (Z.eq_dec eb (round_exp m e)) as [E|N].
    + (* the bound lies on the grid of the result *)
      rewrite E. apply F2Q_le. apply rne_ge_grid; [assumption |].
      apply (F2Q_le_at e) in Hle; [| lia | lia].
      rewrite Z.sub_diag, Z.mul_1_r in Hle.
      replace (eb - e) with (round_shift m e) in Hle by lia. assumption.
    + (* the bound lies below the binade of [m * 2 ^ e] *)
      assert (Hd : Zdigits2 mb + eb < Zdigits2 m + e)
        by (unfold round_exp, round_shift, fexp64, mag in *; lia).
      assert (He1 : round_exp m e = Zdigits2 m + e - 53)
        by (unfold round_exp, round_shift, fexp64, mag in *; lia).
      apply Qle_trans with (F2Q (2 ^ 52) (round_exp m e)).
      * apply (F2Q_le_at eb); [lia | lia |].
        rewrite Z.sub_diag, Z.mul_1_r, <- Z.pow_add_r by lia.
        assert (2 ^ Zdigits2 mb <= 2 ^ (52 + (round_exp m e - eb)))
          by (apply Z.pow_le_mono_r; lia).
        lia.
      * apply F2Q_le. apply rne_ge_grid; [assumption |].
        rewrite <- Z.pow_add_r by lia.
        assert (2 ^ (52 + round_shift m e) <= 2 ^ (Zdigits2 m - 1))
          by (apply Z.pow_le_mono_r; lia).
        lia.
Qed.

(** The result is canonical when the input is not more precise than
    needed. *)
Lemma round_exact_canonical :
  e <= fexp64 (mag m e) ->
  fst (round_exact m e) = 0 \/
  canonical (fst (round_exact m e)) (snd (round_exact m e)).
Proof.
  intros Hk.
  pose proof round_exact_mantissa as [H0 H53].
  assert (Ee : round_exp m e = fexp64 (mag m e)) by (unfold round_exp; lia).
  pose proof (Zdigits2_bounds m Hm) as Bm.
  destruct round_exact_shape as [[L ->]|[E ->]]; cbn [fst snd].
  - destruct (Z.eq_dec (round_mant m e) 0) as [Z|NZ]; [left; assumption | right].
    split; [lia |].
    pose proof (digits_le_53 (round_mant m e) ltac:(lia) L) as D.
    destruct (Z.eq_dec (round_exp m e) (-1074)) as [Emin|Nmin];
      [unfold fexp64; lia |].
    assert (He1 : round_exp m e = Zdigits2 m + e - 53)
      by (unfold fexp64, mag in *; lia).
    assert (53 <= Zdigits2 (round_mant m e)); [| unfold fexp64 in *; lia].
    apply digits_ge_53.
    destruct (Z.eq_dec (round_shift m e) 0) as [K0|KN].
    + destruct (round_unshifted ltac:(lia)) as [-> _].
      assert (E53 : Zdigits2 m = 53) by (unfold round_shift, mag in *; lia).
      rewrite E53 in Bm. exact (proj1 Bm).
    + assert (0 < round_shift m e) by (unfold round_shift in *; lia).
      apply rne_ge_grid; [assumption |].
      rewrite <- Z.pow_add_r by lia.
      replace (52 + round_shift m e) with (Zdigits2 m - 1)
        by (unfold round_shift, mag in *; lia).
      lia.
  - right. split; [reflexivity |].
    change (Zdigits2 (2 ^ 52)) with 53. unfold fexp64 in *. lia.
Qed.
End RoundExact.

Lemma canonical_digits (m e : Z) : canonical m e -> Zdigits2 m <= 53 /\ -1074 <= e.
Proof. intros [Hm C]. unfold fexp64 in C. lia. Qed.

Lemma canonical_normal (m e : Z) : canonical m e -> -1074 < e -> 2 ^ 52 <= m < 2 ^ 53.
Proof.
  intros [Hm C] He. pose proof (Zdigits2_bounds m Hm) as B.
  assert (E : Zdigits2 m = 53) by (unfold fexp64 in C; lia).
  rewrite E in B. exact B.
Qed.

Lemma canonical_lt_exp (m1 e1 m2 e2 : Z) :
  canonical m1 e1 -> canonical m2 e2 -> e1 < e2 -> (F2Q m1 e1 < F2Q m2 e2)%Q.
Proof.
  intros C1 C2 He.
  pose proof (canonical_digits _ _ C1) as [D1 E1].
  pose proof (canonical_normal _ _ C2 ltac:(lia)) as N2.
  destruct C1 as [Hm1 _].
  pose proof (Zdigits2_bounds m1 Hm1) as B1.
  assert (2 ^ Zdigits2 m1 <= 2 ^ 53) by (apply Z.pow_le_mono_r; lia).
  apply (F2Q_lt_at e1); [lia | lia |].
  rewrite Z.sub_diag, Z.mul_1_r.
  assert (2 ^ 1 <= 2 ^ (e2 - e1)) by (apply Z.pow_le_mono_r; lia).
  change (2 ^ 1) with 2 in *. change (2 ^ 53) with (2 ^ 52 * 2) in *. nia.
Qed.

Lemma canonical_le_iff (m1 e1 m2 e2 : Z) :
  canonical m1 e1 -> canonical m2 e2 ->
  ((F2Q m1 e1 <= F2Q m2 e2)%Q <-> e1 < e2 \/ (e1 = e2 /\ m1 <= m2)).
Proof.
  intros C1 C2. split.
  - intros H. destruct (Z.lt_trichotomy e1 e2) as [L|[E|G]]; [auto | right | exfalso].
    + subst e2. split; [reflexivity | now apply F2Q_le in H].
    + pose proof (canonical_lt_exp _ _ _ _ C2 C1 G) as H'.
      apply Qlt_not_le in H'. contradiction.
  - intros [L|[-> L]].
    + apply Qlt_le_weak. now apply canonical_lt_exp.
    + now apply F2Q_le.
Qed.

Lemma canonical_unique (m1 e1 m2 e2 : Z) :
  canonical m1 e1 -> canonical m2 e2 -> (F2Q m1 e1 == F2Q m2 e2)%Q ->
  m1 = m2 /\ e1 = e2.
Proof.
  intros C1 C2 E.
  assert (L1 : (F2Q m1 e1 <= F2Q m2 e2)%Q) by (rewrite E; apply Qle_refl).
  assert (L2 : (F2Q m2 e2 <= F2Q m1 e1)%Q) by (rewrite E; apply Qle_refl).
  apply canonical_le_iff in L1, L2; try assumption. lia.
Qed.

(** Rounding leaves a representable number as it is. *)
Lemma round_exact_id (m e mb eb : Z) :
  0 < m -> e <= fexp64 (mag m e) -> canonical mb eb ->
  (F2Q m e == F2Q mb eb)%Q -> round_exact m e = (mb, eb).
Proof.
  intros Hm He Cb E.
  pose proof (round_exact_le m e Hm mb eb Cb) as U.
  pose proof (round_exact_ge m e Hm mb eb Cb) as L.
  pose proof (round_exact_canonical m e Hm He) as C.
  destruct (round_exact m e) as [m2 e2]; cbn [fst snd] in *.
  assert (U' : (F2Q m2 e2 <= F2Q mb eb)%Q) by (apply U; rewrite E; apply Qle_refl).
  assert (L' : (F2Q mb eb <= F2Q m2 e2)%Q) by (apply L; rewrite E; apply Qle_refl).
  destruct C as [Z|C].
  - exfalso. subst m2. destruct Cb as [Hb _].
    pose proof (F2Q_pos mb eb Hb) as P.
    assert (Z0 : (F2Q 0 e2 == 0)%Q) by (unfold F2Q; ring).
    rewrite Z0 in L'. apply Qlt_not_le in P. contradiction.
  - destruct (canonical_unique m2 e2 mb eb C Cb) as [-> ->]; [| reflexivity].
    now apply Qle_antisym.
Qed.



Lemma valid_finite (s : bool) (m : positive) (e : Z) :
  valid (S754_finite s m e) <-> canonical (Zpos m) e /\ e <= 971.
Proof.
  unfold valid, valid_binary, bounded, canonical_mantissa, canonical.
  rewrite andb_true_iff, Z.eqb_eq, Z.leb_le. change (emax - prec) with 971.
  change (fexp prec emax) with fexp64. simpl Zdigits2. intuition lia.
Qed.

Lemma pack_valid (s : bool) (m e : Z) :
  m = 0 \/ canonical m e -> valid (pack s (m, e)).
Proof.
  intros [->|C]; [reflexivity |].
  unfold pack. cbn [fst snd]. destruct C as [Hm C].
  destruct m as [|p|p]; try lia.
  destruct (Z.leb_spec e 971); [| reflexivity].
  apply valid_finite. split; [split |]; assumption.
Qed.

Lemma iter_xO (m d : positive) : Zpos (Pos.iter xO m d) = Zpos m * 2 ^ Zpos d.
Proof.
  induction d as [|d IH] using Pos.peano_ind.
  - simpl. lia.
  - rewrite Pos.iter_succ, Pos2Z.inj_succ, Z.pow_succ_r by lia.
    change (Zpos (Pos.iter xO m d)~0) with (2 * Zpos (Pos.iter xO m d)).
    rewrite IH. lia.
Qed.

Lemma shl_align_spec (mx : positive) (ex ex' : Z) :
  let '(mz, ez) := shl_align mx ex ex' in
  ez = Z.min ex ex' /\ Zpos mz = Zpos mx * 2 ^ (ex - ez).
Proof.
  unfold shl_align. destruct (ex' - ex) as [|d|d] eqn:E.
  - split; [lia |]. replace (ex - ex) with 0 by lia. lia.
  - split; [lia |]. replace (ex - ex) with 0 by lia. lia.
  - split; [lia |]. rewrite iter_xO. f_equal. f_equal. lia.
Qed.

(** [binary_round] first pads the mantissa down to the target exponent. *)
Lemma binary_round_exact (s : bool) (mx : positive) (ex : Z) :
  let ez := Z.min ex (fexp64 (mag (Zpos mx) ex)) in
  binary_round prec emax s mx ex =
  pack s (round_exact (Zpos mx * 2 ^ (ex - ez)) ez).
Proof.
  unfold binary_round. change (fexp prec emax) with fexp64.
  pose proof (shl_align_spec mx ex (fexp64 (Zpos (digits2_pos mx) + ex))) as H.
  destruct (shl_align _ _ _) as [mz ez]. destruct H as [-> Hz].
  change (binary_round_aux prec emax) with (binary_round_aux 53 1024).
  rewrite binary_round_aux_exact by lia. rewrite Hz. reflexivity.
Qed.

Lemma aligned_mag (m e : Z) :
  0 < m ->
  let ez := Z.min e (fexp64 (mag m e)) in
  mag (m * 2 ^ (e - ez)) ez = mag m e.
Proof.
  intros Hm ez. unfold mag at 1. rewrite Zdigits2_scale by lia.
  unfold mag. lia.
Qed.

(** The canonical form of a positive integer below [2 ^ 53]. *)
Lemma canonical_of_int (n : Z) :
  0 < n <= 2 ^ 53 ->
  exists m e, canonical m e /\ e <= 1 /\ (F2Q m e == inject_Z n)%Q.
Proof.
  intros [Hn Hle]. destruct (Z.eq_dec n (2 ^ 53)) as [->|N].
  - exists (2 ^ 52), 1. split; [split; reflexivity | split; [lia | reflexivity]].
  - pose proof (Zdigits2_bounds n Hn) as B.
    pose proof (digits_le_53 n Hn ltac:(lia)) as D.
    pose proof (Zdigits2_pos n Hn) as P.
    exists (n * 2 ^ (53 - Zdigits2 n)), (Zdigits2 n - 53). split; [split | split].
    + apply Z.mul_pos_pos; [lia | apply Z.pow_pos_nonneg; lia].
    + rewrite Zdigits2_scale by lia. unfold fexp64. lia.
    + lia.
    + rewrite F2Q_scale by lia.
      replace (Zdigits2 n - 53 + (53 - Zdigits2 n)) with 0 by lia.
      unfold F2Q. simpl. ring.
Qed.

Lemma F2Q_int (n : Z) : (F2Q n 0 == inject_Z n)%Q.
Proof. unfold F2Q. simpl. ring. Qed.

(** Conversion of an integer of at most 53 bits is exact. *)
Lemma of_Z_exact (n : Z) :
  0 < n <= 2 ^ 53 ->
  exists m e,
    of_Z n = S754_finite false m e /\ canonical (Zpos m) e /\ e <= 1 /\
    (F2Q (Zpos m) e == inject_Z n)%Q.
Proof.
  intros Hn. destruct (canonical_of_int n Hn) as (mb & eb & Cb & Hb & Eb).
  destruct n as [|p|p]; try lia.
  unfold of_Z, binary_normalize. rewrite binary_round_exact.
  set (ez := Z.min 0 _).
  rewrite (round_exact_id _ _ mb eb).
  - destruct Cb as [Hm Cb']. destruct mb as [|q|q]; try lia.
    exists q, eb. unfold pack. cbn [fst snd].
    replace (eb <=? 971) with true by (symmetry; apply Z.leb_le; lia).
    repeat split; assumption.
  - apply Z.mul_pos_pos; [lia | apply Z.pow_pos_nonneg; subst ez; lia].
  - unfold ez at 2. rewrite aligned_mag by lia. subst ez. lia.
  - assumption.
  - rewrite F2Q_scale by (subst ez; lia).
    replace (ez + (0 - ez)) with 0 by lia. now rewrite Eb, F2Q_int.
Qed.

Lemma F2Q_opp (m e : Z) : (F2Q (- m) e == - F2Q m e)%Q.
Proof. unfold F2Q. rewrite inject_Z_opp. ring. Qed.

Lemma F2Q_zero (e : Z) : (F2Q 0 e == 0)%Q.
Proof. unfold F2Q. ring. Qed.

Ltac qcompare :=
  match goal with
  | |- context [(?a ?= ?b)%Q] => destruct (Qcompare_spec a b)
  end; try reflexivity; exfalso; lra.

Lemma compare_canonical (m1 m2 : positive) (e1 e2 : Z) :
  canonical (Zpos m1) e1 -> canonical (Zpos m2) e2 ->
  match e1 ?= e2 with
  | Lt => Lt
  | Gt => Gt
  | Eq => Pos.compare_cont Eq m1 m2
  end = (F2Q (Zpos m1) e1 ?= F2Q (Zpos m2) e2)%Q.
Proof.
  intros C1 C2.
  destruct (Z.compare_spec e1 e2) as [E|L|G].
  - subst e2. fold (Pos.compare m1 m2).
    destruct (Pos.compare_spec m1 m2) as [E|L|G].
    + subst. qcompare.
    + assert ((F2Q (Zpos m1) e1 < F2Q (Zpos m2) e1)%Q) by (apply F2Q_lt; lia). qcompare.
    + assert ((F2Q (Zpos m2) e1 < F2Q (Zpos m1) e1)%Q) by (apply F2Q_lt; lia). qcompare.
  - pose proof (canonical_lt_exp _ _ _ _ C1 C2 L). qcompare.
  - pose proof (canonical_lt_exp _ _ _ _ C2 C1 G). qcompare.
Qed.

(** On valid finite floats the comparison is the comparison of the values. *)
Lemma SFcompare_B2Q (x y : float) :
  valid x -> valid y -> is_finite x = true -> is_finite y = true ->
  SFcompare x y = Some (B2Q x ?= B2Q y)%Q.
Proof.
  intros Vx Vy Fx Fy.
  destruct x as [sx| |  |sx mx ex], y as [sy| | |sy my ey]; try discriminate;
    cbn [SFcompare B2Q].
  - reflexivity.
  - pose proof (F2Q_pos (Zpos my) ey ltac:(lia)) as Py.
    pose proof (F2Q_opp (Zpos my) ey) as Oy.
    f_equal. destruct sy; cbn [cond_Zopp]; qcompare.
  - pose proof (F2Q_pos (Zpos mx) ex ltac:(lia)) as Px.
    pose proof (F2Q_opp (Zpos mx) ex) as Ox.
    f_equal. destruct sx; cbn [cond_Zopp]; qcompare.
  - apply valid_finite in Vx, Vy. destruct Vx as [Cx _], Vy as [Cy _].
    pose proof (F2Q_pos (Zpos mx) ex ltac:(lia)) as Px.
    pose proof (F2Q_pos (Zpos my) ey ltac:(lia)) as Py.
    pose proof (F2Q_opp (Zpos mx) ex) as Ox.
    pose proof (F2Q_opp (Zpos my) ey) as Oy.
    f_equal. destruct sx, sy; cbn [cond_Zopp]; try qcompare.
    + pose proof (compare_canonical mx my ex ey Cx Cy) as H.
      destruct (ex ?= ey);
        [destruct (Pos.compare_cont Eq mx my) | |]; cbn [CompOpp];
        destruct (Qcompare_spec (F2Q (Zpos mx) ex) (F2Q (Zpos my) ey)) as [E|L|G];
        try discriminate H; qcompare.
    + apply compare_canonical; assumption.
Qed.

Lemma leb_B2Q (x y : float) :
  valid x -> valid y -> is_finite x = true -> is_finite y = true ->
  (F64.leb x y = true <-> (B2Q x <= B2Q y)%Q).
Proof.
  intros Vx Vy Fx Fy. unfold F64.leb, SFleb. rewrite SFcompare_B2Q by assumption.
  destruct (Qcompare_spec (B2Q x) (B2Q y)) as [E|L|G]; split; intros H;
    try reflexivity; try discriminate; try lra.
Qed.

Lemma ltb_B2Q (x y : float) :
  valid x -> valid y -> is_finite x = true -> is_finite y = true ->
  (F64.ltb x y = true <-> (B2Q x < B2Q y)%Q).
Proof.
  intros Vx Vy Fx Fy. unfold F64.ltb, SFltb. rewrite SFcompare_B2Q by assumption.
  destruct (Qcompare_spec (B2Q x) (B2Q y)) as [E|L|G]; split; intros H;
    try reflexivity; try discriminate; try lra.
Qed.

Lemma valid_one : valid one.
Proof. reflexivity. Qed.

Lemma B2Q_one : (B2Q one == 1)%Q.
Proof. reflexivity. Qed.

(** The integer part of a non-negative dyadic below an integer. *)
Lemma shiftl_le (p : positive) (e n : Z) :
  (F2Q (Zpos p) e <= inject_Z n)%Q -> 0 <= Z.shiftl (Zpos p) e <= n.
Proof.
  intros H. rewrite <- F2Q_int in H.
  destruct (Z.leb_spec 0 e) as [L|G].
  - rewrite Z.shiftl_mul_pow2 by assumption.
    apply (F2Q_le_at 0) in H; [| lia | lia].
    rewrite !Z.sub_0_r in H. change (2 ^ 0) with 1 in H.
    assert (0 < 2 ^ e) by (apply Z.pow_pos_nonneg; lia). nia.
  - rewrite Z.shiftl_div_pow2 by lia.
    apply (F2Q_le_at e) in H; [| lia | lia].
    rewrite Z.sub_diag, Z.mul_1_r in H. replace (0 - e) with (- e) in H by lia.
    assert (0 < 2 ^ (- e)) by (apply Z.pow_pos_nonneg; lia).
    split; [apply Z.div_pos; lia |].
    apply Z.div_le_upper_bound; lia.
Qed.

Lemma shiftl_ge (p : positive) (e n : Z) :
  (inject_Z n <= F2Q (Zpos p) e)%Q -> n <= Z.shiftl (Zpos p) e.
Proof.
  intros H. rewrite <- F2Q_int in H.
  destruct (Z.leb_spec 0 e) as [L|G].
  - rewrite Z.shiftl_mul_pow2 by assumption.
    apply (F2Q_le_at 0) in H; [| lia | lia].
    rewrite !Z.sub_0_r in H. change (2 ^ 0) with 1 in H. lia.
  - rewrite Z.shiftl_div_pow2 by lia.
    apply (F2Q_le_at e) in H; [| lia | lia].
    rewrite Z.sub_diag, Z.mul_1_r in H. replace (0 - e) with (- e) in H by lia.
    assert (0 < 2 ^ (- e)) by (apply Z.pow_pos_nonneg; lia).
    apply Z.div_le_lower_bound; lia.
Qed.

Lemma mul_finite (sx sy : bool) (mx my : positive) (ex ey : Z) :
  mul (S754_finite sx mx ex) (S754_finite sy my ey) =
  pack (xorb sx sy) (round_exact (Zpos mx * Zpos my) (ex + ey)).
Proof.
  unfold mul, SFmul. change (binary_round_aux prec emax) with (binary_round_aux 53 1024).
  rewrite binary_round_aux_exact by lia. reflexivity.
Qed.

(** A float in [[0, 1]] is a zero, or positive with a value of at most 1. *)
Lemma unit_interval (lum : float) :
  valid lum -> F64.leb zero lum = true -> F64.leb lum one = true ->
  (exists s, lum = S754_zero s) \/
  (exists m e, lum = S754_finite false m e /\ canonical (Zpos m) e /\
               e <= -52 /\ (F2Q (Zpos m) e <= 1)%Q).
Proof.
  intros V H0 H1. destruct lum as [s|s| |s m e]; try discriminate.
  - left. eauto.
  - destruct s; [discriminate |]. discriminate.
  - right. destruct s; [discriminate |].
    exists m, e. split; [reflexivity |].
    pose proof V as V'. apply valid_finite in V'. destruct V' as [C _].
    apply leb_B2Q in H1; [| assumption | exact valid_one | reflexivity | reflexivity].
    cbn [B2Q cond_Zopp] in H1. rewrite B2Q_one in H1.
    repeat split; try assumption; try apply C.
    assert (C1 : canonical (2 ^ 52) (-52)) by (split; reflexivity).
    assert (E1 : (F2Q (2 ^ 52) (-52) == 1)%Q) by reflexivity.
    assert (H1' : (F2Q (Zpos m) e <= F2Q (2 ^ 52) (-52))%Q) by (rewrite E1; exact H1).
    apply canonical_le_iff in H1'; [lia | assumption | assumption].
Qed.

Lemma fexp64_mono (a b : Z) : a <= b -> fexp64 a <= fexp64 b.
Proof. unfold fexp64. lia. Qed.

(** A factor in [[0, 1]] cannot push the product past the other factor. *)
Lemma mul_unit_bound (lum : float) (mk : positive) (ek n : Z) :
  valid lum -> F64.leb zero lum = true -> F64.leb lum one = true ->
  canonical (Zpos mk) ek -> ek <= 1 -> (F2Q (Zpos mk) ek == inject_Z n)%Q ->
  exists i, py_int (F64.mul lum (S754_finite false mk ek)) = Ok i /\ 0 <= i <= n.
Proof.
  intros V H0 H1 Ck Hek En.
  assert (Hn : 0 <= n).
  { rewrite Zle_Qle, <- En. apply F2Q_nonneg. lia. }
  destruct (unit_interval lum V H0 H1) as [[s ->]|(m & e & -> & C & He & Hle)].
  - exists 0. split; [reflexivity | lia].
  - rewrite mul_finite. cbn [xorb].
    set (M := Zpos m * Zpos mk). set (E := e + ek).
    assert (HM : 0 < M) by (unfold M; lia).
    assert (HB : (F2Q M E <= F2Q (Zpos mk) ek)%Q).
    { unfold M, E. rewrite F2Q_mul.
      pose proof (F2Q_pos (Zpos mk) ek ltac:(lia)).
      rewrite <- (Qmult_1_l (F2Q (Zpos mk) ek)) at 2.
      apply Qmult_le_compat_r; [assumption | lra]. }
    pose proof (round_exact_le M E HM _ _ Ck HB) as U.
    pose proof (round_exact_nonneg M E HM) as P.
    pose proof (round_exact_shape M E HM) as S.
    pose proof (mag_le M E (Zpos mk) ek HM (Pos2Z.is_pos mk) HB) as G.
    apply fexp64_mono in G. destruct Ck as [_ Ck]. unfold mag in G at 2. rewrite Ck in G.
    assert (HE : snd (round_exact M E) <= 971).
    { assert (E <= 1) by (unfold E; lia).
      destruct S as [[_ ->]|[_ ->]]; cbn [snd]; unfold round_exp; lia. }
    destruct (round_exact M E) as [m' e']. cbn [fst snd] in *.
    unfold pack. cbn [fst snd].
    destruct m' as [|p|p]; try lia.
    + exists 0. split; [reflexivity | lia].
    + replace (e' <=? 971) with true by (symmetry; apply Z.leb_le; lia).
      exists (Z.shiftl (Zpos p) e'). split; [reflexivity |].
      apply shiftl_le. now rewrite <- En.
Qed.

Lemma py_float_of_int_exact (n : Z) :
  0 < n <= 2 ^ 53 ->
  exists m e,
    py_float_of_int n = Ok (S754_finite false m e) /\ canonical (Zpos m) e /\
    e <= 1 /\ (F2Q (Zpos m) e == inject_Z n)%Q.
Proof.
  intros Hn. destruct (of_Z_exact n Hn) as (m & e & E & H).
  exists m, e. unfold py_float_of_int. rewrite E. auto.
Qed.

Lemma glyph_index_bounds (lum : float) (N : Z) :
  valid lum -> F64.leb zero lum = true -> F64.leb lum one = true ->
  1 <= N <= 2 ^ 53 ->
  exists idx, glyph_index lum N = Ok idx /\ 0 <= idx <= N - 1.
Proof.
  intros V H0 H1 HN. unfold glyph_index.
  destruct (Z.eq_dec N 1) as [->|N1].
  - cbn [bind py_float_of_int Z.sub Z.pos_sub of_Z binary_normalize is_inf].
    destruct (unit_interval lum V H0 H1) as [[s ->]|(m & e & -> & _)];
      exists 0; split; (reflexivity || lia).
  - destruct (py_float_of_int_exact (N - 1)) as (mk & ek & -> & Ck & Hek & En).
    + change (2 ^ 53) with 9007199254740992 in *. lia.
    + cbn [bind]. eapply mul_unit_bound; eassumption.
Qed.

(** ** The dimension formula *)

(** [int()] drops the fractional part: the result is the integer part of the
    float's value, towards zero. *)
Lemma trunc_towards_zero (s : bool) (m : positive) (e : Z) :
  trunc (S754_finite s m e) = cond_Zopp s (Z.abs (trunc (S754_finite s m e))) /\
  (inject_Z (Z.abs (trunc (S754_finite s m e))) <= F2Q (Zpos m) e)%Q /\
  (F2Q (Zpos m) e < inject_Z (Z.abs (trunc (S754_finite s m e)) + 1))%Q.
Proof.
  cbn [trunc].
  pose proof (shiftl_le m e (Z.shiftl (Zpos m) e)) as U.
  assert (N : 0 <= Z.shiftl (Zpos m) e) by (apply Z.shiftl_nonneg; lia).
  assert (A : Z.abs (cond_Zopp s (Z.shiftl (Zpos m) e)) = Z.shiftl (Zpos m) e)
    by (destruct s; cbn [cond_Zopp]; lia).
  rewrite A. split; [reflexivity | split].
  - rewrite <- F2Q_int. destruct (Z.leb_spec 0 e) as [L|G].
    + rewrite Z.shiftl_mul_pow2 by assumption.
      apply (F2Q_le_at 0); [lia | lia |].
      rewrite !Z.sub_0_r. change (2 ^ 0) with 1. lia.
    + rewrite Z.shiftl_div_pow2 by lia.
      apply (F2Q_le_at e); [lia | lia |].
      rewrite Z.sub_diag, Z.mul_1_r. replace (0 - e) with (- e) by lia.
      assert (0 < 2 ^ (- e)) by (apply Z.pow_pos_nonneg; lia).
      rewrite Z.mul_comm. apply Z.mul_div_le. assumption.
  - rewrite <- F2Q_int. destruct (Z.leb_spec 0 e) as [L|G].
    + rewrite Z.shiftl_mul_pow2 by assumption.
      apply (F2Q_lt_at 0); [lia | lia |].
      rewrite !Z.sub_0_r. change (2 ^ 0) with 1. lia.
    + rewrite Z.shiftl_div_pow2 by lia.
      apply (F2Q_lt_at e); [lia | lia |].
      rewrite Z.sub_diag, Z.mul_1_r. replace (0 - e) with (- e) by lia.
      assert (P : 0 < 2 ^ (- e)) by (apply Z.pow_pos_nonneg; lia).
      pose proof (Z.div_mod (Zpos m) (2 ^ (- e)) ltac:(lia)) as D.
      pose proof (Z.mod_pos_bound (Zpos m) (2 ^ (- e)) P) as B.
      nia.
Qed.

(** C1, as the specification states it, fails: for a 100x100 source, width 5
    and aspect 0.75 the product is 3.75, which the program truncates to 3 and
    [round] would take to 4. *)
Lemma target_height_is_not_rounded :
  target_height (100, 100) 5 (lit 75 100) = Ok 3 /\
  target_height_rounded (100, 100) 5 (lit 75 100) = Ok 4.
Proof. split; reflexivity. Qed.

(** C1, amended: the height is [max(1, int((h / w) * width * aspect))], the
    product truncated towards zero, whenever that product is finite; it is 22
    for a 100x50 source at width 80 and aspect 0.55, and never below 1. *)
Theorem target_height_truncates (ow oh width : Z) (aspect q w : float) :
  py_int_truediv oh ow = Ok q ->
  py_float_of_int width = Ok w ->
  is_finite (mul (mul q w) aspect) = true ->
  target_height (ow, oh) width aspect
    = Ok (Z.max 1 (trunc (mul (mul q w) aspect))) /\
  target_height (100, 50) 80 default_aspect = Ok 22 /\
  (forall orig width' aspect' h,
      target_height orig width' aspect' = Ok h -> 1 <= h).
Proof.
  intros Hq Hw Hf. split; [| split].
  - unfold target_height. rewrite Hq, Hw. cbn [bind].
    destruct (mul (mul q w) aspect); try discriminate; reflexivity.
  - reflexivity.
  - intros [ow' oh'] width' aspect' h H. unfold target_height in H.
    inv_bind H. inv_bind H. inv_bind H. inversion H. lia.
Qed.

Lemma target_height_truncates_witness :
  target_height (100, 50) 80 default_aspect
    = Ok (Z.max 1 (trunc (mul (mul half (of_Z 80)) default_aspect))) /\
  target_height (100, 50) 80 default_aspect = Ok 22 /\
  (forall orig width' aspect' h,
      target_height orig width' aspect' = Ok h -> 1 <= h).
Proof.
  apply (target_height_truncates 100 50 80 default_aspect half (of_Z 80));
    reflexivity.
Defined.

(** ** The clamp and the base of the exponentiation *)

Lemma SFcompare_antisym (x y : float) :
  SFcompare y x = option_map CompOpp (SFcompare x y).
Proof.
  destruct x as [sx|sx| |sx mx ex], y as [sy|sy| |sy my ey]; cbn [SFcompare option_map];
    try reflexivity;
    try (destruct sx; reflexivity); try (destruct sy; reflexivity);
    try (destruct sx, sy; reflexivity).
  destruct sx, sy; cbn [CompOpp]; try reflexivity;
    rewrite (Z.compare_antisym ey ex);
    destruct (ey ?= ex); cbn [CompOpp]; try reflexivity;
    rewrite (Pos.compare_cont_antisym mx my Eq); cbn [CompOpp];
    destruct (Pos.compare_cont Eq mx my); reflexivity.
Qed.

Lemma ltb_false_leb (x y : float) :
  is_nan x = false -> is_nan y = false -> ltb x y = false -> leb y x = true.
Proof.
  unfold ltb, leb, SFltb, SFleb. intros Nx Ny H.
  rewrite (SFcompare_antisym x y).
  destruct x, y; try discriminate; cbn [SFcompare option_map] in *;
    repeat match goal with
           | s : bool |- _ => destruct s
           | H : context [match ?c with Eq => _ | Lt => _ | Gt => _ end] |- _ =>
               destruct c eqn:?
           | |- context [match ?c with Eq => _ | Lt => _ | Gt => _ end] =>
               destruct c eqn:?
           end; cbn [CompOpp] in *; try reflexivity; try discriminate; try congruence.
Qed.

(** The clamp returns its argument or one of the two bounds. *)
Lemma clamp_cases (n lo hi : float) :
  (ltb n lo = true /\ clamp n lo hi = lo) \/
  (ltb n lo = false /\ ltb hi n = true /\ clamp n lo hi = hi) \/
  (ltb n lo = false /\ ltb hi n = false /\ clamp n lo hi = n).
Proof. unfold clamp. destruct (ltb n lo), (ltb hi n); auto. Qed.

Lemma clamp_unit_not_negative (n : float) : ltb (clamp n zero one) zero = false.
Proof.
  destruct (clamp_cases n zero one) as [[_ ->]|[(_ & _ & ->)|(H & _ & ->)]];
    [reflexivity | reflexivity | assumption].
Qed.

Lemma clamp_unit_range (n : float) :
  is_nan n = false ->
  leb zero (clamp n zero one) = true /\ leb (clamp n zero one) one = true.
Proof.
  intros Hn.
  destruct (clamp_cases n zero one) as [[_ ->]|[(_ & _ & ->)|(H0 & H1 & ->)]];
    [split; reflexivity | split; reflexivity |].
  split; apply ltb_false_leb; auto.
Qed.

Lemma clamp_unit_nan (n : float) :
  is_nan (clamp n zero one) = is_nan n.
Proof.
  destruct (clamp_cases n zero one) as [[H ->]|[(_ & H & ->)|(_ & _ & ->)]];
    [| | reflexivity]; destruct n as [[]|[]| |[] ? ?]; try reflexivity; discriminate.
Qed.

Lemma clamp_unit_not_inf (n : float) : is_inf (clamp n zero one) = false.
Proof.
  destruct (clamp_cases n zero one) as [[H ->]|[(_ & H & ->)|(H0 & H1 & ->)]];
    [reflexivity | reflexivity |].
  destruct n as [|[]| |]; try reflexivity; discriminate.
Qed.

(** A non-negative base never yields a complex power. *)
Lemma py_pow_real (libm_pow : float -> float -> float) (iv iw : float) :
  ltb iv zero = false -> py_pow libm_pow iv iw <> Ok PyComplex.
Proof.
  intros H. unfold py_pow. rewrite H. cbn [andb].
  repeat match goal with
         | |- context [if ?c then _ else _] => destruct c
         end; discriminate.
Qed.

(** C5: what line 66 raises to the power [gamma] is [gamma_base], the clamp
    of line 65, for every luminance, pixel and parameter (negative, infinite
    or not a number).  It is never below zero; it lies in [[0, 1]] unless
    the value before the clamp is not a number, which the clamp hands on
    unchanged; the power is never complex, and neither the tone mapping nor
    the comparison that follows it raises TypeError. *)
Theorem gamma_base_never_negative (libm_pow : float -> float -> float)
    (lum brightness contrast gamma : float) :
  adjust libm_pow lum brightness contrast gamma =
    gamma_step libm_pow (gamma_base lum brightness contrast) gamma /\
  ltb (gamma_base lum brightness contrast) zero = false /\
  (is_nan (pre_clamp lum brightness contrast) = false ->
   leb zero (gamma_base lum brightness contrast) = true /\
   leb (gamma_base lum brightness contrast) one = true) /\
  (is_nan (pre_clamp lum brightness contrast) = true ->
   is_nan (gamma_base lum brightness contrast) = true) /\
  py_pow libm_pow (gamma_base lum brightness contrast) gamma <> Ok PyComplex /\
  adjust libm_pow lum brightness contrast gamma <> Raise TypeError /\
  (forall r g b,
     tone libm_pow r g b brightness contrast gamma =
       (l <- luminance r g b ;;
        gamma_step libm_pow (gamma_base l brightness contrast) gamma) /\
     tone libm_pow r g b brightness contrast gamma <> Raise TypeError).
Proof.
  assert (Hneg : forall l, ltb (gamma_base l brightness contrast) zero = false)
    by (intros l; apply clamp_unit_not_negative).
  assert (Hty : forall l,
             adjust libm_pow l brightness contrast gamma <> Raise TypeError).
  { intros l. change (adjust libm_pow l brightness contrast gamma)
      with (gamma_step libm_pow (gamma_base l brightness contrast) gamma).
    unfold gamma_step.
    pose proof (py_pow_real libm_pow _ gamma (Hneg l)) as Hc.
    destruct (py_pow libm_pow (gamma_base l brightness contrast) gamma)
      as [[x|]|e] eqn:Hp; cbn [bind as_ordered].
    - discriminate.
    - congruence.
    - intros [= ->]. revert Hp. unfold py_pow. rewrite (Hneg l). cbn [andb].
      repeat match goal with
             | |- context [if ?c then _ else _] => destruct c
             end; discriminate. }
  split; [reflexivity |]. split; [apply Hneg |].
  split; [apply clamp_unit_range |].
  split; [intros H; unfold gamma_base; now rewrite clamp_unit_nan |].
  split; [apply py_pow_real, Hneg |]. split; [apply Hty |].
  intros r g b. split; [reflexivity |].
  unfold tone. intros H. apply bind_Raise in H. destruct H as [H|(l & _ & H)].
  - unfold luminance, rgb_to_luma, py_float_of_int in H.
    repeat match type of H with
           | context [if ?c then _ else _] => destruct c; cbn [bind] in H
           end; discriminate.
  - exact (Hty l H).
Qed.

(** C5, as the specification states it, fails when a parameter is not a
    number: with brightness NaN the clamp of line 65 hands NaN on, the base
    of the power is NaN, neither at least 0.0 nor at most 1.0, and the pixel
    ends in ValueError at the index. *)
Lemma gamma_base_not_a_number :
  luminance 128 128 128 = Ok (S754_finite false 4521260802379792 (-53)) /\
  gamma_base (S754_finite false 4521260802379792 (-53)) S754_nan one = S754_nan /\
  leb zero (gamma_base (S754_finite false 4521260802379792 (-53)) S754_nan one)
    = false /\
  leb (gamma_base (S754_finite false 4521260802379792 (-53)) S754_nan one) one
    = false /\
  tone sample_pow 128 128 128 S754_nan one one = Ok S754_nan /\
  pixel_part sample_pow ALT_RAMP false S754_nan one one (128, 128, 128)
    = Raise ValueError /\
  ~ (forall lum brightness contrast,
       leb zero (gamma_base lum brightness contrast) = true /\
       leb (gamma_base lum brightness contrast) one = true).
Proof.
  do 6 (split; [reflexivity |]).
  intros H. destruct (H half S754_nan one) as [H0 _]. discriminate.
Qed.

(** ** The glyph quantizer *)

Lemma py_getitem_in_range (s : string) (i : Z) :
  0 <= i < ramp_length s -> exists ch, py_getitem s i = Ok ch.
Proof.
  unfold ramp_length, py_getitem. intros Hi.
  replace (i <? 0) with false by (symmetry; apply Z.ltb_ge; lia).
  replace (i <? 0) with false by (symmetry; apply Z.ltb_ge; lia).
  replace (Z.of_nat (String.length s) <=? i) with false
    by (symmetry; apply Z.leb_gt; lia).
  cbn [orb].
  assert (Hn : (Z.to_nat i < String.length s)%nat) by lia.
  revert Hn. generalize (Z.to_nat i). clear Hi. intros n. revert n.
  induction s as [|c s IH]; intros n Hn; cbn [String.length] in Hn; [lia |].
  destruct n as [|n]; cbn [String.get]; [eauto | apply IH; lia].
Qed.

Lemma py_getitem_head (c : ascii) (s : string) : py_getitem (String c s) 0 = Ok c.
Proof.
  unfold py_getitem. cbn [String.length Z.ltb Z.compare].
  replace (Z.of_nat (S (String.length s)) <=? 0) with false
    by (symmetry; apply Z.leb_gt; lia).
  reflexivity.
Qed.

Lemma mul_zero_finite (s s' : bool) (m : positive) (e : Z) :
  mul (S754_zero s) (S754_finite s' m e) = S754_zero (xorb s s').
Proof. reflexivity. Qed.

(** A zero luminance selects index 0 of any ramp. *)
Lemma glyph_index_zero (s : bool) (N : Z) :
  1 <= N <= 2 ^ 53 -> glyph_index (S754_zero s) N = Ok 0.
Proof.
  intros HN. unfold glyph_index. destruct (Z.eq_dec N 1) as [->|N1].
  - reflexivity.
  - destruct (py_float_of_int_exact (N - 1)) as (mk & ek & -> & _).
    + change (2 ^ 53) with 9007199254740992 in *. lia.
    + reflexivity.
Qed.

(** Luminance 1.0 selects the last index exactly. *)
Lemma glyph_index_one (N : Z) :
  1 <= N <= 2 ^ 53 -> glyph_index one N = Ok (N - 1).
Proof.
  intros HN. unfold glyph_index. destruct (Z.eq_dec N 1) as [->|N1].
  - reflexivity.
  - destruct (py_float_of_int_exact (N - 1)) as (mk & ek & -> & Ck & Hek & En).
    + change (2 ^ 53) with 9007199254740992 in *. lia.
    + cbn [bind]. unfold one. rewrite mul_finite. cbn [xorb].
      rewrite (round_exact_id _ _ (Zpos mk) ek).
      * unfold pack. cbn [fst snd].
        replace (ek <=? 971) with true by (symmetry; apply Z.leb_le; lia).
        cbn [py_int trunc cond_Zopp]. f_equal.
        apply Z.le_antisymm.
        -- apply shiftl_le. rewrite En. apply Qle_refl.
        -- apply shiftl_ge. rewrite En. apply Qle_refl.
      * lia.
      * unfold mag. change 4503599627370496 with (2 ^ 52).
        rewrite (Z.mul_comm (2 ^ 52)), Zdigits2_scale by lia.
        destruct Ck as [_ Ck]. replace (Zdigits2 (Zpos mk) + 52 + (-52 + ek))
          with (Zdigits2 (Zpos mk) + ek) by lia.
        rewrite Ck. lia.
      * assumption.
      * change 4503599627370496 with (2 ^ 52).
        rewrite (Z.mul_comm (2 ^ 52)), F2Q_scale by lia.
        replace (-52 + ek + 52) with ek by lia. reflexivity.
Qed.

(** C3: for a luminance in [[0, 1]] and a ramp of [N >= 1] characters, the
    index [int(lum * (N - 1))] lies in [[0, N - 1]], the ramp is indexed in
    bounds, and luminance 1.0 gives [N - 1] exactly.  (A ramp is a string
    held in memory: its length is well below [2 ^ 53].) *)
Theorem glyph_index_in_range (ramp : string) (lum : float) :
  valid lum -> leb zero lum = true -> leb lum one = true ->
  1 <= ramp_length ramp <= 2 ^ 53 ->
  exists idx ch,
    glyph_index lum (ramp_length ramp) = Ok idx /\
    0 <= idx <= ramp_length ramp - 1 /\
    py_getitem ramp idx = Ok ch /\
    glyph ramp lum = Ok ch /\
    glyph_index one (ramp_length ramp) = Ok (ramp_length ramp - 1).
Proof.
  intros V H0 H1 HN.
  destruct (glyph_index_bounds lum _ V H0 H1 HN) as (idx & Hidx & Hr).
  destruct (py_getitem_in_range ramp idx ltac:(lia)) as [ch Hch].
  exists idx, ch. repeat split; try assumption; try lia.
  - unfold glyph. rewrite Hidx. exact Hch.
  - now apply glyph_index_one.
Qed.

Lemma glyph_index_in_range_witness :
  exists idx ch,
    glyph_index half (ramp_length ALT_RAMP) = Ok idx /\
    0 <= idx <= ramp_length ALT_RAMP - 1 /\
    py_getitem ALT_RAMP idx = Ok ch /\
    glyph ALT_RAMP half = Ok ch /\
    glyph_index one (ramp_length ALT_RAMP) = Ok (ramp_length ALT_RAMP - 1).
Proof.
  apply (glyph_index_in_range ALT_RAMP half);
    [reflexivity | reflexivity | reflexivity | vm_compute; split; discriminate].
Defined.

(** ** Pixels *)

Lemma pixel_part_tone (libm_pow : float -> float -> float) (ramp : string)
    (color : bool) (brightness contrast gamma : float) (r g b : Z) :
  pixel_part libm_pow ramp color brightness contrast gamma (r, g, b) =
  (lum <- tone libm_pow r g b brightness contrast gamma ;;
   ch <- glyph ramp lum ;;
   Ok ((if color then ansi_fg r g b else "") ++ String ch "")).
Proof.
  unfold pixel_part, tone. destruct (luminance r g b) as [l|e]; cbn [bind];
    [| reflexivity].
  destruct (adjust libm_pow l brightness contrast gamma) as [l'|e]; cbn [bind];
    [| reflexivity].
  destruct (glyph ramp l') as [ch|e]; cbn [bind]; [| reflexivity].
  destruct color; reflexivity.
Qed.

(** The tone mapping ends with a clamp: its result is never infinite. *)
Lemma tone_not_inf (libm_pow : float -> float -> float) (r g b : Z)
    (brightness contrast gamma lum : float) :
  tone libm_pow r g b brightness contrast gamma = Ok lum -> is_inf lum = false.
Proof.
  unfold tone, adjust. intros H. inv_bind H. inv_bind H. inv_bind H.
  inversion H. apply clamp_unit_not_inf.
Qed.

(** The exceptions the tone mapping can raise. *)
Lemma tone_raises (libm_pow : float -> float -> float) (r g b : Z)
    (brightness contrast gamma : float) (e : exn) :
  tone libm_pow r g b brightness contrast gamma = Raise e ->
  e = OverflowError \/ e = ZeroDivisionError.
Proof.
  unfold tone. intros H. apply bind_Raise in H. destruct H as [H|(l & _ & H)].
  - unfold luminance, rgb_to_luma, py_float_of_int in H.
    repeat match type of H with
           | context [if ?c then _ else _] => destruct c; cbn [bind] in H
           end; inversion H; auto.
  - pose proof (clamp_unit_not_negative
                  (mul (add (mul (sub l half) contrast) half) brightness))
      as Hneg.
    unfold adjust in H. apply bind_Raise in H. destruct H as [H|(p & Hp & H)].
    + revert H. unfold py_pow. rewrite Hneg. cbn [andb].
      repeat match goal with
             | |- context [if ?c then _ else _] => destruct c
             end; intros [= <-]; auto.
    + destruct p; cbn [bind as_ordered] in H; [discriminate |].
      exfalso. exact (py_pow_real libm_pow _ gamma Hneg Hp).
Qed.

(** With a single glyph the index is 0 for every luminance that is a number. *)
Lemma glyph_sole (c : ascii) (lum : float) :
  glyph (String c "") lum = if is_finite lum then Ok c else Raise ValueError.
Proof.
  unfold glyph, glyph_index. change (ramp_length (String c "") - 1) with 0.
  change (py_float_of_int 0) with (Ok (S754_zero false)). cbn [bind].
  destruct lum as [s|s| |s m e]; cbn [mul SFmul py_int trunc bind is_finite];
    try reflexivity; apply py_getitem_head.
Qed.

(** C10, as stated, fails: on a one-glyph ramp a pure black pixel with
    [gamma = -1.0] raises [ZeroDivisionError] ([0.0 ** -1.0]), whatever the
    C library's [pow]. *)
Lemma sole_glyph_can_raise :
  pixel_part (fun x _ => x) "@" false default_brightness default_contrast
    (of_Z (-1)) (0, 0, 0) = Raise ZeroDivisionError /\
  (forall libm_pow,
      pixel_part libm_pow "@" false default_brightness default_contrast
        (of_Z (-1)) (0, 0, 0) = Raise ZeroDivisionError).
Proof. split; [reflexivity | intros libm_pow; reflexivity]. Qed.

(** C10, amended: on a ramp of exactly one glyph the index is
    [int(lum * 0) = 0] and the pixel renders as that glyph whenever the tone
    mapping yields a number; the only failures are the exponentiation's
    [ZeroDivisionError] and [OverflowError] and [ValueError] for a luminance
    that is not a number, never an out-of-range access. *)
Theorem sole_glyph_ramp (libm_pow : float -> float -> float) (c : ascii)
    (color : bool) (brightness contrast gamma : float) (r g b : Z) :
  pixel_part libm_pow (String c "") color brightness contrast gamma (r, g, b) =
    (lum <- tone libm_pow r g b brightness contrast gamma ;;
     if is_nan lum then Raise ValueError
     else Ok ((if color then ansi_fg r g b else "") ++ String c "")) /\
  (forall lum, is_finite lum = true ->
     glyph_index lum (ramp_length (String c "")) = Ok 0 /\
     glyph (String c "") lum = Ok c) /\
  (forall e,
     pixel_part libm_pow (String c "") color brightness contrast gamma (r, g, b)
       = Raise e ->
     e = ZeroDivisionError \/ e = OverflowError \/ e = ValueError).
Proof.
  assert (E : pixel_part libm_pow (String c "") color brightness contrast gamma
                (r, g, b) =
              (lum <- tone libm_pow r g b brightness contrast gamma ;;
               if is_nan lum then Raise ValueError
               else Ok ((if color then ansi_fg r g b else "") ++ String c ""))).
  { rewrite pixel_part_tone.
    destruct (tone libm_pow r g b brightness contrast gamma) as [lum|e] eqn:Ht;
      cbn [bind]; [| reflexivity].
    rewrite glyph_sole. apply tone_not_inf in Ht.
    destruct lum; try discriminate; reflexivity. }
  split; [exact E | split].
  - intros lum Hf. split.
    + destruct lum; try discriminate; reflexivity.
    + rewrite glyph_sole, Hf. reflexivity.
  - intros e. rewrite E. intros H. apply bind_Raise in H.
    destruct H as [H|(lum & _ & H)].
    + apply tone_raises in H. tauto.
    + destruct (is_nan lum); inversion H. auto.
Qed.

(** C9: a pure black pixel under the default parameters: luminance 0,
    contrast gives -0.125, brightness keeps it negative, the clamp gives 0,
    [0 ** 0.85] is 0, the index is 0 and the glyph is the first of the ramp. *)
Theorem black_pixel_first_glyph (libm_pow : float -> float -> float)
    (c : ascii) (rest : string) (color : bool) :
  ramp_length (String c rest) <= 2 ^ 53 ->
  luminance 0 0 0 = Ok zero /\
  add (mul (sub zero half) default_contrast) half = lit (-125) 1000 /\
  ltb (mul (lit (-125) 1000) default_brightness) zero = true /\
  clamp (mul (lit (-125) 1000) default_brightness) zero one = zero /\
  py_pow libm_pow zero default_gamma = Ok (PyFloat zero) /\
  tone libm_pow 0 0 0 default_brightness default_contrast default_gamma
    = Ok zero /\
  glyph_index zero (ramp_length (String c rest)) = Ok 0 /\
  pixel_part libm_pow (String c rest) color default_brightness default_contrast
    default_gamma (0, 0, 0)
    = Ok ((if color then ansi_fg 0 0 0 else "") ++ String c "").
Proof.
  intros HN.
  assert (HN' : 1 <= ramp_length (String c rest) <= 2 ^ 53).
  { split; [| assumption]. unfold ramp_length. cbn [String.length]. lia. }
  assert (Ht : tone libm_pow 0 0 0 default_brightness default_contrast
                 default_gamma = Ok zero) by reflexivity.
  repeat split; try reflexivity.
  - now apply glyph_index_zero.
  - rewrite pixel_part_tone, Ht. cbn [bind]. unfold glyph.
    change zero with (S754_zero false).
    rewrite glyph_index_zero by assumption. cbn [bind].
    rewrite py_getitem_head. reflexivity.
Qed.

Lemma black_pixel_first_glyph_witness :
  luminance 0 0 0 = Ok zero /\
  add (mul (sub zero half) default_contrast) half = lit (-125) 1000 /\
  ltb (mul (lit (-125) 1000) default_brightness) zero = true /\
  clamp (mul (lit (-125) 1000) default_brightness) zero one = zero /\
  py_pow (fun x _ => x) zero default_gamma = Ok (PyFloat zero) /\
  tone (fun x _ => x) 0 0 0 default_brightness default_contrast default_gamma
    = Ok zero /\
  glyph_index zero (ramp_length ALT_RAMP) = Ok 0 /\
  pixel_part (fun x _ => x) ALT_RAMP false default_brightness default_contrast
    default_gamma (0, 0, 0) = Ok " ".
Proof.
  apply (black_pixel_first_glyph (fun x _ => x) " " ".:-=+*#%@" false).
  vm_compute. discriminate.
Defined.

(** ** The tone pipeline *)

(** C2, as stated, fails in its first step: the program multiplies the luma
    by the precomputed [1.0 / 255.0] where the specification divides by 255,
    and in binary64 the two differ in the last bit for some pixels, here the
    grey (132, 132, 132); with contrast, brightness and gamma all 1.0 (and a
    [pow] that returns [x] for [x ** 1.0]) the difference reaches the final
    luminance, and with a ramp of 18 glyphs the glyph itself: the grey
    (45, 45, 45) gets the third glyph where dividing by 255 gives the
    fourth. *)
Lemma tone_is_not_divided :
  luminance 132 132 132 = Ok (S754_finite false 4662550202454160 (-53)) /\
  luminance_divided 132 132 132 = Ok (S754_finite false 4662550202454161 (-53)) /\
  (l <- tone (fun x _ => x) 45 45 45 one one one ;;
   glyph "abcdefghijklmnopqr" l) = Ok "c"%char /\
  (l <- tone_divided (fun x _ => x) 45 45 45 one one one ;;
   glyph "abcdefghijklmnopqr" l) = Ok "d"%char /\
  ~ (forall libm_pow r g b brightness contrast gamma,
        tone libm_pow r g b brightness contrast gamma =
        tone_divided libm_pow r g b brightness contrast gamma).
Proof.
  split; [reflexivity |]. split; [reflexivity |].
  split; [vm_compute; reflexivity |]. split; [vm_compute; reflexivity |].
  intros H. specialize (H (fun x _ => x) 132 132 132 one one one).
  vm_compute in H. discriminate H.
Qed.

(** C2, amended: the tone mapping is the five steps in the order of section
    4.3, with step 1 the luma times the float [1.0 / 255.0]; the order is
    observable (brightness before contrast maps the grey (56, 56, 56) under
    contrast 2 and brightness 4 to 1.0 instead of 0.0). *)
Theorem tone_five_steps (libm_pow : float -> float -> float) (r g b : Z)
    (brightness contrast gamma : float) :
  tone libm_pow r g b brightness contrast gamma =
    (luma <- rgb_to_luma r g b ;;
     five_steps libm_pow (mul luma (div one (of_Z 255)))
       brightness contrast gamma) /\
  rgb_to_luma r g b =
    (fr <- py_float_of_int r ;; fg <- py_float_of_int g ;;
     fb <- py_float_of_int b ;;
     Ok (add (add (mul (lit 2126 10000) fr) (mul (lit 7152 10000) fg))
           (mul (lit 722 10000) fb))) /\
  tone libm_pow 56 56 56 (of_Z 4) (of_Z 2) one = Ok zero /\
  tone_reordered libm_pow 56 56 56 (of_Z 4) (of_Z 2) one = Ok one.
Proof.
  split; [| split; [| split]]; try reflexivity.
  unfold tone, luminance. destruct (rgb_to_luma r g b); reflexivity.
Qed.

(** ** Ramp selection *)

(** C8: a non-empty [--custom-ramp] is the ramp the quantizer gets, whatever
    [--ramp] says; without it, [--ramp default] selects the 15-glyph preset and
    [--ramp alt], or no [--ramp] at all, the 10-glyph one. *)
Theorem custom_ramp_overrides (libm_pow : float -> float -> float)
    (convert_RGB : Image -> Image) (resize : Image -> Z * Z -> result Image)
    (cl : CommandLine) (custom : string) (term_w : Z) (img : Image) :
  cl_custom_ramp cl = Some custom -> custom <> "" ->
  select_ramp (parse_args cl) = custom /\
  main libm_pow convert_RGB resize (parse_args cl) term_w img =
    image_to_ascii libm_pow convert_RGB resize img
      (select_width (parse_args cl) term_w) custom (negb (cl_no_color cl))
      (arg_brightness (parse_args cl)) (arg_contrast (parse_args cl))
      (arg_gamma (parse_args cl)) (arg_aspect (parse_args cl)) /\
  (forall cl', cl_custom_ramp cl' = None \/ cl_custom_ramp cl' = Some "" ->
     select_ramp (parse_args cl') =
       match cl_ramp cl' with
       | Some "default" => " .,:;i1tfLCG08@"
       | _ => " .:-=+*#%@"
       end).
Proof.
  intros Hc Hne.
  assert (E : select_ramp (parse_args cl) = custom).
  { unfold select_ramp, parse_args. cbn [arg_custom_ramp arg_ramp].
    rewrite Hc. cbn [or_default].
    apply String.eqb_neq in Hne. rewrite Hne. reflexivity. }
  split; [exact E | split].
  - unfold main. rewrite E. reflexivity.
  - intros cl' H. unfold select_ramp, parse_args. cbn [arg_custom_ramp arg_ramp].
    assert (Hd : or_default (cl_custom_ramp cl') "" = "")
      by (destruct H as [-> | ->]; reflexivity).
    rewrite Hd. cbn [String.eqb negb].
    destruct (cl_ramp cl') as [s|]; cbn [or_default]; [| reflexivity].
    destruct (String.eqb_spec s "default") as [->|N]; [reflexivity |].
    destruct s as [|a s]; [reflexivity |].
    repeat (match goal with
            | |- context [match ?x with EmptyString => _ | String _ _ => _ end] =>
                destruct x
            | |- context [match ?x with Ascii _ _ _ _ _ _ _ _ => _ end] =>
                destruct x
            | |- context [if ?b then _ else _] => destruct b
            end; try reflexivity; try congruence).
Qed.

Lemma custom_ramp_overrides_witness :
  let cl := {| cl_image := "cat.png"; cl_width := Some 80;
               cl_ramp := Some "default"; cl_custom_ramp := Some " #";
               cl_no_color := true; cl_brightness := None; cl_contrast := None;
               cl_gamma := None; cl_aspect := None |} in
  let img := {| size := (2, 2); getpixel := fun x y => (255 * x, 255 * y, 0) |} in
  select_ramp (parse_args cl) = " #" /\
  main (fun x _ => x) (fun i => i) (fun i _ => Ok i) (parse_args cl) 100 img =
    image_to_ascii (fun x _ => x) (fun i => i) (fun i _ => Ok i) img
      (select_width (parse_args cl) 100) " #" (negb (cl_no_color cl))
      (arg_brightness (parse_args cl)) (arg_contrast (parse_args cl))
      (arg_gamma (parse_args cl)) (arg_aspect (parse_args cl)) /\
  (forall cl', cl_custom_ramp cl' = None \/ cl_custom_ramp cl' = Some "" ->
     select_ramp (parse_args cl') =
       match cl_ramp cl' with
       | Some "default" => " .,:;i1tfLCG08@"
       | _ => " .:-=+*#%@"
       end).
Proof.
  intros cl img.
  apply (custom_ramp_overrides (fun x _ => x) (fun i => i) (fun i _ => Ok i)
           cl " #" 100 img); [reflexivity | discriminate].
Defined.

(** ** The renderer *)

Lemma append_empty_r (s : string) : s ++ "" = s.
Proof. induction s as [|c s IH]; cbn; [reflexivity | now rewrite IH]. Qed.

Lemma append_assoc (s t u : string) : (s ++ t) ++ u = s ++ (t ++ u).
Proof. induction s as [|c s IH]; cbn; [reflexivity | now rewrite IH]. Qed.

Lemma length_append (s t : string) :
  String.length (s ++ t) = (String.length s + String.length t)%nat.
Proof. induction s as [|c s IH]; cbn; [reflexivity | now rewrite IH]. Qed.

Lemma concat_empty_cons (x : string) (xs : list string) :
  String.concat "" (x :: xs) = x ++ String.concat "" xs.
Proof. destruct xs; cbn; [now rewrite append_empty_r | reflexivity]. Qed.

Lemma concat_empty_app (xs ys : list string) :
  String.concat "" (xs ++ ys) = String.concat "" xs ++ String.concat "" ys.
Proof.
  induction xs as [|x xs IH]; [reflexivity |].
  rewrite <- app_comm_cons, !concat_empty_cons, IH, append_assoc. reflexivity.
Qed.

(** A loop that appends [h x (f x)] collects the [f x] and lays them out. *)
Lemma mapM_bind {A B C : Type} (f : A -> result B) (h : A -> B -> C)
    (xs : list A) :
  mapM (fun x => y <- f x ;; Ok (h x y)) xs =
  (ys <- mapM f xs ;; Ok (map (fun xy => h (fst xy) (snd xy)) (combine xs ys))).
Proof.
  induction xs as [|x xs IH]; cbn [mapM]; [reflexivity |].
  destruct (f x) as [y|e]; cbn [bind]; [| reflexivity].
  rewrite IH. destruct (mapM f xs) as [ys|e]; reflexivity.
Qed.

Lemma mapM_ext {A B : Type} (f g : A -> result B) (xs : list A) :
  (forall x, f x = g x) -> mapM f xs = mapM g xs.
Proof.
  intros H. induction xs as [|x xs IH]; cbn [mapM]; [reflexivity |].
  now rewrite H, IH.
Qed.

Lemma pixel_part_cell (libm_pow : float -> float -> float) (ramp : string)
    (color : bool) (brightness contrast gamma : float) (px : Z * Z * Z) :
  pixel_part libm_pow ramp color brightness contrast gamma px =
  (ch <- pixel_glyph libm_pow ramp brightness contrast gamma px ;;
   Ok (cell color px ch)).
Proof.
  destruct px as [[r g] b]. rewrite pixel_part_tone. unfold pixel_glyph, cell.
  destruct (tone libm_pow r g b brightness contrast gamma); cbn [bind];
    reflexivity.
Qed.

(** One line, in terms of the glyphs of its row. *)
Lemma render_line_glyphs (libm_pow : float -> float -> float) (img : Image)
    (width : Z) (ramp : string) (color : bool)
    (brightness contrast gamma : float) (y : Z) :
  render_line libm_pow img width ramp color brightness contrast gamma y =
  (glyphs <- mapM (fun x => pixel_glyph libm_pow ramp brightness contrast gamma
                              (getpixel img x y)) (range width) ;;
   Ok (line_of img width color y glyphs)).
Proof.
  unfold render_line, line_of.
  rewrite (mapM_ext _ (fun x =>
             ch <- pixel_glyph libm_pow ramp brightness contrast gamma
                     (getpixel img x y) ;;
             Ok (cell color (getpixel img x y) ch)))
    by (intros x; apply pixel_part_cell).
  rewrite (mapM_bind _ (fun x ch => cell color (getpixel img x y) ch)).
  destruct (mapM _ (range width)) as [glyphs|e]; cbn [bind]; [| reflexivity].
  destruct color; [| now rewrite append_empty_r].
  rewrite concat_empty_app. reflexivity.
Qed.

(** The whole text, in terms of the grid of glyphs. *)
Lemma image_to_ascii_text (libm_pow : float -> float -> float)
    (convert_RGB : Image -> Image) (resize : Image -> Z * Z -> result Image)
    (img img' : Image) (width height : Z) (ramp : string) (color : bool)
    (brightness contrast gamma aspect : float) :
  target_height (size (convert_RGB img)) width aspect = Ok height ->
  resize (convert_RGB img) (width, height) = Ok img' ->
  image_to_ascii libm_pow convert_RGB resize img width ramp color brightness
    contrast gamma aspect =
  (rows <- glyph_grid libm_pow img' width height ramp brightness contrast gamma ;;
   Ok (text_of img' width height color rows)).
Proof.
  intros Hh Hr. unfold image_to_ascii. rewrite Hh. cbn [bind]. rewrite Hr.
  cbn [bind]. unfold glyph_grid, text_of.
  rewrite (mapM_ext _ _ _ (render_line_glyphs libm_pow img' width ramp color
                             brightness contrast gamma)).
  rewrite (mapM_bind _ (fun y glyphs => line_of img' width color y glyphs)).
  destruct (mapM _ (range height)) as [rows|e]; reflexivity.
Qed.

Lemma glyph_grid_shape (libm_pow : float -> float -> float) (img : Image)
    (width height : Z) (ramp : string) (brightness contrast gamma : float)
    (rows : list (list ascii)) :
  glyph_grid libm_pow img width height ramp brightness contrast gamma = Ok rows ->
  List.length rows = Z.to_nat height /\
  (forall y, (y < Z.to_nat height)%nat ->
     List.length (nth y rows []) = Z.to_nat width /\
     forall x, (x < Z.to_nat width)%nat ->
       pixel_glyph libm_pow ramp brightness contrast gamma
         (getpixel img (Z.of_nat x) (Z.of_nat y))
       = Ok (nth x (nth y rows []) ESC)).
Proof.
  unfold glyph_grid. intros H. split.
  - apply mapM_length in H. now rewrite range_length in H.
  - intros y Hy.
    pose proof (mapM_nth _ _ _ y 0 [] H) as Hrow.
    rewrite range_length, range_nth in Hrow by assumption.
    specialize (Hrow Hy). split.
    + apply mapM_length in Hrow. now rewrite range_length in Hrow.
    + intros x Hx.
      pose proof (mapM_nth _ _ _ x 0 ESC Hrow) as Hch.
      rewrite range_length, range_nth in Hch by assumption.
      exact (Hch Hx).
Qed.

Lemma glyph_grid_total (libm_pow : float -> float -> float) (img : Image)
    (width height : Z) (ramp : string) (brightness contrast gamma : float) :
  (forall x y, 0 <= x < width -> 0 <= y < height ->
     exists ch, pixel_glyph libm_pow ramp brightness contrast gamma
                  (getpixel img x y) = Ok ch) ->
  exists rows,
    glyph_grid libm_pow img width height ramp brightness contrast gamma = Ok rows.
Proof.
  intros H. unfold glyph_grid. apply mapM_total. intros y Hy.
  apply mapM_total. intros x Hx. apply range_In in Hx, Hy. now apply H.
Qed.

Lemma cell_plain_length (px : Z * Z * Z) (ch : ascii) :
  String.length (cell false px ch) = 1%nat.
Proof. destruct px as [[r g] b]. reflexivity. Qed.

Lemma plain_cells_length (img : Image) (y : Z) (l : list (Z * ascii)) :
  String.length
    (String.concat ""
       (map (fun xc => cell false (getpixel img (fst xc) y) (snd xc)) l))
  = List.length l.
Proof.
  induction l as [|[x ch] l IH]; [reflexivity |].
  cbn [map]. rewrite concat_empty_cons, length_append, IH.
  cbn [fst snd List.length]. now rewrite cell_plain_length.
Qed.

(** Without colour a line is as long as its row of glyphs. *)
Lemma line_of_plain_length (img : Image) (width y : Z) (glyphs : list ascii) :
  List.length glyphs = Z.to_nat width ->
  String.length (line_of img width false y glyphs) = Z.to_nat width.
Proof.
  unfold line_of. rewrite append_empty_r. intros Hl.
  rewrite plain_cells_length, length_combine, range_length. lia.
Qed.


(** ** Colour *)











(** ** Monotonicity of the float operations *)


Lemma rne_zero (k : Z) : rne 0 k = 0.
Proof.
  unfold rne. destruct (Z.leb_spec k 0) as [L|G]; [reflexivity |].
  assert (0 < 2 ^ k) by (apply Z.pow_pos_nonneg; lia).
  rewrite Zmod_0_l, Zdiv_0_l.
  destruct (Z.compare_spec (2 * 0) (2 ^ k)); lia.
Qed.

Lemma round_exact_zero (e : Z) : fst (round_exact 0 e) = 0.
Proof.
  unfold round_exact, round_mant. rewrite rne_zero. cbn [fst].
  destruct (0 <? _); [apply Zdiv_0_l | reflexivity].
Qed.

Lemma rval_zero (e : Z) : (rval 0 e == 0)%Q.
Proof. unfold rval. rewrite round_exact_zero. apply F2Q_zero. Qed.

Lemma rval_nonneg (m e : Z) : 0 <= m -> (0 <= rval m e)%Q.
Proof.
  intros Hm. destruct (Z.eq_dec m 0) as [->|N].
  - rewrite rval_zero. apply Qle_refl.
  - apply F2Q_nonneg, round_exact_nonneg. lia.
Qed.

(** The boundary of the binade of magnitude [g]. *)
Lemma canonical_pow2 (g : Z) : -1074 < g - 53 -> canonical (2 ^ 52) (g - 53).
Proof.
  intros H. split; [reflexivity |].
  change (Zdigits2 (2 ^ 52)) with 53. unfold fexp64. lia.
Qed.

Lemma F2Q_mag_bounds (m e : Z) :
  0 < m -> (F2Q 1 (mag m e - 1) <= F2Q m e)%Q /\ (F2Q m e < F2Q 1 (mag m e))%Q.
Proof.
  intros Hm. pose proof (Zdigits2_bounds m Hm) as B.
  pose proof (Zdigits2_pos m Hm) as P. unfold mag. split.
  - apply (F2Q_le_at e); [lia | lia |].
    rewrite Z.sub_diag, Z.mul_1_r, Z.mul_1_l.
    replace (Zdigits2 m + e - 1 - e) with (Zdigits2 m - 1) by lia. lia.
  - apply (F2Q_lt_at e); [lia | lia |].
    rewrite Z.sub_diag, Z.mul_1_r, Z.mul_1_l.
    replace (Zdigits2 m + e - e) with (Zdigits2 m) by lia. lia.
Qed.

(** Rounding is monotone. *)
Lemma rval_mono_pos (m1 e1 m2 e2 : Z) :
  0 < m1 -> 0 < m2 -> (F2Q m1 e1 <= F2Q m2 e2)%Q ->
  (rval m1 e1 <= rval m2 e2)%Q.
Proof.
  intros H1 H2 Hle. unfold rval.
  pose proof (mag_le _ _ _ _ H1 H2 Hle) as Hmag.
  destruct (Z.eq_dec (fexp64 (mag m1 e1)) (fexp64 (mag m2 e2))) as [E|N].
  - (* both results on the same grid *)
    rewrite !round_exact_value by assumption.
    destruct (Z.leb_spec (round_shift m1 e1) 0) as [L1|G1],
             (Z.leb_spec (round_shift m2 e2) 0) as [L2|G2].
    + destruct (round_unshifted m1 e1 L1) as [-> ->].
      destruct (round_unshifted m2 e2 L2) as [-> ->]. assumption.
    + destruct (round_unshifted m1 e1 L1) as [-> ->].
      assert (Ee : round_exp m2 e2 = e2 + round_shift m2 e2)
        by (unfold round_exp, round_shift in *; lia).
      assert (Hg : round_exp m2 e2 <= e1)
        by (unfold round_exp, round_shift in *; lia).
      replace e1 with (round_exp m2 e2 + (e1 - round_exp m2 e2)) by lia.
      rewrite <- F2Q_scale by lia. apply F2Q_le. apply rne_ge_grid; [assumption |].
      apply (F2Q_le_at e2) in Hle; [| lia | lia].
      rewrite Z.sub_diag, Z.mul_1_r in Hle.
      replace (e1 - e2) with ((e1 - round_exp m2 e2) + round_shift m2 e2)
        in Hle by lia.
      rewrite Z.pow_add_r in Hle by lia. lia.
    + destruct (round_unshifted m2 e2 L2) as [-> ->].
      assert (Ee : round_exp m1 e1 = e1 + round_shift m1 e1)
        by (unfold round_exp, round_shift in *; lia).
      assert (Hg : round_exp m1 e1 <= e2)
        by (unfold round_exp, round_shift in *; lia).
      replace e2 with (round_exp m1 e1 + (e2 - round_exp m1 e1)) by lia.
      rewrite <- F2Q_scale by lia. apply F2Q_le. apply rne_le_grid; [assumption |].
      apply (F2Q_le_at e1) in Hle; [| lia | lia].
      rewrite Z.sub_diag, Z.mul_1_r in Hle.
      replace (e2 - e1) with ((e2 - round_exp m1 e1) + round_shift m1 e1)
        in Hle by lia.
      rewrite Z.pow_add_r in Hle by lia. lia.
    + assert (Ee : round_exp m1 e1 = round_exp m2 e2)
        by (unfold round_exp, round_shift in *; lia).
      rewrite Ee. apply F2Q_le.
      apply rne_mono_cross; [assumption | assumption |].
      apply (F2Q_le_at (e1 - round_shift m2 e2)) in Hle;
        [| lia | unfold round_exp, round_shift in *; lia].
      replace (e1 - (e1 - round_shift m2 e2)) with (round_shift m2 e2) in Hle by lia.
      replace (e2 - (e1 - round_shift m2 e2)) with (round_shift m1 e1) in Hle
        by (unfold round_exp, round_shift in *; lia).
      assumption.
  - (* a power of two separates the two binades *)
    assert (Hlt : mag m1 e1 < mag m2 e2).
    { destruct (Z.eq_dec (mag m1 e1) (mag m2 e2)) as [E|NE]; [congruence | lia]. }
    assert (Hnorm : -1074 < mag m2 e2 - 53) by (unfold fexp64 in *; lia).
    pose proof (canonical_pow2 (mag m2 e2) Hnorm) as CP.
    pose proof (F2Q_mag_bounds m1 e1 H1) as [_ B1].
    pose proof (F2Q_mag_bounds m2 e2 H2) as [B2 _].
    assert (EP : (F2Q (2 ^ 52) (mag m2 e2 - 53) == F2Q 1 (mag m2 e2 - 1))%Q).
    { rewrite <- (Z.mul_1_l (2 ^ 52)), F2Q_scale by lia.
      replace (mag m2 e2 - 53 + 52) with (mag m2 e2 - 1) by lia. reflexivity. }
    assert (Hb : (F2Q 1 (mag m1 e1) <= F2Q 1 (mag m2 e2 - 1))%Q).
    { apply (F2Q_le_at (mag m1 e1)); [lia | lia |].
      rewrite Z.sub_diag, !Z.mul_1_l. apply Z.pow_le_mono_r; lia. }
    apply Qle_trans with (F2Q (2 ^ 52) (mag m2 e2 - 53)).
    + apply round_exact_le; [assumption | assumption | rewrite EP; lra].
    + apply round_exact_ge; [assumption | assumption | rewrite EP; lra].
Qed.

Lemma rval_mono (m1 e1 m2 e2 : Z) :
  0 <= m1 -> 0 <= m2 -> (F2Q m1 e1 <= F2Q m2 e2)%Q ->
  (rval m1 e1 <= rval m2 e2)%Q.
Proof.
  intros H1 H2 Hle.
  destruct (Z.eq_dec m1 0) as [->|N1].
  - rewrite rval_zero. now apply rval_nonneg.
  - destruct (Z.eq_dec m2 0) as [->|N2].
    + exfalso. rewrite F2Q_zero in Hle.
      pose proof (F2Q_pos m1 e1 ltac:(lia)). lra.
    + apply rval_mono_pos; [lia | lia | assumption].
Qed.


Lemma clip_mono (p q : Q) : (p <= q)%Q -> (clip p <= clip q)%Q.
Proof.
  intros H. unfold clip.
  assert (L : (F2Q 1 1024 < F2Q 1 1025)%Q) by (apply (F2Q_lt_at 1024); lia).
  destruct (Qlt_le_dec p _), (Qlt_le_dec q _); lra.
Qed.

Lemma clip_nonneg (q : Q) : (0 <= q)%Q -> (0 <= clip q)%Q.
Proof.
  intros H. unfold clip.
  pose proof (F2Q_pos 1 1025 ltac:(lia)).
  destruct (Qlt_le_dec q _); lra.
Qed.

Lemma clip_zero : (clip 0 == 0)%Q.
Proof.
  unfold clip. pose proof (F2Q_pos 1 1024 ltac:(lia)).
  destruct (Qlt_le_dec 0 _); lra.
Qed.

Lemma clip_le_top (q : Q) : (clip q <= F2Q 1 1025)%Q.
Proof.
  unfold clip.
  assert (L : (F2Q 1 1024 < F2Q 1 1025)%Q) by (apply (F2Q_lt_at 1024); lia).
  destruct (Qlt_le_dec q _); lra.
Qed.

#[local] Instance clip_proper : Proper (Qeq ==> Qeq) clip.
Proof.
  intros p q E. unfold clip.
  destruct (Qlt_le_dec p _), (Qlt_le_dec q _); try reflexivity; lra.
Qed.

Lemma canonical_overflow (m e : Z) :
  canonical m e -> (e <= 971 <-> (F2Q m e < F2Q 1 1024)%Q).
Proof.
  intros C. pose proof (canonical_digits m e C) as [D Emin].
  destruct C as [Hm C]. pose proof (Zdigits2_bounds m Hm) as B. split.
  - intros He. apply (F2Q_lt_at e); [lia | lia |].
    rewrite Z.sub_diag, Z.mul_1_r, Z.mul_1_l.
    assert (2 ^ Zdigits2 m <= 2 ^ (1024 - e)) by (apply Z.pow_le_mono_r; lia).
    lia.
  - intros Hlt. destruct (Z_le_gt_dec e 971) as [|G]; [assumption | exfalso].
    pose proof (canonical_normal m e (conj Hm C) ltac:(lia)) as [N _].
    apply (F2Q_lt_at 972) in Hlt; [| lia | lia].
    rewrite Z.mul_1_l in Hlt. change (2 ^ (1024 - 972)) with (2 ^ 52) in Hlt.
    assert (0 < 2 ^ (e - 972)) by (apply Z.pow_pos_nonneg; lia).
    nia.
Qed.

Lemma valid_finite_below (s : bool) (m : positive) (e : Z) :
  valid (S754_finite s m e) -> (F2Q (Zpos m) e < F2Q 1 1024)%Q.
Proof. intros V. apply valid_finite in V. destruct V as [C E]. now apply canonical_overflow. Qed.

(** What [pack] makes of a rounded value. *)
Lemma pack_value (s : bool) (m e : Z) :
  0 <= m -> m = 0 \/ e <= fexp64 (mag m e) ->
  valid (pack s (round_exact m e)) /\
  is_nan (pack s (round_exact m e)) = false /\
  (B2Qx (pack s (round_exact m e))
   == if s then - clip (rval m e) else clip (rval m e))%Q.
Proof.
  intros Hm Ha.
  assert (C : fst (round_exact m e) = 0 \/
              canonical (fst (round_exact m e)) (snd (round_exact m e))).
  { destruct (Z.eq_dec m 0) as [->|N]; [left; apply round_exact_zero |].
    apply round_exact_canonical; [lia | destruct Ha; [contradiction | assumption]]. }
  unfold rval. split; [| split].
  - destruct (round_exact m e) as [m' e']. now apply pack_valid.
  - destruct (round_exact m e) as [m' e']. cbn [fst snd] in C. unfold pack.
    cbn [fst snd]. destruct C as [->|[Hp _]]; [reflexivity |].
    destruct m'; try lia. destruct (e' <=? 971); reflexivity.
  - destruct (round_exact m e) as [m' e']. cbn [fst snd] in *. unfold pack.
    cbn [fst snd]. destruct C as [->|C].
    + cbn [B2Qx B2Q]. destruct s; rewrite F2Q_zero, clip_zero; reflexivity.
    + pose proof (canonical_overflow m' e' C) as O. destruct C as [Hp C].
      destruct m' as [|p|p]; try lia.
      destruct (Z.leb_spec e' 971) as [L|G]; cbn [B2Qx B2Q].
      * apply O in L. unfold clip.
        destruct (Qlt_le_dec (F2Q (Zpos p) e') (F2Q 1 1024)); [| lra].
        destruct s; cbn [cond_Zopp]; [| reflexivity].
        change (Z.opp (Zpos p)) with (- Zpos p). apply F2Q_opp.
      * assert (~ (F2Q (Zpos p) e' < F2Q 1 1024)%Q) by (intros H; apply O in H; lia).
        unfold clip.
        destruct (Qlt_le_dec (F2Q (Zpos p) e') (F2Q 1 1024)); [contradiction |].
        destruct s; reflexivity.
Qed.

Lemma B2Qx_finite (x : float) : is_finite x = true -> B2Qx x = B2Q x.
Proof. destruct x; try discriminate; reflexivity. Qed.

Lemma B2Q_below (x : float) :
  valid x -> (- F2Q 1 1024 < B2Q x)%Q /\ (B2Q x < F2Q 1 1024)%Q.
Proof.
  intros V. pose proof (F2Q_pos 1 1024 ltac:(lia)) as P.
  destruct x as [s|s| |s m e]; cbn [B2Q]; try (split; lra).
  pose proof (valid_finite_below s m e V) as B.
  pose proof (F2Q_pos (Zpos m) e ltac:(lia)) as Pm.
  pose proof (F2Q_opp (Zpos m) e) as O.
  destruct s; cbn [cond_Zopp]; split; lra.
Qed.

(** On valid floats that are numbers, the comparison is that of the
    values, the infinities beyond all of them. *)
Lemma SFcompare_B2Qx (x y : float) :
  valid x -> valid y -> is_nan x = false -> is_nan y = false ->
  SFcompare x y = Some (B2Qx x ?= B2Qx y)%Q.
Proof.
  intros Vx Vy Nx Ny.
  assert (L : (F2Q 1 1024 < F2Q 1 1025)%Q) by (apply (F2Q_lt_at 1024); lia).
  pose proof (F2Q_pos 1 1024 ltac:(lia)) as P.
  pose proof (B2Q_below x Vx) as [Bx1 Bx2].
  pose proof (B2Q_below y Vy) as [By1 By2].
  destruct (is_finite x) eqn:Fx, (is_finite y) eqn:Fy.
  - rewrite !B2Qx_finite by assumption. now apply SFcompare_B2Q.
  - destruct y as [|sy| |]; try discriminate.
    rewrite (B2Qx_finite x Fx).
    destruct x as [sx| | |sx mx ex]; try discriminate; cbn [SFcompare B2Qx];
      f_equal; destruct sy; qcompare.
  - destruct x as [|sx| |]; try discriminate.
    rewrite (B2Qx_finite y Fy).
    destruct y as [sy| | |sy my ey]; try discriminate; cbn [SFcompare B2Qx];
      f_equal; destruct sx; qcompare.
  - destruct x as [|sx| |], y as [|sy| |]; try discriminate.
    cbn [SFcompare B2Qx]. f_equal. destruct sx, sy; qcompare.
Qed.

Lemma leb_B2Qx (x y : float) :
  valid x -> valid y -> is_nan x = false -> is_nan y = false ->
  (F64.leb x y = true <-> (B2Qx x <= B2Qx y)%Q).
Proof.
  intros Vx Vy Fx Fy. unfold F64.leb, SFleb. rewrite SFcompare_B2Qx by assumption.
  destruct (Qcompare_spec (B2Qx x) (B2Qx y)) as [E|L|G]; split; intros H;
    try reflexivity; try discriminate; try lra.
Qed.

Lemma ltb_B2Qx (x y : float) :
  valid x -> valid y -> is_nan x = false -> is_nan y = false ->
  (F64.ltb x y = true <-> (B2Qx x < B2Qx y)%Q).
Proof.
  intros Vx Vy Fx Fy. unfold F64.ltb, SFltb. rewrite SFcompare_B2Qx by assumption.
  destruct (Qcompare_spec (B2Qx x) (B2Qx y)) as [E|L|G]; split; intros H;
    try reflexivity; try discriminate; try lra.
Qed.

Lemma leb_not_nan (x y : float) :
  F64.leb x y = true -> is_nan x = false /\ is_nan y = false.
Proof. destruct x, y; try discriminate; auto. Qed.


Lemma B2Q_mant (x : float) :
  (B2Q x == if sign x then - F2Q (mant x) (expo x) else F2Q (mant x) (expo x))%Q.
Proof.
  destruct x as [s|s| |s m e]; cbn [B2Q sign mant expo];
    try (destruct s; rewrite F2Q_zero; reflexivity);
    try (rewrite F2Q_zero; reflexivity).
  destruct s; cbn [cond_Zopp]; [| reflexivity].
  change (Z.opp (Zpos m)) with (- Zpos m). apply F2Q_opp.
Qed.

Lemma mant_nonneg (x : float) : 0 <= mant x.
Proof. destruct x; cbn; lia. Qed.

Lemma Zdigits2_pow2 (k : Z) : 0 <= k -> Zdigits2 (2 ^ k) = k + 1.
Proof.
  intros Hk. rewrite <- (Z.mul_1_l (2 ^ k)), Zdigits2_scale by lia.
  change (Zdigits2 1) with 1. lia.
Qed.

Lemma Zdigits2_mul (a b : Z) :
  0 < a -> 0 < b -> Zdigits2 a + Zdigits2 b - 1 <= Zdigits2 (a * b).
Proof.
  intros Ha Hb.
  pose proof (Zdigits2_bounds a Ha) as Ba. pose proof (Zdigits2_bounds b Hb) as Bb.
  pose proof (Zdigits2_pos a Ha) as Pa. pose proof (Zdigits2_pos b Hb) as Pb.
  assert (H : 2 ^ (Zdigits2 a - 1 + (Zdigits2 b - 1)) <= a * b).
  { rewrite Z.pow_add_r by lia.
    assert (0 < 2 ^ (Zdigits2 a - 1)) by (apply Z.pow_pos_nonneg; lia).
    assert (0 < 2 ^ (Zdigits2 b - 1)) by (apply Z.pow_pos_nonneg; lia). nia. }
  apply Zdigits2_mono in H; [| apply Z.pow_pos_nonneg; lia].
  rewrite Zdigits2_pow2 in H by lia. lia.
Qed.

(** The exact product of two canonical floats needs no padding. *)
Lemma mul_aligned (m1 e1 m2 e2 : Z) :
  canonical m1 e1 -> canonical m2 e2 ->
  e1 + e2 <= fexp64 (mag (m1 * m2) (e1 + e2)).
Proof.
  intros [H1 C1] [H2 C2].
  pose proof (Zdigits2_mul m1 m2 H1 H2) as D.
  pose proof (Zdigits2_pos m1 H1). pose proof (Zdigits2_pos m2 H2).
  unfold mag, fexp64 in *. lia.
Qed.

Lemma pack_zero (s : bool) (e : Z) : pack s (round_exact 0 e) = S754_zero s.
Proof. unfold pack. now rewrite round_exact_zero. Qed.

Lemma mul_round (x y : float) :
  is_finite x = true -> is_finite y = true ->
  mul x y = pack (xorb (sign x) (sign y))
              (round_exact (mant x * mant y) (expo x + expo y)).
Proof.
  intros Fx Fy.
  destruct x as [sx| | |sx mx ex], y as [sy| | |sy my ey]; try discriminate;
    cbn [mant expo sign]; rewrite ?Z.mul_0_l, ?Z.mul_0_r, ?pack_zero;
    try reflexivity.
  apply mul_finite.
Qed.

Lemma valid_canonical (x : float) :
  valid x -> is_finite x = true -> mant x = 0 \/ canonical (mant x) (expo x).
Proof.
  intros V F. destruct x as [s|s| |s m e]; try discriminate; [now left |].
  right. apply valid_finite in V. apply V.
Qed.

(** The value of a product of two finite floats: the rounded exact product,
    clipped at the overflow threshold. *)
Lemma mul_value (x y : float) :
  valid x -> valid y -> is_finite x = true -> is_finite y = true ->
  valid (mul x y) /\ is_nan (mul x y) = false /\
  (B2Qx (mul x y)
   == if xorb (sign x) (sign y)
      then - clip (rval (mant x * mant y) (expo x + expo y))
      else clip (rval (mant x * mant y) (expo x + expo y)))%Q.
Proof.
  intros Vx Vy Fx Fy. rewrite mul_round by assumption.
  apply pack_value.
  - pose proof (mant_nonneg x). pose proof (mant_nonneg y). nia.
  - destruct (valid_canonical x Vx Fx) as [->|Cx]; [left; lia |].
    destruct (valid_canonical y Vy Fy) as [->|Cy]; [left; lia |].
    right. now apply mul_aligned.
Qed.

Lemma B2Qx_bounds (x : float) :
  valid x -> (- F2Q 1 1025 <= B2Qx x)%Q /\ (B2Qx x <= F2Q 1 1025)%Q.
Proof.
  intros V.
  assert (L : (F2Q 1 1024 < F2Q 1 1025)%Q) by (apply (F2Q_lt_at 1024); lia).
  pose proof (F2Q_pos 1 1024 ltac:(lia)) as P.
  destruct x as [s|s| |s m e]; cbn [B2Qx B2Q]; try lra.
  - destruct s; lra.
  - pose proof (B2Q_below _ V) as [B1 B2]. cbn [B2Q] in *. lra.
Qed.

Lemma mle_refl_nan (x y : float) : is_nan x = true -> mle x y.
Proof. intros H. now left. Qed.

Lemma mle_of_values (x y : float) :
  valid x -> valid y -> is_nan x = false -> is_nan y = false ->
  (B2Qx x <= B2Qx y)%Q -> mle x y.
Proof. intros Vx Vy Nx Ny H. right. right. now apply leb_B2Qx. Qed.

Lemma mle_values (x y : float) :
  valid x -> valid y -> mle x y -> is_nan x = false -> is_nan y = false ->
  (B2Qx x <= B2Qx y)%Q.
Proof.
  intros Vx Vy [H|[H|H]] Nx Ny; try congruence. now apply leb_B2Qx in H.
Qed.

(** Scaling two dyadics by a third keeps their order. *)
Lemma F2Q_mul_le (m1 e1 m2 e2 mc ec : Z) :
  0 <= mc -> (F2Q m1 e1 <= F2Q m2 e2)%Q ->
  (F2Q (m1 * mc) (e1 + ec) <= F2Q (m2 * mc) (e2 + ec))%Q.
Proof.
  intros Hc H. rewrite !F2Q_mul.
  apply Qmult_le_compat_r; [assumption | now apply F2Q_nonneg].
Qed.

Lemma F2Q_le_zero (m e : Z) : 0 <= m -> (F2Q m e <= 0)%Q -> m = 0.
Proof.
  intros Hm H. destruct (Z.eq_dec m 0) as [|N]; [assumption | exfalso].
  pose proof (F2Q_pos m e ltac:(lia)). lra.
Qed.

Lemma leb_neg_inf (z : float) : is_nan z = false -> F64.leb (S754_infinity true) z = true.
Proof. destruct z as [|[]| |]; try discriminate; reflexivity. Qed.

Lemma leb_pos_inf (z : float) : is_nan z = false -> F64.leb z (S754_infinity false) = true.
Proof. destruct z as [|[]| |[] ? ?]; try discriminate; reflexivity. Qed.

Lemma mul_valid (x y : float) : valid x -> valid y -> valid (mul x y).
Proof.
  intros Vx Vy. destruct (is_finite x) eqn:Fx, (is_finite y) eqn:Fy.
  - now apply mul_value.
  - destruct x, y; try discriminate; reflexivity.
  - destruct x, y; try discriminate; reflexivity.
  - destruct x, y; try discriminate; reflexivity.
Qed.

(** A non-negative finite factor, seen through its sign and mantissa. *)
Lemma nonneg_factor (c : float) :
  is_finite c = true -> F64.leb zero c = true -> mant c = 0 \/ sign c = false.
Proof.
  destruct c as [s|s| |s m e]; try discriminate; intros _ H; [now left |].
  right. destruct s; [discriminate | reflexivity].
Qed.

Lemma mul_mono_finite (x y c : float) :
  valid x -> valid y -> valid c ->
  is_finite x = true -> is_finite y = true -> is_finite c = true ->
  F64.leb zero c = true -> F64.leb x y = true ->
  (B2Qx (mul x c) <= B2Qx (mul y c))%Q.
Proof.
  intros Vx Vy Vc Fx Fy Fc Hc Hle.
  apply leb_B2Q in Hle; try assumption.
  rewrite (B2Q_mant x), (B2Q_mant y) in Hle.
  destruct (mul_value x c Vx Vc Fx Fc) as (_ & _ & Ex).
  destruct (mul_value y c Vy Vc Fy Fc) as (_ & _ & Ey).
  rewrite Ex, Ey. clear Ex Ey.
  pose proof (mant_nonneg x) as Px. pose proof (mant_nonneg y) as Py.
  pose proof (mant_nonneg c) as Pc.
  pose proof (F2Q_nonneg (mant x) (expo x) Px) as Ax.
  pose proof (F2Q_nonneg (mant y) (expo y) Py) as Ay.
  set (A := clip (rval (mant x * mant c) (expo x + expo c))).
  set (B := clip (rval (mant y * mant c) (expo y + expo c))).
  assert (HA : (0 <= A)%Q) by (apply clip_nonneg, rval_nonneg; nia).
  assert (HB : (0 <= B)%Q) by (apply clip_nonneg, rval_nonneg; nia).
  assert (Mxy : (F2Q (mant x) (expo x) <= F2Q (mant y) (expo y))%Q -> (A <= B)%Q).
  { intros H. apply clip_mono, rval_mono; [nia | nia |]. now apply F2Q_mul_le. }
  assert (Myx : (F2Q (mant y) (expo y) <= F2Q (mant x) (expo x))%Q -> (B <= A)%Q).
  { intros H. apply clip_mono, rval_mono; [nia | nia |]. now apply F2Q_mul_le. }
  assert (Zx : (F2Q (mant x) (expo x) <= 0)%Q -> (A <= 0)%Q).
  { intros H. apply F2Q_le_zero in H; [| assumption]. unfold A.
    rewrite H, Z.mul_0_l, rval_zero, clip_zero. lra. }
  assert (Zy : (F2Q (mant y) (expo y) <= 0)%Q -> (B <= 0)%Q).
  { intros H. apply F2Q_le_zero in H; [| assumption]. unfold B.
    rewrite H, Z.mul_0_l, rval_zero, clip_zero. lra. }
  destruct (nonneg_factor c Fc Hc) as [Z|S].
  - assert (EA : (A == 0)%Q)
      by (unfold A; rewrite Z, Z.mul_0_r, rval_zero, clip_zero; reflexivity).
    assert (EB : (B == 0)%Q)
      by (unfold B; rewrite Z, Z.mul_0_r, rval_zero, clip_zero; reflexivity).
    destruct (xorb (sign x) (sign c)), (xorb (sign y) (sign c)); lra.
  - rewrite S, !xorb_false_r.
    destruct (sign x), (sign y).
    + assert ((B <= A)%Q) by (apply Myx; lra). lra.
    + lra.
    + assert ((A <= 0)%Q) by (apply Zx; lra).
      assert ((B <= 0)%Q) by (apply Zy; lra). lra.
    + assert ((A <= B)%Q) by (apply Mxy; lra). lra.
Qed.

(** Multiplying by a non-negative finite factor is monotone. *)
Lemma mul_mono_r (x y c : float) :
  valid x -> valid y -> valid c -> is_finite c = true ->
  F64.leb zero c = true -> mle x y -> mle (mul x c) (mul y c).
Proof.
  intros Vx Vy Vc Fc Hc [Nx|[Ny|Hle]].
  - left. destruct x; try discriminate. reflexivity.
  - right. left. destruct y; try discriminate. destruct x; reflexivity.
  - destruct (is_nan (mul x c)) eqn:N1; [now left |].
    destruct (is_nan (mul y c)) eqn:N2; [right; now left |].
    right. right.
    destruct (is_finite x) eqn:Fx, (is_finite y) eqn:Fy.
    + apply leb_B2Qx; try assumption; try (now apply mul_valid).
      now apply mul_mono_finite.
    + (* [y] is the positive infinity *)
      destruct y as [|[]| |]; try discriminate;
        [destruct x; discriminate |].
      destruct c as [sc| | |sc mc ec]; try discriminate.
      destruct sc; [discriminate |]. cbn [mul SFmul xorb].
      now apply leb_pos_inf.
    + (* [x] is the negative infinity *)
      destruct x as [|[]| |]; try discriminate;
        [| destruct y; discriminate].
      destruct c as [sc| | |sc mc ec]; try discriminate.
      destruct sc; [discriminate |]. cbn [mul SFmul xorb].
      now apply leb_neg_inf.
    + destruct x as [|sx| |], y as [|sy| |]; try discriminate.
      destruct c as [sc| | |sc mc ec]; try discriminate.
      destruct sc; [discriminate |]. destruct sx, sy; try discriminate; reflexivity.
Qed.


Lemma aligned_F2Q (m e : Z) :
  (F2Q (m * 2 ^ (e - Z.min e (fexp64 (mag m e)))) (Z.min e (fexp64 (mag m e)))
   == F2Q m e)%Q.
Proof.
  rewrite F2Q_scale by lia.
  replace (Z.min e (fexp64 (mag m e)) + (e - Z.min e (fexp64 (mag m e)))) with e
    by lia.
  reflexivity.
Qed.

Lemma aligned_rval_mono (m1 e1 m2 e2 : Z) :
  0 <= m1 -> 0 <= m2 -> (F2Q m1 e1 <= F2Q m2 e2)%Q ->
  (aligned_rval m1 e1 <= aligned_rval m2 e2)%Q.
Proof.
  intros H1 H2 H. unfold aligned_rval.
  apply rval_mono; [| | now rewrite !aligned_F2Q].
  - apply Z.mul_nonneg_nonneg; [assumption | apply Z.pow_nonneg; lia].
  - apply Z.mul_nonneg_nonneg; [assumption | apply Z.pow_nonneg; lia].
Qed.

Lemma aligned_rval_nonneg (m e : Z) : 0 <= m -> (0 <= aligned_rval m e)%Q.
Proof.
  intros H. apply rval_nonneg.
  apply Z.mul_nonneg_nonneg; [assumption | apply Z.pow_nonneg; lia].
Qed.

(** The value of a signed integer mantissa once normalised. *)
Lemma normalize_value (M e : Z) :
  valid (binary_normalize prec emax M e false) /\
  is_nan (binary_normalize prec emax M e false) = false /\
  (B2Qx (binary_normalize prec emax M e false)
   == if M <? 0 then - clip (aligned_rval (Z.abs M) e)
      else clip (aligned_rval (Z.abs M) e))%Q.
Proof.
  destruct M as [|p|p]; cbn [binary_normalize Z.ltb Z.compare Z.abs].
  - split; [reflexivity | split; [reflexivity |]].
    unfold aligned_rval. rewrite Z.mul_0_l, rval_zero, clip_zero. reflexivity.
  - rewrite binary_round_exact. unfold aligned_rval.
    apply (pack_value false).
    + apply Z.mul_nonneg_nonneg; [lia | apply Z.pow_nonneg; lia].
    + right. rewrite aligned_mag by lia. lia.
  - rewrite binary_round_exact. unfold aligned_rval.
    apply (pack_value true).
    + apply Z.mul_nonneg_nonneg; [lia | apply Z.pow_nonneg; lia].
    + right. rewrite aligned_mag by lia. lia.
Qed.

Lemma F2Q_abs (M e : Z) :
  (F2Q M e == if M <? 0 then - F2Q (Z.abs M) e else F2Q (Z.abs M) e)%Q.
Proof.
  destruct (Z.ltb_spec M 0) as [L|G].
  - rewrite <- F2Q_opp. replace (- Z.abs M) with M by lia. reflexivity.
  - replace (Z.abs M) with M by lia. reflexivity.
Qed.

(** Normalisation is monotone in the exact value. *)
Lemma normalize_mono (M1 e1 M2 e2 : Z) :
  (F2Q M1 e1 <= F2Q M2 e2)%Q ->
  (B2Qx (binary_normalize prec emax M1 e1 false)
   <= B2Qx (binary_normalize prec emax M2 e2 false))%Q.
Proof.
  intros H.
  destruct (normalize_value M1 e1) as (_ & _ & ->).
  destruct (normalize_value M2 e2) as (_ & _ & ->).
  rewrite (F2Q_abs M1), (F2Q_abs M2) in H.
  pose proof (Z.abs_nonneg M1) as P1. pose proof (Z.abs_nonneg M2) as P2.
  pose proof (F2Q_nonneg _ e1 P1) as A1. pose proof (F2Q_nonneg _ e2 P2) as A2.
  set (A := clip (aligned_rval (Z.abs M1) e1)).
  set (B := clip (aligned_rval (Z.abs M2) e2)).
  assert (HA : (0 <= A)%Q) by (apply clip_nonneg, aligned_rval_nonneg; lia).
  assert (HB : (0 <= B)%Q) by (apply clip_nonneg, aligned_rval_nonneg; lia).
  assert (Mxy : (F2Q (Z.abs M1) e1 <= F2Q (Z.abs M2) e2)%Q -> (A <= B)%Q)
    by (intros; now apply clip_mono, aligned_rval_mono).
  assert (Myx : (F2Q (Z.abs M2) e2 <= F2Q (Z.abs M1) e1)%Q -> (B <= A)%Q)
    by (intros; now apply clip_mono, aligned_rval_mono).
  destruct (Z.ltb_spec M1 0) as [L1|G1], (Z.ltb_spec M2 0) as [L2|G2].
  - assert ((B <= A)%Q) by (apply Myx; lra). lra.
  - lra.
  - exfalso. pose proof (F2Q_pos (Z.abs M2) e2 ltac:(lia)). lra.
  - assert ((A <= B)%Q) by (apply Mxy; lra). lra.
Qed.

Lemma shl_align_fst (mx : positive) (ex ez : Z) :
  ez <= ex -> Zpos (fst (shl_align mx ex ez)) = Zpos mx * 2 ^ (ex - ez).
Proof.
  intros H. pose proof (shl_align_spec mx ex ez) as S.
  destruct (shl_align mx ex ez) as [mz e']. destruct S as [-> S]. cbn [fst].
  rewrite S. f_equal. f_equal. lia.
Qed.

Lemma add_finite (sx sy : bool) (mx my : positive) (ex ey : Z) :
  add (S754_finite sx mx ex) (S754_finite sy my ey) =
  binary_normalize prec emax
    (cond_Zopp sx (Zpos mx * 2 ^ (ex - Z.min ex ey))
     + cond_Zopp sy (Zpos my * 2 ^ (ey - Z.min ex ey)))
    (Z.min ex ey) false.
Proof.
  unfold add, SFadd. cbv zeta.
  rewrite !shl_align_fst by lia. reflexivity.
Qed.

Lemma F2Q_add (a b e : Z) : (F2Q (a + b) e == F2Q a e + F2Q b e)%Q.
Proof. unfold F2Q. rewrite inject_Z_plus. ring. Qed.

Lemma F2Q_cond_Zopp (s : bool) (m e k : Z) :
  0 <= k -> (F2Q (cond_Zopp s (m * 2 ^ k)) e == F2Q (cond_Zopp s m) (e + k))%Q.
Proof.
  intros Hk. destruct s; cbn [cond_Zopp].
  - change (Z.opp ?a) with (- a). rewrite !F2Q_opp, F2Q_scale by lia. reflexivity.
  - now apply F2Q_scale.
Qed.

Lemma add_finite_exact (sx sy : bool) (mx my : positive) (ex ey : Z) :
  (F2Q (cond_Zopp sx (Zpos mx * 2 ^ (ex - Z.min ex ey))
        + cond_Zopp sy (Zpos my * 2 ^ (ey - Z.min ex ey))) (Z.min ex ey)
   == B2Q (S754_finite sx mx ex) + B2Q (S754_finite sy my ey))%Q.
Proof.
  rewrite F2Q_add, !F2Q_cond_Zopp by lia. cbn [B2Q].
  replace (Z.min ex ey + (ex - Z.min ex ey)) with ex by lia.
  replace (Z.min ex ey + (ey - Z.min ex ey)) with ey by lia.
  reflexivity.
Qed.

(** Normalising the mantissa of a valid float gives the float back. *)
Lemma normalize_id (s : bool) (m : positive) (e : Z) :
  valid (S754_finite s m e) ->
  binary_normalize prec emax (cond_Zopp s (Zpos m)) e false = S754_finite s m e.
Proof.
  intros V. apply valid_finite in V. destruct V as [C E].
  assert (Ez : Z.min e (fexp64 (mag (Zpos m) e)) = e).
  { destruct C as [_ C]. unfold mag. rewrite C. lia. }
  assert (R : round_exact (Zpos m) e = (Zpos m, e)).
  { apply round_exact_id; [lia | | assumption | reflexivity].
    destruct C as [_ C]. unfold mag. rewrite C. lia. }
  destruct s; cbn [cond_Zopp Z.opp binary_normalize]; rewrite binary_round_exact;
    rewrite Ez, Z.sub_diag, Z.mul_1_r, R; unfold pack; cbn [fst snd];
    replace (e <=? 971) with true by (symmetry; apply Z.leb_le; lia);
    reflexivity.
Qed.

(** Adding a finite non-zero [h]: the sum is the normalised exact sum. *)
Lemma add_normalize (x : float) (sh : bool) (mh : positive) (eh : Z) :
  valid x -> valid (S754_finite sh mh eh) -> is_finite x = true ->
  exists M e,
    add x (S754_finite sh mh eh) = binary_normalize prec emax M e false /\
    (F2Q M e == B2Q x + B2Q (S754_finite sh mh eh))%Q.
Proof.
  intros Vx Vh Fx. destruct x as [sx| | |sx mx ex]; try discriminate.
  - exists (cond_Zopp sh (Zpos mh)), eh. split.
    + rewrite normalize_id by assumption. reflexivity.
    + cbn [B2Q]. ring.
  - eexists _, _. split; [apply add_finite | apply add_finite_exact].
Qed.

Lemma add_valid (x : float) (sh : bool) (mh : positive) (eh : Z) :
  valid x -> valid (S754_finite sh mh eh) -> valid (add x (S754_finite sh mh eh)).
Proof.
  intros Vx Vh. destruct (is_finite x) eqn:Fx.
  - destruct (add_normalize x sh mh eh Vx Vh Fx) as (M & e & -> & _).
    apply normalize_value.
  - destruct x; try discriminate; reflexivity.
Qed.

(** Adding a finite non-zero constant is monotone. *)
Lemma add_mono_l (x y : float) (sh : bool) (mh : positive) (eh : Z) :
  valid x -> valid y -> valid (S754_finite sh mh eh) ->
  mle x y -> mle (add x (S754_finite sh mh eh)) (add y (S754_finite sh mh eh)).
Proof.
  intros Vx Vy Vh [Nx|[Ny|Hle]].
  - left. destruct x; try discriminate. reflexivity.
  - right. left. destruct y; try discriminate. destruct x; reflexivity.
  - right. right. destruct (leb_not_nan x y Hle) as [Nx Ny].
    destruct (is_finite x) eqn:Fx, (is_finite y) eqn:Fy.
    + destruct (add_normalize x sh mh eh Vx Vh Fx) as (M1 & e1 & E1 & V1).
      destruct (add_normalize y sh mh eh Vy Vh Fy) as (M2 & e2 & E2 & V2).
      rewrite E1, E2.
      apply leb_B2Qx; try apply normalize_value.
      apply normalize_mono. rewrite V1, V2.
      apply leb_B2Q in Hle; try assumption. lra.
    + destruct y as [|[]| |]; try discriminate; [destruct x; discriminate |].
      cbn [add SFadd]. apply leb_pos_inf.
      destruct (add_normalize x sh mh eh Vx Vh Fx) as (M1 & e1 & -> & _).
      apply normalize_value.
    + destruct x as [|[]| |]; try discriminate; [| destruct y; discriminate].
      cbn [add SFadd]. apply leb_neg_inf.
      destruct (add_normalize y sh mh eh Vy Vh Fy) as (M1 & e1 & -> & _).
      apply normalize_value.
    + destruct x as [|[]| |], y as [|[]| |]; try discriminate; reflexivity.
Qed.

Lemma sub_add_opp (x y : float) : sub x y = add x (opp y).
Proof.
  unfold sub, add, opp.
  destruct x as [sx|sx| |sx mx ex], y as [sy|sy| |sy my ey];
    cbn [SFsub SFadd SFopp]; try reflexivity;
    destruct sx, sy; reflexivity.
Qed.

Lemma B2Qx_zero : B2Qx zero = 0%Q.
Proof. reflexivity. Qed.

Lemma B2Qx_one : (B2Qx one == 1)%Q.
Proof. reflexivity. Qed.

Lemma valid_zero : valid zero.
Proof. reflexivity. Qed.

Lemma clamp_valid (x : float) : valid x -> valid (clamp x zero one).
Proof.
  intros V. destruct (clamp_cases x zero one) as [[_ ->]|[(_ & _ & ->)|(_ & _ & ->)]];
    [reflexivity | reflexivity | assumption].
Qed.

(** The value of a clamped number. *)
Lemma clamp_value (x : float) :
  valid x -> is_nan x = false ->
  ((B2Qx x < 0)%Q /\ (B2Qx (clamp x zero one) == 0)%Q) \/
  ((1 < B2Qx x)%Q /\ (B2Qx (clamp x zero one) == 1)%Q) \/
  ((0 <= B2Qx x <= 1)%Q /\ clamp x zero one = x).
Proof.
  intros V N.
  pose proof (ltb_B2Qx x zero V valid_zero N eq_refl) as L0.
  pose proof (ltb_B2Qx one x valid_one V eq_refl N) as L1.
  rewrite B2Qx_zero in L0. rewrite B2Qx_one in L1.
  destruct (clamp_cases x zero one) as [[H ->]|[(H0 & H1 & ->)|(H0 & H1 & ->)]].
  - left. split; [now apply L0 | reflexivity].
  - right. left. split; [now apply L1 | reflexivity].
  - right. right. split; [| reflexivity].
    split.
    + destruct (Qlt_le_dec (B2Qx x) 0) as [L|G]; [| assumption].
      apply L0 in L. congruence.
    + destruct (Qlt_le_dec 1 (B2Qx x)) as [L|G]; [| assumption].
      apply L1 in L. congruence.
Qed.

Lemma clamp_value_range (x : float) :
  valid x -> is_nan x = false -> (0 <= B2Qx (clamp x zero one) <= 1)%Q.
Proof.
  intros V N.
  destruct (clamp_value x V N) as [[_ E]|[[_ E]|[R ->]]]; [rewrite E | rewrite E |];
    lra.
Qed.

(** The clamp is monotone. *)
Lemma clamp_mono (x y : float) :
  valid x -> valid y -> mle x y -> mle (clamp x zero one) (clamp y zero one).
Proof.
  intros Vx Vy [Nx|[Ny|Hle]].
  - left. now rewrite clamp_unit_nan.
  - right. left. now rewrite clamp_unit_nan.
  - destruct (leb_not_nan x y Hle) as [Nx Ny].
    apply mle_of_values; try (now apply clamp_valid);
      try (now rewrite clamp_unit_nan).
    apply leb_B2Qx in Hle; try assumption.
    destruct (clamp_value x Vx Nx) as [[Hx Ex]|[[Hx Ex]|[Hx Ex]]],
             (clamp_value y Vy Ny) as [[Hy Ey]|[[Hy Ey]|[Hy Ey]]];
      rewrite ?Ex, ?Ey; lra.
Qed.

Lemma eqb_B2Qx (x y : float) :
  valid x -> valid y -> is_nan x = false -> is_nan y = false ->
  (F64.eqb x y = true <-> (B2Qx x == B2Qx y)%Q).
Proof.
  intros Vx Vy Fx Fy. unfold F64.eqb, SFeqb. rewrite SFcompare_B2Qx by assumption.
  destruct (Qcompare_spec (B2Qx x) (B2Qx y)) as [E|L|G]; split; intros H;
    try reflexivity; try discriminate; try lra.
Qed.

(** [int()] is monotone. *)
Lemma trunc_mono (x y : float) :
  valid x -> valid y -> is_finite x = true -> is_finite y = true ->
  (B2Q x <= B2Q y)%Q -> trunc x <= trunc y.
Proof.
  intros Vx Vy Fx Fy H.
  assert (T : forall s m e,
             let t := Z.abs (trunc (S754_finite s m e)) in
             trunc (S754_finite s m e) = cond_Zopp s t /\ 0 <= t /\
             (inject_Z t <= F2Q (Zpos m) e)%Q /\
             (F2Q (Zpos m) e < inject_Z t + 1)%Q).
  { intros s m e t. destruct (trunc_towards_zero s m e) as (E & L & U).
    fold t in E, L, U. rewrite inject_Z_plus in U.
    repeat split; try assumption. unfold t. apply Z.abs_nonneg. }
  assert (I : forall a b, (inject_Z a < inject_Z b + 1)%Q -> a <= b).
  { intros a b Hab. change 1%Q with (inject_Z 1) in Hab.
    rewrite <- inject_Z_plus, <- Zlt_Qlt in Hab. lia. }
  destruct x as [sx| | |sx mx ex], y as [sy| | |sy my ey]; try discriminate;
    cbn [B2Q] in H.
  - destruct (T sy my ey) as (E & P & L & U). rewrite E.
    pose proof (F2Q_pos (Zpos my) ey ltac:(lia)) as Py.
    destruct sy; cbn [cond_Zopp trunc] in *; [exfalso | lia].
    change (Z.opp (Zpos my)) with (- Zpos my) in H. rewrite F2Q_opp in H. lra.
  - destruct (T sx mx ex) as (E & P & L & U). rewrite E.
    pose proof (F2Q_pos (Zpos mx) ex ltac:(lia)) as Px.
    destruct sx; cbn [cond_Zopp trunc] in *; [lia | exfalso]. lra.
  - destruct (T sx mx ex) as (Ex & Px & Lx & Ux).
    destruct (T sy my ey) as (Ey & Py & Ly & Uy). rewrite Ex, Ey. clear Ex Ey.
    pose proof (F2Q_pos (Zpos mx) ex ltac:(lia)) as Qx.
    pose proof (F2Q_pos (Zpos my) ey ltac:(lia)) as Qy.
    pose proof (F2Q_opp (Zpos mx) ex) as Ox.
    pose proof (F2Q_opp (Zpos my) ey) as Oy.
    set (tx := Z.abs (trunc (S754_finite sx mx ex))) in *.
    set (ty := Z.abs (trunc (S754_finite sy my ey))) in *.
    destruct sx, sy; cbn [cond_Zopp] in *.
    + change (Z.opp (Zpos mx)) with (- Zpos mx) in H.
      change (Z.opp (Zpos my)) with (- Zpos my) in H.
      assert (ty <= tx) by (apply I; lra). lia.
    + lia.
    + exfalso. change (Z.opp (Zpos my)) with (- Zpos my) in H. lra.
    + assert (tx <= ty) by (apply I; lra). lia.
Qed.


Lemma leb_true_ltb_false (x y : float) :
  F64.leb x y = true -> F64.ltb y x = false.
Proof.
  unfold F64.leb, F64.ltb, SFleb, SFltb. rewrite (SFcompare_antisym x y).
  destruct (SFcompare x y) as [[]|]; cbn; congruence.
Qed.

(** The power of a base in [[0, 1]], case by case. *)
Lemma py_pow_unit (libm_pow : float -> float -> float) (x g : float) :
  valid x -> F64.leb zero x = true -> F64.leb x one = true ->
  py_pow libm_pow x g =
    if F64.eqb g zero then Ok (PyFloat one)
    else if is_nan g then Ok (PyFloat (if F64.eqb x one then one else g))
    else if is_inf g then
      if F64.eqb x one then Ok (PyFloat one)
      else if F64.ltb zero g then Ok (PyFloat zero) else Ok (PyFloat (abs g))
    else if F64.eqb x zero then
      if F64.ltb g zero then Raise ZeroDivisionError
      else Ok (PyFloat (if is_odd_integer g then x else zero))
    else if F64.eqb x one then Ok (PyFloat one)
    else if is_inf (libm_pow x g) then Raise OverflowError
         else Ok (PyFloat (libm_pow x g)).
Proof.
  intros V H0 H1.
  pose proof (leb_true_ltb_false _ _ H0) as L0.
  pose proof (leb_true_ltb_false _ _ H1) as L1.
  unfold py_pow. rewrite L0. cbn [andb].
  destruct (unit_interval x V H0 H1) as [[s ->]|(m & e & -> & _)].
  - cbn [is_nan is_inf abs SFabs].
    replace (F64.eqb (S754_zero false) one) with false by reflexivity.
    replace (F64.eqb (S754_zero s) one) with false by reflexivity.
    replace (F64.ltb one (S754_zero false)) with false by reflexivity.
    replace (F64.eqb (S754_zero s) zero) with true by reflexivity.
    destruct (F64.eqb g zero), (is_nan g), (is_inf g), (F64.ltb zero g);
      reflexivity.
  - cbn [is_nan is_inf abs SFabs]. rewrite L1.
    destruct (F64.eqb g zero), (is_nan g), (is_inf g), (F64.ltb zero g),
      (F64.eqb (S754_finite false m e) one),
      (F64.eqb (S754_finite false m e) zero); reflexivity.
Qed.

Lemma gamma_step_nan (libm_pow : float -> float -> float) (x g : float) :
  is_nan x = true ->
  gamma_step libm_pow x g = if F64.eqb g zero then Ok one else Ok x.
Proof.
  destruct x; try discriminate. intros _. unfold gamma_step, py_pow.
  destruct (F64.eqb g zero); reflexivity.
Qed.

Lemma clamp_zero_s (s : bool) : clamp (S754_zero s) zero one = S754_zero s.
Proof. destruct s; reflexivity. Qed.


Lemma eqb_value (x y : float) :
  valid x -> valid y -> is_nan x = false -> is_nan y = false ->
  (F64.eqb x y = true /\ (B2Qx x == B2Qx y)%Q) \/
  (F64.eqb x y = false /\ ~ (B2Qx x == B2Qx y)%Q).
Proof.
  intros Vx Vy Nx Ny. pose proof (eqb_B2Qx x y Vx Vy Nx Ny) as H.
  destruct (F64.eqb x y); [left | right]; split; try reflexivity.
  - now apply H.
  - intros E. apply H in E. discriminate.
Qed.

Lemma gamma_step_class (libm_pow : float -> float -> float) (x g f : float) :
  valid x -> (forall z, valid z -> valid (libm_pow z g)) ->
  is_nan x = true \/ (F64.leb zero x = true /\ F64.leb x one = true) ->
  gamma_step libm_pow x g = Ok f ->
  valid f /\ gamma_class libm_pow x g f.
Proof.
  intros V Hv [N|[H0 H1]] H.
  - rewrite gamma_step_nan in H by assumption.
    destruct (F64.eqb g zero) eqn:Eg; inversion H; subst.
    + split; [reflexivity |]. right. left. auto.
    + split; [assumption |]. now left.
  - destruct (leb_not_nan _ _ H1) as [Nx _].
    pose proof (leb_B2Qx _ _ valid_zero V eq_refl Nx) as R0. apply R0 in H0.
    pose proof (leb_B2Qx _ _ V valid_one Nx eq_refl) as R1. apply R1 in H1.
    rewrite B2Qx_zero in H0. rewrite B2Qx_one in H1.
    pose proof (proj2 R0) as L0. pose proof (proj2 R1) as L1.
    rewrite B2Qx_zero in L0. rewrite B2Qx_one in L1.
    unfold gamma_step in H. rewrite py_pow_unit in H by auto.
    destruct (F64.eqb g zero) eqn:Eg.
    { inversion H; subst. split; [reflexivity |]. right. left. auto. }
    destruct (is_nan g) eqn:Ng.
    { destruct (eqb_value x one V valid_one Nx eq_refl) as [[E Q]|[E Q]];
        rewrite E in H; inversion H; subst.
      - split; [reflexivity |]. right. left. rewrite <- B2Qx_one. auto.
      - destruct g; try discriminate. split; [reflexivity | now left]. }
    destruct (is_inf g) eqn:Ig.
    { destruct (eqb_value x one V valid_one Nx eq_refl) as [[E Q]|[E Q]];
        rewrite E in H.
      - inversion H; subst. split; [reflexivity |]. right. left.
        rewrite <- B2Qx_one. auto.
      - rewrite B2Qx_one in Q. destruct (F64.ltb zero g) eqn:Lg; inversion H; subst.
        + split; [reflexivity |]. right. right. left.
          split; [assumption |].
          split; [reflexivity | split; [reflexivity | split; [assumption |]]].
          left. split; [assumption | split; [assumption | lra]].
        + destruct g as [|[]| |]; try discriminate.
          split; [reflexivity |]. right. left. auto. }
    destruct (eqb_value x zero V valid_zero Nx eq_refl) as [[E Q]|[E Q]];
      rewrite E in H; rewrite B2Qx_zero in Q.
    { destruct (F64.ltb g zero); [discriminate |].
      assert (Hz : exists s, x = S754_zero s).
      { destruct x as [s|s| |s m e]; [eauto | exfalso | discriminate Nx | exfalso];
          cbn [B2Qx B2Q] in Q.
        - pose proof (F2Q_pos 1 1025 ltac:(lia)). destruct s; lra.
        - pose proof (F2Q_pos (Zpos m) e ltac:(lia)).
          pose proof (F2Q_opp (Zpos m) e).
          destruct s; cbn [cond_Zopp] in Q; lra. }
      destruct Hz as [s ->].
      assert (Ef : f = S754_zero s \/ f = zero).
      { destruct (is_odd_integer g); inversion H; [left | right];
          [apply clamp_zero_s | reflexivity]. }
      split; [destruct Ef as [-> | ->]; reflexivity |].
      right. right. left. split; [reflexivity |].
      split; [destruct Ef as [-> | ->]; reflexivity |].
      split; [destruct Ef as [-> | ->]; reflexivity |].
      split; [assumption |]. right. split; [assumption | reflexivity]. }
    destruct (eqb_value x one V valid_one Nx eq_refl) as [[E1 Q1]|[E1 Q1]];
      rewrite E1 in H; rewrite B2Qx_one in Q1.
    { inversion H; subst. split; [reflexivity |]. right. left. auto. }
    destruct (is_inf (libm_pow x g)); [discriminate |].
    inversion H; subst. split; [apply clamp_valid, Hv, V |].
    right. right. right. split; [assumption |].
    split; [reflexivity | split; [lra | split; [lra | split; assumption]]].
Qed.

(** The gamma step is monotone on the clamped luminance, for a [pow] that
    is. *)
Lemma gamma_step_mono (libm_pow : float -> float -> float) (xa xb g fa fb : float) :
  pow_monotone libm_pow g -> valid xa -> valid xb ->
  is_nan xa = true \/ (F64.leb zero xa = true /\ F64.leb xa one = true) ->
  is_nan xb = true \/ (F64.leb zero xb = true /\ F64.leb xb one = true) ->
  mle xa xb ->
  gamma_step libm_pow xa g = Ok fa -> gamma_step libm_pow xb g = Ok fb ->
  valid fa /\ valid fb /\ mle fa fb.
Proof.
  intros [Hv Hm] Va Vb Ra Rb Hle Ha Hb.
  destruct (gamma_step_class _ _ _ _ Va Hv Ra Ha) as [Vfa Ca].
  destruct (gamma_step_class _ _ _ _ Vb Hv Rb Hb) as [Vfb Cb].
  split; [assumption | split; [assumption |]].
  destruct (is_nan fa) eqn:Nfa; [now left |].
  destruct (is_nan fb) eqn:Nfb; [right; now left |].
  (* a result that is a number comes from a base that is one, unless the
     exponent is zero *)
  assert (Hab : is_nan xa = false -> is_nan xb = false ->
                (B2Qx xa <= B2Qx xb)%Q /\ (0 <= B2Qx xa)%Q /\ (B2Qx xb <= 1)%Q).
  { intros Na Nb. split; [now apply mle_values |].
    destruct Ra as [Ra|[Ra _]]; [congruence |].
    destruct Rb as [Rb|[_ Rb]]; [congruence |].
    apply leb_B2Qx in Ra; try assumption; try reflexivity.
    apply leb_B2Qx in Rb; try assumption; try reflexivity.
    rewrite B2Qx_zero in Ra. rewrite B2Qx_one in Rb. auto. }
  assert (Rg : forall x f, valid x -> valid f -> is_nan f = false ->
                 gamma_class libm_pow x g f -> (0 <= B2Qx f <= 1)%Q).
  { intros x f Vx Vf Nf [C|[[-> _]|[(_ & _ & E & _)|(_ & -> & _)]]].
    - congruence.
    - rewrite B2Qx_one. lra.
    - rewrite E. lra.
    - apply clamp_value_range; [now apply Hv |].
      now rewrite <- clamp_unit_nan. }
  pose proof (Rg xa fa Va Vfa Nfa Ca) as Ba.
  pose proof (Rg xb fb Vb Vfb Nfb Cb) as Bb.
  assert (Nn : forall x f, is_nan x = true -> is_nan f = false ->
                 gamma_class libm_pow x g f -> f = one /\ F64.eqb g zero = true
                 \/ f = one /\ is_inf g = true /\ F64.ltb zero g = false).
  { intros x f Nx Nf C. destruct x; try discriminate. cbn [B2Qx B2Q] in C.
    destruct C as [C|[[-> [C|[C|C]]]|[(C & _)|(C & _)]]];
      try congruence; try (cbv in C; discriminate C); auto. }
  destruct (is_nan xa) eqn:Na.
  { (* the result for [xa] is 1.0 by the exponent alone, so that for [xb] too *)
    apply mle_of_values; try assumption.
    destruct (Nn xa fa Na Nfa Ca) as [[-> Eg]|(-> & Ig & Lg)]; rewrite B2Qx_one.
    - destruct Cb as [C|[[-> _]|[(_ & _ & _ & C & _)|(_ & _ & _ & _ & C & _)]]];
        try congruence. rewrite B2Qx_one. lra.
    - destruct Cb as [C|[[-> _]|[(_ & _ & _ & _ & [(_ & C & _)|(C & _)])
                                |(_ & _ & _ & _ & _ & C)]]];
        try congruence. rewrite B2Qx_one. lra. }
  destruct (is_nan xb) eqn:Nb.
  { apply mle_of_values; try assumption.
    destruct (Nn xb fb Nb Nfb Cb) as [[-> Eg]|(-> & Ig & Lg)]; rewrite B2Qx_one;
      lra. }
  destruct (Hab eq_refl eq_refl) as (Hxy & H0 & H1).
  destruct Ca as [C|[[-> Ca]|[(_ & _ & Ea & Ega & Ca)
                             |(_ & -> & Pa & La & Ega & Iga)]]];
    [congruence | | |].
  - (* [fa] is 1.0 *)
    apply mle_of_values; try assumption. rewrite B2Qx_one.
    destruct Cb as [C|[[-> _]|[(_ & _ & _ & Egb & Cb)
                               |(_ & _ & Pb & Lb & Egb & Igb)]]];
      [congruence | rewrite B2Qx_one; lra | exfalso | exfalso].
    + destruct Ca as [C|[C|[C1 C2]]], Cb as [(D1 & D2 & D3)|(D1 & D2)];
        try congruence; lra.
    + destruct Ca as [C|[C|[C1 C2]]]; try congruence; lra.
  - (* [fa] is a zero *)
    apply mle_of_values; try assumption. rewrite Ea. lra.
  - (* [fa] comes from the C library *)
    destruct Cb as [C|[[-> _]|[(_ & _ & _ & Egb & Cb)
                               |(_ & -> & Pb & Lb & Egb & Igb)]]];
      [congruence | | exfalso |].
    + apply mle_of_values; try assumption. rewrite B2Qx_one. lra.
    + destruct Cb as [(D1 & _)|(_ & D2)]; [congruence | lra].
    + apply Hm; try assumption.
      * apply ltb_B2Qx; try assumption; try reflexivity.
      * now apply leb_B2Qx.
      * apply ltb_B2Qx; try assumption; try reflexivity.
        rewrite B2Qx_one. assumption.
Qed.

(** ** Monotonicity of the glyph index *)

Lemma adjust_gamma_step (libm_pow : float -> float -> float)
    (lum brightness contrast gamma : float) :
  adjust libm_pow lum brightness contrast gamma =
  gamma_step libm_pow
    (clamp (mul (add (mul (sub lum half) contrast) half) brightness) zero one)
    gamma.
Proof. reflexivity. Qed.

Lemma valid_half : valid half.
Proof. reflexivity. Qed.

Lemma valid_opp_half : valid (opp half).
Proof. reflexivity. Qed.

(** The luminance before the gamma step is monotone in the input luminance
    when contrast and brightness are finite and not negative. *)
Lemma pre_gamma_mono (la lb brightness contrast : float) :
  valid la -> valid lb -> valid brightness -> valid contrast ->
  is_finite brightness = true -> is_finite contrast = true ->
  F64.leb zero brightness = true -> F64.leb zero contrast = true ->
  mle la lb ->
  let f := fun l =>
    clamp (mul (add (mul (sub l half) contrast) half) brightness) zero one in
  valid (f la) /\ valid (f lb) /\ mle (f la) (f lb).
Proof.
  intros Va Vb Vbr Vc Fbr Fc Hbr Hc Hle f. unfold f.
  rewrite !sub_add_opp.
  assert (V1 : forall l, valid l -> valid (add l (opp half)))
    by (intros; now apply add_valid).
  assert (V2 : forall l, valid l -> valid (mul (add l (opp half)) contrast))
    by (intros; apply mul_valid; auto).
  assert (V3 : forall l, valid l ->
                 valid (add (mul (add l (opp half)) contrast) half))
    by (intros; apply (add_valid _ false); auto; reflexivity).
  assert (V4 : forall l, valid l ->
                 valid (mul (add (mul (add l (opp half)) contrast) half) brightness))
    by (intros; apply mul_valid; auto).
  split; [apply clamp_valid; auto | split; [apply clamp_valid; auto |]].
  apply clamp_mono; auto.
  apply mul_mono_r; auto.
  apply (add_mono_l _ _ false); auto; [reflexivity |].
  apply mul_mono_r; auto.
  apply (add_mono_l _ _ true); auto. reflexivity.
Qed.

Lemma clamp_unit_or_nan (x : float) :
  is_nan (clamp x zero one) = true \/
  (F64.leb zero (clamp x zero one) = true /\ F64.leb (clamp x zero one) one = true).
Proof.
  destruct (is_nan x) eqn:N.
  - left. now rewrite clamp_unit_nan.
  - right. now apply clamp_unit_range.
Qed.

(** The float of a ramp length minus one. *)
Lemma ramp_factor (n : Z) (k : float) :
  0 <= n -> py_float_of_int n = Ok k ->
  valid k /\ is_finite k = true /\ F64.leb zero k = true.
Proof.
  intros Hn H. unfold py_float_of_int in H.
  destruct (is_inf (of_Z n)) eqn:I; [discriminate |]. inversion H; subst. clear H.
  unfold of_Z in *.
  destruct (normalize_value n 0) as (V & N & E).
  split; [assumption | split].
  - destruct (binary_normalize prec emax n 0 false); try discriminate; reflexivity.
  - apply leb_B2Qx; try assumption; try reflexivity.
    rewrite B2Qx_zero, E.
    replace (n <? 0) with false by (symmetry; apply Z.ltb_ge; lia).
    apply clip_nonneg, aligned_rval_nonneg. lia.
Qed.

(** The quantizer is monotone in the final luminance. *)
Lemma glyph_index_mono (fa fb : float) (N ia ib : Z) :
  valid fa -> valid fb -> 1 <= N -> mle fa fb ->
  glyph_index fa N = Ok ia -> glyph_index fb N = Ok ib -> ia <= ib.
Proof.
  intros Va Vb HN Hle Ha Hb. unfold glyph_index in *.
  destruct (py_float_of_int (N - 1)) as [k|e] eqn:Hk; [| discriminate].
  cbn [bind] in *.
  destruct (ramp_factor (N - 1) k ltac:(lia) Hk) as (Vk & Fk & Pk).
  pose proof (mul_mono_r fa fb k Va Vb Vk Fk Pk Hle) as M.
  pose proof (mul_valid fa k Va Vk) as V1. pose proof (mul_valid fb k Vb Vk) as V2.
  assert (F1 : is_finite (mul fa k) = true /\ ia = trunc (mul fa k)).
  { destruct (mul fa k); try discriminate; inversion Ha; auto. }
  assert (F2 : is_finite (mul fb k) = true /\ ib = trunc (mul fb k)).
  { destruct (mul fb k); try discriminate; inversion Hb; auto. }
  destruct F1 as [F1 ->], F2 as [F2 ->].
  apply trunc_mono; try assumption.
  destruct M as [M|[M|M]].
  - destruct (mul fa k); discriminate.
  - destruct (mul fb k); discriminate.
  - now apply leb_B2Q in M.
Qed.


Lemma sample_pow_monotone (g : float) : pow_monotone sample_pow g.
Proof.
  split; [intros x V; exact V |].
  intros x y Vx Vy _ Hle _. apply clamp_mono; try assumption.
  right. right. assumption.
Qed.



(** * Further properties

    What the source shows beyond the claims of the specification. *)

Lemma Ok_inj {A : Type} (a b : A) : Ok a = Ok b -> a = b.
Proof. congruence. Qed.

(** ** More of the float operations *)

Lemma mul_comm (x y : float) : mul x y = mul y x.
Proof.
  destruct x as [sx|sx| |sx mx ex], y as [sy|sy| |sy my ey];
    cbn [mul SFmul]; try reflexivity; try (now rewrite xorb_comm).
  now rewrite xorb_comm, Pos.mul_comm, Z.add_comm.
Qed.

Lemma add_comm (x y : float) : add x y = add y x.
Proof.
  destruct x as [sx|sx| |sx mx ex], y as [sy|sy| |sy my ey];
    cbn [add SFadd]; try reflexivity; try (destruct sx, sy; reflexivity).
  now rewrite Z.min_comm, Z.add_comm.
Qed.

Lemma valid_opp (x : float) : valid x -> valid (opp x).
Proof. destruct x; exact (fun H => H). Qed.

Lemma is_nan_opp (x : float) : is_nan (opp x) = is_nan x.
Proof. destruct x; reflexivity. Qed.

Lemma is_finite_opp (x : float) : is_finite (opp x) = is_finite x.
Proof. destruct x; reflexivity. Qed.

Lemma opp_involutive (x : float) : opp (opp x) = x.
Proof. destruct x; cbn; now rewrite ?negb_involutive. Qed.

Lemma B2Qx_opp (x : float) : (B2Qx (opp x) == - B2Qx x)%Q.
Proof.
  destruct x as [s|s| |s m e]; cbn [opp SFopp B2Qx B2Q]; try reflexivity.
  - destruct s; cbn [negb]; ring.
  - destruct s; cbn [negb cond_Zopp Z.opp].
    + change (Zneg m) with (- Zpos m). rewrite F2Q_opp. ring.
    + change (Zneg m) with (- Zpos m). apply F2Q_opp.
Qed.

Lemma opp_pack (s : bool) (me : Z * Z) : opp (pack s me) = pack (negb s) me.
Proof.
  unfold pack. destruct (fst me); try reflexivity.
  destruct (snd me <=? 971); reflexivity.
Qed.

Lemma mul_opp_l (x y : float) : mul (opp x) y = opp (mul x y).
Proof.
  destruct x as [sx|sx| |sx mx ex], y as [sy|sy| |sy my ey];
    cbn [opp SFopp]; try reflexivity;
    try (cbn [mul SFmul opp SFopp]; now rewrite negb_xorb_l).
  rewrite !mul_finite. fold (opp (pack (xorb sx sy)
    (round_exact (Z.pos mx * Z.pos my) (ex + ey)))).
  now rewrite opp_pack, negb_xorb_l.
Qed.

Lemma mul_opp_r (x y : float) : mul x (opp y) = opp (mul x y).
Proof. now rewrite mul_comm, mul_opp_l, mul_comm. Qed.

Lemma mul_opp_opp (x y : float) : mul (opp x) (opp y) = mul x y.
Proof. now rewrite mul_opp_l, mul_opp_r, opp_involutive. Qed.

(** A number between two finite values is finite. *)
Lemma finite_between (lo x hi : float) :
  valid lo -> valid hi -> is_finite lo = true -> is_finite hi = true ->
  is_nan x = false ->
  (B2Qx lo <= B2Qx x)%Q -> (B2Qx x <= B2Qx hi)%Q -> is_finite x = true.
Proof.
  intros Vlo Vhi Flo Fhi Nx Hlo Hhi.
  rewrite (B2Qx_finite lo Flo) in Hlo. rewrite (B2Qx_finite hi Fhi) in Hhi.
  pose proof (B2Q_below lo Vlo) as [L1 _]. pose proof (B2Q_below hi Vhi) as [_ L2].
  assert (P : (F2Q 1 1024 < F2Q 1 1025)%Q) by (apply F2Q_lt_at with (c := 0); lia).
  destruct x as [s|s| |s m e]; try reflexivity; try discriminate.
  cbn [B2Qx] in Hlo, Hhi. destruct s; lra.
Qed.

(** The sum of two finite numbers: never NaN, and the rounding of the exact
    sum. *)
Lemma add_value (x y : float) :
  valid x -> valid y -> is_finite x = true -> is_finite y = true ->
  valid (add x y) /\ is_nan (add x y) = false /\
  exists M e,
    (B2Qx (add x y) == B2Qx (binary_normalize prec emax M e false))%Q /\
    (F2Q M e == B2Q x + B2Q y)%Q.
Proof.
  intros Vx Vy Fx Fy.
  destruct y as [sy| | |sy my ey]; try discriminate.
  - destruct x as [sx| | |sx mx ex]; try discriminate.
    + split; [destruct sx, sy; reflexivity |].
      split; [destruct sx, sy; reflexivity |].
      exists 0, 0. split; [destruct sx, sy; reflexivity | reflexivity].
    + cbn [add SFadd]. split; [assumption | split; [reflexivity |]].
      exists (cond_Zopp sx (Zpos mx)), ex. split.
      * rewrite normalize_id by assumption. reflexivity.
      * cbn [B2Q]. ring.
  - destruct (add_normalize x sy my ey Vx Vy Fx) as (M & e & E & V).
    rewrite E. destruct (normalize_value M e) as (V1 & N1 & _).
    split; [assumption | split; [assumption |]].
    exists M, e. split; [reflexivity | assumption].
Qed.

Lemma add_mono_finite (x x' y y' : float) :
  valid x -> valid x' -> valid y -> valid y' ->
  is_finite x = true -> is_finite x' = true ->
  is_finite y = true -> is_finite y' = true ->
  (B2Q x <= B2Q x')%Q -> (B2Q y <= B2Q y')%Q ->
  (B2Qx (add x y) <= B2Qx (add x' y'))%Q.
Proof.
  intros Vx Vx' Vy Vy' Fx Fx' Fy Fy' Hx Hy.
  destruct (add_value x y Vx Vy Fx Fy) as (_ & _ & M & e & E & V).
  destruct (add_value x' y' Vx' Vy' Fx' Fy') as (_ & _ & M' & e' & E' & V').
  rewrite E, E'. apply normalize_mono. rewrite V, V'. lra.
Qed.

Lemma mul_mono_finite_l (c x y : float) :
  valid x -> valid y -> valid c ->
  is_finite x = true -> is_finite y = true -> is_finite c = true ->
  F64.leb zero c = true -> (B2Q x <= B2Q y)%Q ->
  (B2Qx (mul c x) <= B2Qx (mul c y))%Q.
Proof.
  intros Vx Vy Vc Fx Fy Fc Hc H. rewrite (mul_comm c x), (mul_comm c y).
  apply mul_mono_finite; try assumption. now apply leb_B2Q.
Qed.

(** ** The clamp on its own *)

Lemma SFcompare_refl (x : float) : is_nan x = false -> SFcompare x x = Some Eq.
Proof.
  destruct x as [s|s| |s m e]; cbn; try discriminate; intros _.
  - reflexivity.
  - destruct s; reflexivity.
  - rewrite Z.compare_refl, Pos.compare_cont_refl. destruct s; reflexivity.
Qed.

Lemma leb_refl (x : float) : is_nan x = false -> leb x x = true.
Proof. intros H. unfold leb, SFleb. now rewrite SFcompare_refl. Qed.

Lemma ltb_irrefl (x : float) : ltb x x = false.
Proof.
  unfold ltb, SFltb. destruct (is_nan x) eqn:N.
  - destruct x; try discriminate. reflexivity.
  - now rewrite SFcompare_refl.
Qed.

Lemma ltb_nan_l (x y : float) : is_nan x = true -> ltb x y = false.
Proof. destruct x; try discriminate. reflexivity. Qed.

Lemma ltb_nan_r (x y : float) : is_nan y = true -> ltb x y = false.
Proof. destruct y; try discriminate. destruct x; reflexivity. Qed.

Lemma ltb_leb (x y : float) : ltb x y = true -> leb x y = true.
Proof.
  unfold ltb, leb, SFltb, SFleb. destruct (SFcompare x y) as [[| |]|]; congruence.
Qed.

(** X1: [clamp] with bounds [lo <= hi]: a number is mapped into [[lo, hi]]
    and a number already there is returned unchanged; a NaN is not clamped,
    it comes back as it is. *)
Theorem clamp_between (n lo hi : float) :
  leb lo hi = true ->
  (is_nan n = false ->
   leb lo (clamp n lo hi) = true /\ leb (clamp n lo hi) hi = true) /\
  (is_nan n = true -> clamp n lo hi = n) /\
  (leb lo n = true -> leb n hi = true -> clamp n lo hi = n).
Proof.
  intros Hlh. destruct (leb_not_nan _ _ Hlh) as [Nlo Nhi].
  split; [| split].
  - intros Nn.
    destruct (clamp_cases n lo hi) as [[H ->]|[(H1 & H2 & ->)|(H1 & H2 & ->)]].
    + split; [now apply leb_refl | exact Hlh].
    + split; [exact Hlh | now apply leb_refl].
    + split; now apply ltb_false_leb.
  - intros Nn. unfold clamp. now rewrite ltb_nan_l, ltb_nan_r.
  - intros H1 H2. unfold clamp.
    now rewrite (leb_true_ltb_false _ _ H1), (leb_true_ltb_false _ _ H2).
Qed.

Lemma clamp_between_witness :
  (is_nan (of_Z 3) = false ->
   leb (of_Z (-1)) (clamp (of_Z 3) (of_Z (-1)) (of_Z 2)) = true /\
   leb (clamp (of_Z 3) (of_Z (-1)) (of_Z 2)) (of_Z 2) = true) /\
  (is_nan (of_Z 3) = true -> clamp (of_Z 3) (of_Z (-1)) (of_Z 2) = of_Z 3) /\
  (leb (of_Z (-1)) (of_Z 3) = true -> leb (of_Z 3) (of_Z 2) = true ->
   clamp (of_Z 3) (of_Z (-1)) (of_Z 2) = of_Z 3).
Proof. apply (clamp_between (of_Z 3) (of_Z (-1)) (of_Z 2)). reflexivity. Defined.

(** X2: with bounds [lo <= hi], clamping twice is clamping once.  (With
    [lo > hi] it is not: [clamp 2 1 0] is 0, and [clamp 0 1 0] is 1.) *)
Theorem clamp_idempotent (n lo hi : float) :
  leb lo hi = true ->
  clamp (clamp n lo hi) lo hi = clamp n lo hi /\
  clamp (of_Z 2) one zero = zero /\ clamp zero one zero = one.
Proof.
  intros Hlh. split; [| split; reflexivity].
  pose proof (leb_true_ltb_false _ _ Hlh) as Hhl.
  destruct (clamp_cases n lo hi) as [[H E]|[(H1 & H2 & E)|(H1 & H2 & E)]];
    rewrite E; unfold clamp.
  - now rewrite ltb_irrefl, Hhl.
  - now rewrite Hhl, ltb_irrefl.
  - now rewrite H1, H2.
Qed.

Lemma clamp_idempotent_witness :
  clamp (clamp (of_Z 3) (of_Z (-1)) (of_Z 2)) (of_Z (-1)) (of_Z 2)
  = clamp (of_Z 3) (of_Z (-1)) (of_Z 2) /\
  clamp (of_Z 2) one zero = zero /\ clamp zero one zero = one.
Proof. apply (clamp_idempotent (of_Z 3) (of_Z (-1)) (of_Z 2)). reflexivity. Defined.


(** ** The escape sequence of a colour *)

Lemma each_char_app (P : ascii -> Prop) (s t : string) :
  each_char P s -> each_char P t -> each_char P (s ++ t).
Proof. induction s as [|a s IH]; cbn; [tauto | intros [H1 H2] Ht; auto]. Qed.

Lemma lacks_app (c : ascii) (s t : string) :
  lacks c s -> lacks c t -> lacks c (s ++ t).
Proof. apply each_char_app. Qed.

Lemma numeric_neq (c d : ascii) : numeric c = false -> numeric d = true -> d <> c.
Proof. intros Hc Hd ->. congruence. Qed.

Lemma lacks_uint (c : ascii) (d : Decimal.uint) :
  numeric c = false -> lacks c (NilEmpty.string_of_uint d).
Proof.
  intros Hc. induction d; cbn [NilEmpty.string_of_uint lacks each_char]; unfold lacks; cbn [each_char]; try exact I;
    (split; [apply (numeric_neq c _ Hc); reflexivity | assumption]).
Qed.

Lemma lacks_int (c : ascii) (n : Z) :
  numeric c = false -> lacks c (py_str_of_int n).
Proof.
  intros Hc. unfold py_str_of_int.
  assert (U : forall d, lacks c (NilZero.string_of_uint d)).
  { intros d. destruct d; try apply (lacks_uint c _ Hc).
    cbn. split; [apply (numeric_neq c _ Hc); reflexivity | exact I]. }
  destruct (Z.to_int n) as [d|d]; cbn [NilZero.string_of_int].
  - apply U.
  - cbn [lacks]. split; [apply (numeric_neq c _ Hc); reflexivity | apply U].
Qed.

Lemma py_str_of_int_inj (a b : Z) : py_str_of_int a = py_str_of_int b -> a = b.
Proof.
  unfold py_str_of_int. intros H.
  assert (N : forall n, Z.to_int n <> Decimal.Pos Decimal.Nil /\
                        Z.to_int n <> Decimal.Neg Decimal.Nil).
  { intros [|p|p]; cbn; split; try discriminate;
      intros [= E]; now apply Unsigned.to_uint_nonnil in E. }
  apply to_int_inj.
  pose proof (NilZero.isi (Z.to_int a) (proj1 (N a)) (proj2 (N a))) as Ha.
  pose proof (NilZero.isi (Z.to_int b) (proj1 (N b)) (proj2 (N b))) as Hb.
  rewrite H in Ha. congruence.
Qed.

(** Two texts that agree up to and after the first [c] of each. *)
Lemma split_at (c : ascii) (s1 s2 t1 t2 : string) :
  lacks c s1 -> lacks c s2 ->
  s1 ++ String c t1 = s2 ++ String c t2 -> s1 = s2 /\ t1 = t2.
Proof.
  revert s2. induction s1 as [|a s1 IH]; intros [|b s2]; cbn.
  - intros _ _ [= ->]. auto.
  - intros _ [Hb _] [= E _]. congruence.
  - intros [Ha _] _ [= E _]. congruence.
  - intros [_ H1] [_ H2] [= -> E]. destruct (IH _ H1 H2 E) as [-> ->]. auto.
Qed.

(** X4: the escape sequence of [ansi_fg] determines the colour: two triples
    of channel values have the same sequence only if they are equal. *)
Theorem ansi_fg_injective (r g b r' g' b' : Z) :
  ansi_fg r g b = ansi_fg r' g' b' <-> (r, g, b) = (r', g', b').
Proof.
  split; [| now intros [= -> -> ->]].
  unfold ansi_fg. cbn [append]. intros [= H].
  apply split_at in H; try (apply lacks_int; reflexivity).
  destruct H as [Hr H]. cbn [append] in H.
  apply split_at in H; try (apply lacks_int; reflexivity).
  destruct H as [Hg H].
  change "m" with ("" ++ String "m" "") in H.
  rewrite <- !append_assoc in H. rewrite !append_empty_r in H.
  apply split_at in H; try (apply lacks_int; reflexivity).
  destruct H as [Hb _].
  apply py_str_of_int_inj in Hr, Hg, Hb. now subst.
Qed.


(** ** The luminance of an 8-bit pixel *)

Lemma good_of_int (n : Z) :
  0 <= n <= 2 ^ 53 ->
  py_float_of_int n = Ok (of_Z n) /\ good (of_Z n) /\
  (B2Q (of_Z n) == inject_Z n)%Q.
Proof.
  intros Hn. destruct (Z.eq_dec n 0) as [->|Hz].
  - repeat split; reflexivity.
  - destruct (of_Z_exact n ltac:(lia)) as (m & e & E & C & He & V).
    unfold py_float_of_int. rewrite E. cbn [is_inf B2Q cond_Zopp].
    repeat split; try assumption.
    apply valid_finite. split; [assumption | lia].
Qed.

Lemma mul_good (c x t : float) :
  good c -> F64.leb zero c = true -> good x -> good t ->
  (0 <= B2Q x)%Q -> (B2Q x <= B2Q t)%Q -> is_finite (mul c t) = true ->
  good (mul c x) /\ (0 <= B2Q (mul c x))%Q /\ (B2Q (mul c x) <= B2Q (mul c t))%Q.
Proof.
  intros [Vc Fc] Hc [Vx Fx] [Vt Ft] H0 Ht Fm.
  destruct (mul_value c x Vc Vx Fc Fx) as (V & N & _).
  assert (L : (B2Qx (mul c zero) <= B2Qx (mul c x))%Q)
    by (apply mul_mono_finite_l; try assumption; reflexivity).
  assert (U : (B2Qx (mul c x) <= B2Qx (mul c t))%Q)
    by (apply mul_mono_finite_l; assumption).
  assert (Z0 : (B2Qx (mul c zero) == 0)%Q)
    by (destruct c; try discriminate; reflexivity).
  assert (F : is_finite (mul c x) = true).
  { apply (finite_between zero (mul c x) (mul c t)); try assumption;
      try reflexivity; [now apply mul_valid | ].
    rewrite B2Qx_zero. lra. }
  rewrite (B2Qx_finite _ F) in L, U. rewrite (B2Qx_finite _ Fm) in U.
  repeat split; try assumption; lra.
Qed.

Lemma add_good (x y tx ty : float) :
  good x -> good y -> good tx -> good ty ->
  (0 <= B2Q x)%Q -> (B2Q x <= B2Q tx)%Q ->
  (0 <= B2Q y)%Q -> (B2Q y <= B2Q ty)%Q ->
  is_finite (add tx ty) = true ->
  good (add x y) /\ (0 <= B2Q (add x y))%Q /\
  (B2Q (add x y) <= B2Q (add tx ty))%Q.
Proof.
  intros [Vx Fx] [Vy Fy] [Vtx Ftx] [Vty Fty] Hx0 Hx Hy0 Hy Fa.
  destruct (add_value x y Vx Vy Fx Fy) as (V & N & _).
  assert (L : (B2Qx (add zero zero) <= B2Qx (add x y))%Q)
    by (apply add_mono_finite; try assumption; reflexivity).
  assert (U : (B2Qx (add x y) <= B2Qx (add tx ty))%Q)
    by (apply add_mono_finite; assumption).
  change (B2Qx (add zero zero)) with 0%Q in L.
  destruct (add_value tx ty Vtx Vty Ftx Fty) as (Vt & _ & _).
  assert (F : is_finite (add x y) = true).
  { apply (finite_between zero (add x y) (add tx ty)); try assumption;
      try reflexivity. }
  rewrite (B2Qx_finite _ F) in L, U. rewrite (B2Qx_finite _ Fa) in U.
  repeat split; try assumption; lra.
Qed.

Lemma good_leb (x y : float) :
  good x -> good y -> (B2Q x <= B2Q y)%Q -> F64.leb x y = true.
Proof. intros [Vx Fx] [Vy Fy] H. now apply leb_B2Q. Qed.

Lemma mul_good_mono (c x y t : float) :
  good c -> F64.leb zero c = true -> good x -> good y -> good t ->
  (0 <= B2Q x)%Q -> (B2Q x <= B2Q y)%Q -> (B2Q y <= B2Q t)%Q ->
  is_finite (mul c t) = true ->
  good (mul c x) /\ good (mul c y) /\ (0 <= B2Q (mul c x))%Q /\
  (B2Q (mul c x) <= B2Q (mul c y))%Q /\ (B2Q (mul c y) <= B2Q (mul c t))%Q.
Proof.
  intros Gc Hc Gx Gy Gt H0 Hxy Hyt Fm.
  destruct (mul_good c x t Gc Hc Gx Gt H0 ltac:(lra) Fm) as (Gmx & Lx & _).
  destruct (mul_good c y t Gc Hc Gy Gt ltac:(lra) Hyt Fm) as (Gmy & _ & Uy).
  repeat split; try apply Gmx; try apply Gmy; try assumption.
  destruct Gc, Gx, Gy, Gmx as [? Fx], Gmy as [? Fy].
  rewrite <- (B2Qx_finite _ Fx), <- (B2Qx_finite _ Fy).
  now apply mul_mono_finite_l.
Qed.

Lemma add_good_mono (x y x' y' tx ty : float) :
  good x -> good y -> good x' -> good y' -> good tx -> good ty ->
  (0 <= B2Q x)%Q -> (B2Q x <= B2Q x')%Q -> (B2Q x' <= B2Q tx)%Q ->
  (0 <= B2Q y)%Q -> (B2Q y <= B2Q y')%Q -> (B2Q y' <= B2Q ty)%Q ->
  is_finite (add tx ty) = true ->
  good (add x y) /\ good (add x' y') /\ (0 <= B2Q (add x y))%Q /\
  (B2Q (add x y) <= B2Q (add x' y'))%Q /\
  (B2Q (add x' y') <= B2Q (add tx ty))%Q.
Proof.
  intros Gx Gy Gx' Gy' Gtx Gty X0 X1 X2 Y0 Y1 Y2 Fa.
  destruct (add_good x y tx ty Gx Gy Gtx Gty X0 ltac:(lra) Y0 ltac:(lra) Fa)
    as (G1 & L1 & _).
  destruct (add_good x' y' tx ty Gx' Gy' Gtx Gty ltac:(lra) X2 ltac:(lra) Y2 Fa)
    as (G2 & _ & U2).
  repeat split; try apply G1; try apply G2; try assumption.
  destruct Gx, Gy, Gx', Gy', G1 as [? F1], G2 as [? F2].
  rewrite <- (B2Qx_finite _ F1), <- (B2Qx_finite _ F2).
  now apply add_mono_finite.
Qed.

Lemma luma_unit_mono (fr fg fb fr' fg' fb' : float) :
  good fr -> good fg -> good fb -> good fr' -> good fg' -> good fb' ->
  (0 <= B2Q fr)%Q -> (B2Q fr <= B2Q fr')%Q -> (B2Q fr' <= 255)%Q ->
  (0 <= B2Q fg)%Q -> (B2Q fg <= B2Q fg')%Q -> (B2Q fg' <= 255)%Q ->
  (0 <= B2Q fb)%Q -> (B2Q fb <= B2Q fb')%Q -> (B2Q fb' <= 255)%Q ->
  good (luma_unit fr fg fb) /\ good (luma_unit fr' fg' fb') /\
  (0 <= B2Q (luma_unit fr fg fb))%Q /\
  (B2Q (luma_unit fr fg fb) <= B2Q (luma_unit fr' fg' fb'))%Q /\
  (B2Q (luma_unit fr' fg' fb') <= B2Q pred_one)%Q.
Proof.
  intros Gr Gg Gb Gr' Gg' Gb' R0 R1 R2 G0 G1 G2 B0 B1 B2.
  assert (GT : good (of_Z 255)) by (split; reflexivity).
  assert (VT : (B2Q (of_Z 255) == 255)%Q) by reflexivity.
  assert (Gc : forall c, valid c -> is_finite c = true -> good c)
    by (intros; split; assumption).
  destruct (mul_good_mono c_0_2126 fr fr' (of_Z 255)) as (P1 & P1' & A1 & A2 & A3);
    try assumption; try (apply Gc; reflexivity); try reflexivity; try lra.
  destruct (mul_good_mono c_0_7152 fg fg' (of_Z 255)) as (P2 & P2' & C1 & C2 & C3);
    try assumption; try (apply Gc; reflexivity); try reflexivity; try lra.
  destruct (mul_good_mono c_0_0722 fb fb' (of_Z 255)) as (P3 & P3' & D1 & D2 & D3);
    try assumption; try (apply Gc; reflexivity); try reflexivity; try lra.
  destruct (add_good_mono _ _ _ _ (mul c_0_2126 (of_Z 255)) (mul c_0_7152 (of_Z 255))
              P1 P2 P1' P2') as (S1 & S1' & E1 & E2 & E3);
    try assumption; try (apply Gc; reflexivity); try reflexivity.
  destruct (add_good_mono _ _ _ _
              (add (mul c_0_2126 (of_Z 255)) (mul c_0_7152 (of_Z 255)))
              (mul c_0_0722 (of_Z 255)) S1 P3 S1' P3') as (S2 & S2' & F1 & F2 & F3);
    try assumption; try (apply Gc; reflexivity); try reflexivity.
  unfold luma_unit.
  set (u := add (add (mul c_0_2126 fr) (mul c_0_7152 fg)) (mul c_0_0722 fb)) in *.
  set (u' := add (add (mul c_0_2126 fr') (mul c_0_7152 fg')) (mul c_0_0722 fb')) in *.
  rewrite (mul_comm u inv_255), (mul_comm u' inv_255).
  destruct (mul_good_mono inv_255 u u'
              (add (add (mul c_0_2126 (of_Z 255)) (mul c_0_7152 (of_Z 255)))
                 (mul c_0_0722 (of_Z 255)))) as (M & M' & H1 & H2 & H3);
    try assumption; try (apply Gc; reflexivity); try reflexivity.
  repeat split; try apply M; try apply M'; try assumption.
Qed.

Lemma luminance_unit (r g b : Z) :
  0 <= r <= 2 ^ 53 -> 0 <= g <= 2 ^ 53 -> 0 <= b <= 2 ^ 53 ->
  luminance r g b = Ok (luma_unit (of_Z r) (of_Z g) (of_Z b)).
Proof.
  intros Hr Hg Hb.
  destruct (good_of_int r Hr) as (Er & _), (good_of_int g Hg) as (Eg & _),
    (good_of_int b Hb) as (Eb & _).
  unfold luminance, rgb_to_luma. rewrite Er, Eg, Eb. reflexivity.
Qed.

Lemma channel_float (v v' : Z) :
  0 <= v <= v' -> v' <= 255 ->
  good (of_Z v) /\ good (of_Z v') /\ (0 <= B2Q (of_Z v))%Q /\
  (B2Q (of_Z v) <= B2Q (of_Z v'))%Q /\ (B2Q (of_Z v') <= 255)%Q.
Proof.
  intros H H'.
  destruct (good_of_int v ltac:(lia)) as (_ & G & E).
  destruct (good_of_int v' ltac:(lia)) as (_ & G' & E').
  rewrite E, E'. repeat split; try apply G; try apply G'.
  - change 0%Q with (inject_Z 0). rewrite <- Zle_Qle. lia.
  - rewrite <- Zle_Qle. lia.
  - change 255%Q with (inject_Z 255). rewrite <- Zle_Qle. lia.
Qed.

Lemma luminance_bounds (r g b r' g' b' : Z) :
  0 <= r <= r' -> 0 <= g <= g' -> 0 <= b <= b' ->
  r' <= 255 -> g' <= 255 -> b' <= 255 ->
  exists l l',
    luminance r g b = Ok l /\ luminance r' g' b' = Ok l' /\
    good l /\ good l' /\
    (0 <= B2Q l)%Q /\ (B2Q l <= B2Q l')%Q /\ (B2Q l' <= B2Q pred_one)%Q.
Proof.
  intros Hr Hg Hb Hr' Hg' Hb'.
  exists (luma_unit (of_Z r) (of_Z g) (of_Z b)),
         (luma_unit (of_Z r') (of_Z g') (of_Z b')).
  split; [apply luminance_unit; lia |]. split; [apply luminance_unit; lia |].
  destruct (channel_float r r' Hr Hr') as (? & ? & ? & ? & ?).
  destruct (channel_float g g' Hg Hg') as (? & ? & ? & ? & ?).
  destruct (channel_float b b' Hb Hb') as (? & ? & ? & ? & ?).
  now apply luma_unit_mono.
Qed.

(** X3: for 8-bit channels the normalised luminance of line 58 is computed
    without error, is at least 0.0 and at most [pred_one], the
    0.9999999999999999 of pure white, hence below 1.0; and raising a channel
    never lowers it. *)
Theorem luminance_monotone (r g b r' g' b' : Z) :
  0 <= r <= r' -> 0 <= g <= g' -> 0 <= b <= b' ->
  r' <= 255 -> g' <= 255 -> b' <= 255 ->
  exists l l',
    luminance r g b = Ok l /\ luminance r' g' b' = Ok l' /\
    leb zero l = true /\ leb l l' = true /\
    leb l' pred_one = true /\ ltb l' one = true /\
    luminance 255 255 255 = Ok pred_one.
Proof.
  intros Hr Hg Hb Hr' Hg' Hb'.
  destruct (luminance_bounds r g b r' g' b' Hr Hg Hb Hr' Hg' Hb')
    as (l & l' & E & E' & G & G' & H0 & H1 & H2).
  exists l, l'. split; [assumption | split; [assumption |]].
  assert (Gw : good pred_one) by (split; reflexivity).
  assert (Gz : good zero) by (split; reflexivity).
  split; [apply good_leb; assumption |].
  split; [apply good_leb; assumption |].
  split; [apply good_leb; assumption |].
  split; [| reflexivity].
  destruct G'. apply ltb_B2Q; try assumption; try reflexivity.
  assert ((B2Q pred_one < B2Q one)%Q) by reflexivity.
  lra.
Qed.

Lemma luminance_monotone_witness :
  exists l l',
    luminance 10 200 30 = Ok l /\ luminance 40 200 60 = Ok l' /\
    leb zero l = true /\ leb l l' = true /\
    leb l' pred_one = true /\ ltb l' one = true /\
    luminance 255 255 255 = Ok pred_one.
Proof. apply (luminance_monotone 10 200 30 40 200 60); lia. Defined.


(** ** Rendering without failure *)

Lemma good_le_max (x : float) : good x -> (B2Q x <= B2Q max_float)%Q.
Proof.
  intros [V F]. destruct x as [s| | |s m e]; try (cbn in F; congruence).
  - cbn [B2Q]. unfold max_float. cbn [B2Q cond_Zopp]. apply F2Q_nonneg. lia.
  - apply valid_finite in V. destruct V as [C He].
    pose proof (canonical_digits _ _ C) as [D _].
    pose proof (Zdigits2_bounds (Zpos m) ltac:(lia)) as [_ U].
    assert (Hm : Zpos m < 2 ^ 53).
    { eapply Z.lt_le_trans; [exact U |]. apply Z.pow_le_mono_r; lia. }
    assert (P : (F2Q (Zpos m) e <= B2Q max_float)%Q).
    { unfold max_float. cbn [B2Q cond_Zopp].
      apply (F2Q_le_at e); try lia.
      rewrite Z.sub_diag, Z.pow_0_r, Z.mul_1_r.
      assert (1 <= 2 ^ (971 - e)) by (apply (Z.pow_le_mono_r 2 0); lia).
      rewrite pow2_53 in Hm. nia. }
    destruct s; cbn [B2Q cond_Zopp]; [| exact P].
    change (Z.neg m) with (- Zpos m). rewrite F2Q_opp.
    pose proof (F2Q_pos (Zpos m) e ltac:(lia)). lra.
Qed.

Lemma B2Q_opp (x : float) : (B2Q (opp x) == - B2Q x)%Q.
Proof.
  destruct x as [s|s| |s m e]; cbn [opp SFopp B2Q]; try reflexivity.
  destruct s; cbn [negb cond_Zopp Z.opp].
  - change (Zneg m) with (- Zpos m). rewrite F2Q_opp. ring.
  - change (Zneg m) with (- Zpos m). apply F2Q_opp.
Qed.

Lemma good_opp (x : float) : good x -> good (opp x).
Proof. intros [V F]. split; [now apply valid_opp | now rewrite is_finite_opp]. Qed.

(** A product with a factor of magnitude at most one half does not
    overflow. *)
Lemma mul_half_good (s c : float) :
  good s -> good c -> (- (1 # 2) <= B2Q s)%Q -> (B2Q s <= 1 # 2)%Q ->
  good (mul s c) /\
  (- B2Q (mul half max_float) <= B2Q (mul s c))%Q /\
  (B2Q (mul s c) <= B2Q (mul half max_float))%Q.
Proof.
  assert (Gh : good half) by (split; reflexivity).
  assert (Gm : good max_float) by (split; reflexivity).
  assert (Hh : (B2Q half == 1 # 2)%Q) by reflexivity.
  assert (Pos : forall s c, good s -> good c -> F64.leb zero c = true ->
            (- (1 # 2) <= B2Q s)%Q -> (B2Q s <= 1 # 2)%Q ->
            good (mul s c) /\
            (- B2Q (mul half max_float) <= B2Q (mul s c))%Q /\
            (B2Q (mul s c) <= B2Q (mul half max_float))%Q).
  { clear. intros s c [Vs Fs] [Vc Fc] Hc L U.
    assert (Gh : good half) by (split; reflexivity).
    assert (Gm : good max_float) by (split; reflexivity).
    assert (Hh : (B2Q half == 1 # 2)%Q) by reflexivity.
    destruct Gh as [Vh Fh], Gm as [Vm Fm].
    destruct (mul_value s c Vs Vc Fs Fc) as (V & N & _).
    assert (U1 : (B2Qx (mul s c) <= B2Qx (mul half c))%Q).
    { apply mul_mono_finite; try assumption. apply leb_B2Q; try assumption. lra. }
    assert (U2 : (B2Qx (mul half c) <= B2Qx (mul half max_float))%Q).
    { apply mul_mono_finite_l; try assumption; try reflexivity.
      apply good_le_max. now split. }
    assert (L1 : (B2Qx (mul (opp half) c) <= B2Qx (mul s c))%Q).
    { apply mul_mono_finite; try assumption; try reflexivity.
      apply leb_B2Q; try assumption; try reflexivity.
      rewrite B2Q_opp. lra. }
    rewrite mul_opp_l, B2Qx_opp in L1.
    assert (Fhm : is_finite (mul half max_float) = true) by reflexivity.
    assert (Vhm : valid (mul half max_float)) by reflexivity.
    assert (F : is_finite (mul s c) = true).
    { apply (finite_between (opp (mul half max_float)) (mul s c)
               (mul half max_float)); try assumption; try reflexivity.
      - rewrite B2Qx_opp. lra.
      - lra. }
    rewrite (B2Qx_finite _ F) in *. rewrite (B2Qx_finite _ Fhm) in *.
    split; [now split | split; lra]. }
  intros Gs Gc L U.
  destruct (F64.leb zero c) eqn:Hc; [now apply Pos |].
  rewrite <- (mul_opp_opp s c). apply Pos.
  - now apply good_opp.
  - now apply good_opp.
  - destruct Gc as [Vc Fc].
    destruct c as [sc| | |sc mc ec]; try discriminate; destruct sc;
      try discriminate; reflexivity.
  - rewrite B2Q_opp. lra.
  - rewrite B2Q_opp. lra.
Qed.

(** Lines 63-64 on a luminance of the unit interval, with finite contrast and
    brightness: a number, whatever their signs and magnitudes. *)
Lemma contrast_finite (lum contrast : float) :
  good lum -> (0 <= B2Q lum)%Q -> (B2Q lum <= 1)%Q -> good contrast ->
  good (add (mul (sub lum half) contrast) half).
Proof.
  intros Gl L0 L1 Gc.
  assert (Gh : good half) by (split; reflexivity).
  assert (Goh : good (opp half)) by (split; reflexivity).
  assert (Gz : good zero) by (split; reflexivity).
  assert (G1 : good one) by (split; reflexivity).
  (* the subtraction *)
  assert (Gs : good (sub lum half) /\ (- (1 # 2) <= B2Q (sub lum half))%Q /\
               (B2Q (sub lum half) <= 1 # 2)%Q).
  { rewrite sub_add_opp.
    destruct Gl as [Vl Fl], Goh as [Vo Fo], Gz as [Vz Fz], G1 as [V1 F1].
    destruct (add_value lum (opp half) Vl Vo Fl Fo) as (V & N & _).
    assert (A : (B2Qx (add zero (opp half)) <= B2Qx (add lum (opp half)))%Q)
      by (apply add_mono_finite; try assumption; try reflexivity; try apply Qle_refl).
    assert (B : (B2Qx (add lum (opp half)) <= B2Qx (add one (opp half)))%Q).
    { apply add_mono_finite; try assumption; try reflexivity; try apply Qle_refl.
      rewrite B2Q_one. exact L1. }
    assert (F : is_finite (add lum (opp half)) = true).
    { apply (finite_between (add zero (opp half)) _ (add one (opp half)));
        try assumption; reflexivity. }
    rewrite (B2Qx_finite _ F) in A, B.
    assert (EA : (B2Qx (add zero (opp half)) == - (1 # 2))%Q) by reflexivity.
    assert (EB : (B2Qx (add one (opp half)) == 1 # 2)%Q) by reflexivity.
    rewrite EA in A. rewrite EB in B.
    split; [now split | now split]. }
  destruct Gs as (Gs & S0 & S1).
  (* the contrast *)
  destruct (mul_half_good _ _ Gs Gc S0 S1) as (Gt & T0 & T1).
  (* the midpoint *)
  set (t := mul (sub lum half) contrast) in *.
  set (H := mul half max_float) in *.
  assert (GH : good H) by (split; reflexivity).
  assert (Gl1 : good (add t half)).
  { destruct Gt as [Vt Ft], Gh as [Vh Fh], GH as [VH FH].
    destruct (add_value t half Vt Vh Ft Fh) as (V & N & _).
    assert (A : (B2Qx (add (opp H) half) <= B2Qx (add t half))%Q).
    { apply add_mono_finite; try assumption; try reflexivity; try apply Qle_refl. }
    assert (B : (B2Qx (add t half) <= B2Qx (add H half))%Q).
    { apply add_mono_finite; try assumption; try reflexivity; try apply Qle_refl. }
    split; [assumption |].
    apply (finite_between (add (opp H) half) _ (add H half));
      try assumption; reflexivity. }
  exact Gl1.
Qed.

Lemma pre_gamma_number (lum brightness contrast : float) :
  good lum -> (0 <= B2Q lum)%Q -> (B2Q lum <= 1)%Q ->
  good brightness -> good contrast ->
  let lum2 := mul (add (mul (sub lum half) contrast) half) brightness in
  valid lum2 /\ is_nan lum2 = false.
Proof.
  intros Gl L0 L1 [Vb Fb] Gc lum2.
  destruct (contrast_finite lum contrast Gl L0 L1 Gc) as [V1 F1].
  destruct (mul_value _ brightness V1 Vb F1 Fb) as (V & N & _).
  split; assumption.
Qed.

Lemma unit_strict (x : float) :
  valid x -> F64.leb zero x = true -> F64.leb x one = true ->
  F64.eqb x zero = false -> F64.eqb x one = false ->
  F64.ltb zero x = true /\ F64.ltb x one = true.
Proof.
  intros V H0 H1 E0 E1.
  destruct (leb_not_nan _ _ H0) as [_ N].
  apply leb_B2Qx in H0; try assumption; try reflexivity.
  apply leb_B2Qx in H1; try assumption; try reflexivity.
  destruct (eqb_value x zero V valid_zero N eq_refl) as [[E _]|[_ D0]];
    [congruence |].
  destruct (eqb_value x one V valid_one N eq_refl) as [[E _]|[_ D1]];
    [congruence |].
  rewrite B2Qx_zero in *. rewrite B2Qx_one in *.
  split; apply ltb_B2Qx; try assumption; try reflexivity;
    rewrite ?B2Qx_zero, ?B2Qx_one.
  - destruct (Qlt_le_dec 0 (B2Qx x)) as [L|G]; [assumption |].
    exfalso. apply D0. lra.
  - destruct (Qlt_le_dec (B2Qx x) 1) as [L|G]; [assumption |].
    exfalso. apply D1. lra.
Qed.

Lemma eqb_zero_inv (x : float) :
  F64.eqb x zero = true -> exists s, x = S754_zero s.
Proof.
  destruct x as [s|s| |s m e]; try (destruct s; discriminate); eauto.
  discriminate.
Qed.

Lemma gamma_step_total (libm_pow : float -> float -> float) (x g : float) :
  pow_finite libm_pow g -> valid x ->
  F64.leb zero x = true -> F64.leb x one = true ->
  is_finite g = true -> F64.leb zero g = true ->
  exists f,
    gamma_step libm_pow x g = Ok f /\ valid f /\
    F64.leb zero f = true /\ F64.leb f one = true.
Proof.
  intros P V H0 H1 Fg Hg. unfold gamma_step.
  rewrite (py_pow_unit libm_pow x g V H0 H1).
  destruct (F64.eqb g zero) eqn:Eg.
  { exists one. repeat split; reflexivity. }
  assert (Ng : is_nan g = false) by (destruct g; try discriminate; reflexivity).
  assert (Ig : is_inf g = false) by (destruct g; try discriminate; reflexivity).
  rewrite Ng, Ig.
  destruct (F64.eqb x zero) eqn:E0.
  { rewrite (leb_true_ltb_false _ _ Hg). cbn [bind as_ordered].
    destruct (eqb_zero_inv x E0) as [s ->].
    destruct (is_odd_integer g).
    - exists (S754_zero s). rewrite clamp_zero_s.
      repeat split; destruct s; reflexivity.
    - exists zero. repeat split; reflexivity. }
  destruct (F64.eqb x one) eqn:E1.
  { exists one. repeat split; reflexivity. }
  destruct (unit_strict x V H0 H1 E0 E1) as [L0 L1].
  destruct (P x V L0 L1) as [Vp Fp].
  assert (Ip : is_inf (libm_pow x g) = false)
    by (destruct (libm_pow x g); try discriminate; reflexivity).
  assert (Np : is_nan (libm_pow x g) = false)
    by (destruct (libm_pow x g); try discriminate; reflexivity).
  rewrite Ip. cbn [bind as_ordered].
  exists (clamp (libm_pow x g) zero one).
  split; [reflexivity |]. split; [now apply clamp_valid |].
  now apply clamp_unit_range.
Qed.

(** Lines 55-75 on an 8-bit pixel, with finite contrast and brightness and a
    finite non-negative gamma: a glyph of the ramp. *)
Lemma pixel_total (libm_pow : float -> float -> float) (ramp : string)
    (color : bool) (brightness contrast gamma : float) (px : Z * Z * Z) :
  pow_finite libm_pow gamma ->
  valid brightness -> is_finite brightness = true ->
  valid contrast -> is_finite contrast = true ->
  is_finite gamma = true -> F64.leb zero gamma = true ->
  1 <= ramp_length ramp <= 2 ^ 53 -> rgb8 px ->
  exists idx ch,
    0 <= idx <= ramp_length ramp - 1 /\ py_getitem ramp idx = Ok ch /\
    pixel_glyph libm_pow ramp brightness contrast gamma px = Ok ch /\
    pixel_part libm_pow ramp color brightness contrast gamma px
      = Ok (cell color px ch).
Proof.
  intros P Vb Fb Vc Fc Fg Hg HN Hpx. destruct px as [[r g] b].
  destruct Hpx as (Hr & Hgc & Hb).
  destruct (luminance_bounds r g b r g b) as (l & l' & El & El' & Gl & _ & L0 & _ & L1);
    try lia.
  rewrite El in El'. injection El' as <-.
  assert (L1' : (B2Q l <= 1)%Q).
  { assert ((B2Q pred_one <= 1)%Q) by (vm_compute; discriminate). lra. }
  destruct (pre_gamma_number l brightness contrast Gl L0 L1'
              (conj Vb Fb) (conj Vc Fc)) as [V2 N2].
  set (lum2 := mul (add (mul (sub l half) contrast) half) brightness) in *.
  destruct (clamp_unit_range lum2 N2) as [B0 B1].
  destruct (gamma_step_total libm_pow (clamp lum2 zero one) gamma P
              (clamp_valid _ V2) B0 B1 Fg Hg) as (f & Ef & Vf & F0 & F1).
  destruct (glyph_index_bounds f (ramp_length ramp) Vf F0 F1 HN)
    as (idx & Ei & Hi).
  destruct (py_getitem_in_range ramp idx ltac:(lia)) as [ch Ech].
  assert (Eg : pixel_glyph libm_pow ramp brightness contrast gamma (r, g, b)
               = Ok ch).
  { unfold pixel_glyph, tone. rewrite El. cbn [bind].
    rewrite adjust_gamma_step. fold lum2. rewrite Ef. cbn [bind].
    unfold glyph. rewrite Ei. exact Ech. }
  exists idx, ch. split; [lia |]. split; [assumption |]. split; [assumption |].
  rewrite pixel_part_cell, Eg. reflexivity.
Qed.

(** X7: with finite brightness and contrast of either sign, a finite gamma
    that is not negative, a ramp of 1 to [2 ^ 53] glyphs and a [pow] that is
    finite on bases between 0 and 1, [image_to_ascii] returns the text of the
    grid whenever the height is computed and the resampled image has 8-bit
    pixels: no pixel fails. *)
Theorem image_to_ascii_total (libm_pow : float -> float -> float)
    (convert_RGB : Image -> Image) (resize : Image -> Z * Z -> result Image)
    (img img' : Image) (width height : Z) (ramp : string) (color : bool)
    (brightness contrast gamma aspect : float) :
  pow_finite libm_pow gamma ->
  valid brightness -> is_finite brightness = true ->
  valid contrast -> is_finite contrast = true ->
  is_finite gamma = true -> F64.leb zero gamma = true ->
  1 <= ramp_length ramp <= 2 ^ 53 ->
  target_height (size (convert_RGB img)) width aspect = Ok height ->
  resize (convert_RGB img) (width, height) = Ok img' ->
  (forall x y, 0 <= x < width -> 0 <= y < height -> rgb8 (getpixel img' x y)) ->
  exists rows,
    glyph_grid libm_pow img' width height ramp brightness contrast gamma
      = Ok rows /\
    image_to_ascii libm_pow convert_RGB resize img width ramp color brightness
      contrast gamma aspect = Ok (text_of img' width height color rows).
Proof.
  intros P Vb Fb Vc Fc Fg Hg HN Hh Hr Hpx.
  destruct (glyph_grid_total libm_pow img' width height ramp brightness contrast
              gamma) as [rows Er].
  { intros x y Hx Hy.
    destruct (pixel_total libm_pow ramp color brightness contrast gamma
                (getpixel img' x y) P Vb Fb Vc Fc Fg Hg HN (Hpx x y Hx Hy))
      as (idx & ch & _ & _ & E & _).
    now exists ch. }
  exists rows. split; [assumption |].
  rewrite (image_to_ascii_text libm_pow convert_RGB resize img img' width height
             ramp color brightness contrast gamma aspect Hh Hr).
  rewrite Er. reflexivity.
Qed.

Lemma sample_pow_finite (g : float) : pow_finite sample_pow g.
Proof.
  intros x V L0 L1. split; [exact V |]. unfold sample_pow.
  destruct x as [s|s| |s m e]; try reflexivity;
    [destruct s; discriminate | discriminate].
Qed.

Lemma image_to_ascii_total_witness :
  exists rows,
    glyph_grid sample_pow sample_image 2 2 ALT_RAMP default_brightness
      default_contrast one = Ok rows /\
    image_to_ascii sample_pow sample_convert sample_resize sample_image 2
      ALT_RAMP true default_brightness default_contrast one one
      = Ok (text_of sample_image 2 2 true rows).
Proof.
  apply (image_to_ascii_total sample_pow sample_convert sample_resize
           sample_image sample_image 2 2 ALT_RAMP true default_brightness
           default_contrast one one);
    try reflexivity; try apply sample_pow_finite.
  - vm_compute. split; discriminate.
  - intros x y Hx Hy. unfold rgb8, sample_image. cbn [getpixel]. lia.
Defined.


(** ** Which exceptions a pixel can raise *)

Lemma add_valid_gen (x y : float) : valid x -> valid y -> valid (add x y).
Proof.
  intros Vx Vy. destruct y as [sy|sy| |sy my ey].
  - destruct x as [sx|sx| |sx mx ex]; try assumption; try reflexivity.
    destruct sx, sy; reflexivity.
  - destruct x as [sx|sx| |sx mx ex]; try reflexivity. destruct sx, sy; reflexivity.
  - destruct x; reflexivity.
  - now apply add_valid.
Qed.

Lemma of_Z_valid (n : Z) : valid (of_Z n).
Proof. apply normalize_value. Qed.

Lemma luminance_valid (r g b : Z) (l : float) :
  luminance r g b = Ok l -> valid l.
Proof.
  unfold luminance. intros H. inv_bind H. apply Ok_inj in H. subst l.
  unfold rgb_to_luma in Ha. inv_bind Ha. inv_bind Ha. inv_bind Ha.
  apply Ok_inj in Ha. subst a.
  assert (V : forall n x, py_float_of_int n = Ok x -> valid x).
  { intros n x. unfold py_float_of_int. destruct (is_inf (of_Z n)); [discriminate |].
    intros [= <-]. apply of_Z_valid. }
  apply mul_valid; [| reflexivity].
  apply add_valid_gen; [apply add_valid_gen |];
    (apply mul_valid; [reflexivity | eapply V; eassumption]).
Qed.

(** The final luminance of a pixel is a float of the unit interval, or not a
    number. *)
Lemma tone_unit (libm_pow : float -> float -> float) (r g b : Z)
    (brightness contrast gamma f : float) :
  (forall z, valid z -> valid (libm_pow z gamma)) ->
  valid brightness -> valid contrast ->
  tone libm_pow r g b brightness contrast gamma = Ok f ->
  valid f /\
  (is_nan f = true \/ (F64.leb zero f = true /\ F64.leb f one = true)).
Proof.
  intros P Vb Vc H. unfold tone in H. inv_bind H.
  apply luminance_valid in Ha. rewrite adjust_gamma_step in H.
  set (x := clamp _ zero one) in H.
  assert (Vx : valid x).
  { apply clamp_valid, mul_valid; [| assumption].
    apply add_valid; [| reflexivity]. apply mul_valid; [| assumption].
    rewrite sub_add_opp. apply add_valid; [assumption | reflexivity]. }
  destruct (gamma_step_class libm_pow x gamma f Vx P (clamp_unit_or_nan _) H)
    as [Vf _].
  split; [assumption |].
  unfold gamma_step in H. inv_bind H. inv_bind H. injection H as <-.
  apply clamp_unit_or_nan.
Qed.

Lemma mul_nan_l (x y : float) : is_nan x = true -> mul x y = S754_nan.
Proof. destruct x; try discriminate. reflexivity. Qed.

(** X6: on a ramp of 1 to [2 ^ 53] glyphs a pixel fails only with
    ZeroDivisionError, OverflowError or ValueError: the ramp is never indexed
    out of range (no IndexError) and no complex power is compared (no
    TypeError), whatever the pixel and the parameters. *)
Theorem pixel_part_raises (libm_pow : float -> float -> float) (ramp : string)
    (color : bool) (brightness contrast gamma : float) (px : Z * Z * Z)
    (e : exn) :
  (forall z, valid z -> valid (libm_pow z gamma)) ->
  valid brightness -> valid contrast ->
  1 <= ramp_length ramp <= 2 ^ 53 ->
  pixel_part libm_pow ramp color brightness contrast gamma px = Raise e ->
  e = ZeroDivisionError \/ e = OverflowError \/ e = ValueError.
Proof.
  intros P Vb Vc HN H. destruct px as [[r g] b].
  rewrite pixel_part_tone in H.
  apply bind_Raise in H. destruct H as [H|(f & Hf & H)].
  { apply tone_raises in H. tauto. }
  destruct (tone_unit libm_pow r g b brightness contrast gamma f P Vb Vc Hf)
    as [Vf [N|[H0 H1]]].
  - right. right. unfold glyph, glyph_index in H.
    destruct (py_float_of_int (ramp_length ramp - 1)) as [k|e'] eqn:Ek;
      cbn [bind] in H.
    + rewrite (mul_nan_l f k N) in H. cbn in H. congruence.
    + destruct (Z.eq_dec (ramp_length ramp) 1) as [E1|E1].
      * rewrite E1 in Ek. discriminate.
      * destruct (py_float_of_int_exact (ramp_length ramp - 1) ltac:(lia))
          as (m & e0 & E & _). congruence.
  - destruct (glyph_index_bounds f (ramp_length ramp) Vf H0 H1 HN)
      as (idx & Ei & Hi).
    destruct (py_getitem_in_range ramp idx ltac:(lia)) as [ch Ech].
    unfold glyph in H. rewrite Ei in H. cbn [bind] in H. rewrite Ech in H.
    discriminate.
Qed.

Lemma pixel_part_raises_witness :
  ZeroDivisionError = ZeroDivisionError \/ ZeroDivisionError = OverflowError \/
  ZeroDivisionError = ValueError.
Proof.
  apply (pixel_part_raises sample_pow ALT_RAMP true default_brightness
           default_contrast (of_Z (-1)) (0, 0, 0) ZeroDivisionError);
    try reflexivity.
  - intros z V. exact V.
  - vm_compute. split; discriminate.
Defined.

(** ** An empty ramp *)

Lemma py_getitem_empty (i : Z) : py_getitem "" i = Raise IndexError.
Proof.
  unfold py_getitem. cbn [String.length Z.of_nat].
  destruct (i <? 0) eqn:Hi.
  - rewrite Z.add_0_r, Hi. reflexivity.
  - rewrite Hi. cbn [orb]. destruct (0 <=? i) eqn:H0; [reflexivity |].
    apply Z.ltb_ge in Hi. apply Z.leb_gt in H0. lia.
Qed.

Lemma pixel_part_empty (libm_pow : float -> float -> float) (color : bool)
    (brightness contrast gamma : float) (px : Z * Z * Z) :
  exists e, pixel_part libm_pow "" color brightness contrast gamma px = Raise e.
Proof.
  destruct px as [[r g] b]. rewrite pixel_part_tone.
  destruct (tone libm_pow r g b brightness contrast gamma) as [f|e];
    cbn [bind]; [| eauto].
  unfold glyph. destruct (glyph_index f (ramp_length "")) as [i|e];
    cbn [bind]; [| eauto].
  rewrite py_getitem_empty. cbn [bind]. eauto.
Qed.

Lemma range_cons (n : Z) : 0 < n -> exists xs, range n = 0 :: xs.
Proof.
  intros H. unfold range. destruct (Z.to_nat n) as [|k] eqn:E; [lia |].
  cbn [seq map Z.of_nat]. eauto.
Qed.

Lemma mapM_head_raise {A B : Type} (f : A -> result B) (x : A) (xs : list A)
    (e : exn) :
  f x = Raise e -> mapM f (x :: xs) = Raise e.
Proof. intros H. cbn [mapM]. now rewrite H. Qed.

Lemma target_height_positive (orig : Z * Z) (width : Z) (aspect : float) (h : Z) :
  target_height orig width aspect = Ok h -> 1 <= h.
Proof.
  destruct orig as [ow oh]. unfold target_height. intros H.
  inv_bind H. inv_bind H. inv_bind H. apply Ok_inj in H. lia.
Qed.

Lemma select_ramp_length (args : Args) : 1 <= ramp_length (select_ramp args).
Proof.
  unfold select_ramp.
  destruct (arg_custom_ramp args) as [|c s] eqn:E; cbn [String.eqb negb].
  - destruct (String.eqb (arg_ramp args) "default"); vm_compute; discriminate.
  - unfold ramp_length. cbn [String.length]. lia.
Qed.

(** X8: with an empty ramp and a positive width [image_to_ascii] never
    returns a text (at the latest its first pixel fails); and [main] never
    passes an empty ramp, an empty [--custom-ramp] falling back to a
    preset. *)
Theorem empty_ramp_fails (libm_pow : float -> float -> float)
    (convert_RGB : Image -> Image) (resize : Image -> Z * Z -> result Image)
    (img : Image) (width : Z) (color : bool)
    (brightness contrast gamma aspect : float) :
  0 < width ->
  (exists e,
     image_to_ascii libm_pow convert_RGB resize img width "" color brightness
       contrast gamma aspect = Raise e) /\
  (forall args, select_ramp args <> "" /\ 1 <= ramp_length (select_ramp args)).
Proof.
  intros Hw. split.
  - unfold image_to_ascii.
    destruct (target_height (size (convert_RGB img)) width aspect) as [h|e] eqn:Eh;
      cbn [bind]; [| eauto].
    destruct (resize (convert_RGB img) (width, h)) as [img'|e]; cbn [bind];
      [| eauto].
    apply target_height_positive in Eh.
    destruct (range_cons h ltac:(lia)) as [ys ->].
    destruct (range_cons width Hw) as [xs Ex].
    destruct (pixel_part_empty libm_pow color brightness contrast gamma
                (getpixel img' 0 0)) as [e He].
    exists e. rewrite (mapM_head_raise _ 0 ys e); [reflexivity |].
    unfold render_line. rewrite Ex.
    rewrite (mapM_head_raise _ 0 xs e He). reflexivity.
  - intros args. pose proof (select_ramp_length args) as H. split; [| exact H].
    intros E. rewrite E in H. vm_compute in H. now apply H.
Qed.

Lemma empty_ramp_fails_witness :
  (exists e,
     image_to_ascii sample_pow sample_convert sample_resize sample_image 2 ""
       true one one one one = Raise e) /\
  (forall args, select_ramp args <> "" /\ 1 <= ramp_length (select_ramp args)).
Proof.
  apply (empty_ramp_fails sample_pow sample_convert sample_resize sample_image 2
           true one one one one).
  reflexivity.
Defined.

(** ** Degenerate tone parameters *)

Lemma rgb8_luminance (px : Z * Z * Z) :
  rgb8 px ->
  exists l,
    luminance (fst (fst px)) (snd (fst px)) (snd px) = Ok l /\ good l /\
    (0 <= B2Q l)%Q /\ (B2Q l <= 1)%Q.
Proof.
  destruct px as [[r g] b]. intros (Hr & Hg & Hb). cbn [fst snd].
  destruct (luminance_bounds r g b r g b) as (l & l' & El & El' & Gl & _ & L0 & _ & L1);
    try lia.
  rewrite El in El'. apply Ok_inj in El'. subst l'.
  exists l. repeat split; try apply Gl; try assumption.
  assert ((B2Q pred_one <= 1)%Q) by (vm_compute; discriminate). lra.
Qed.

Lemma py_getitem_last (ramp : string) :
  1 <= ramp_length ramp ->
  exists ch, py_getitem ramp (ramp_length ramp - 1) = Ok ch.
Proof. intros H. apply py_getitem_in_range. lia. Qed.

(** X9: with gamma 0.0 (or -0.0) every 8-bit pixel gets the last glyph of
    the ramp, whatever the brightness and the contrast, NaN included:
    [lum ** 0.0] is 1.0. *)
Theorem gamma_zero_last_glyph (libm_pow : float -> float -> float)
    (ramp : string) (color : bool) (brightness contrast gamma : float)
    (px : Z * Z * Z) :
  F64.eqb gamma zero = true -> rgb8 px -> 1 <= ramp_length ramp <= 2 ^ 53 ->
  exists ch,
    py_getitem ramp (ramp_length ramp - 1) = Ok ch /\
    pixel_part libm_pow ramp color brightness contrast gamma px
      = Ok (cell color px ch).
Proof.
  intros Eg Hpx HN.
  destruct (rgb8_luminance px Hpx) as (l & El & _).
  destruct (py_getitem_last ramp ltac:(lia)) as [ch Ech].
  exists ch. split; [assumption |].
  destruct px as [[r g] b]. cbn [fst snd] in El.
  rewrite pixel_part_cell. unfold pixel_glyph, tone. rewrite El. cbn [bind].
  unfold adjust, py_pow. rewrite Eg. cbn [bind as_ordered].
  change (clamp one zero one) with one.
  unfold glyph. rewrite glyph_index_one by assumption. cbn [bind].
  rewrite Ech. reflexivity.
Qed.

Lemma gamma_zero_last_glyph_witness :
  exists ch,
    py_getitem ALT_RAMP (ramp_length ALT_RAMP - 1) = Ok ch /\
    pixel_part sample_pow ALT_RAMP false S754_nan (of_Z (-3))
      (S754_zero true) (0, 0, 0) = Ok (cell false (0, 0, 0) ch).
Proof.
  apply (gamma_zero_last_glyph sample_pow ALT_RAMP false S754_nan (of_Z (-3))
           (S754_zero true) (0, 0, 0)).
  - reflexivity.
  - unfold rgb8. lia.
  - vm_compute. split; discriminate.
Defined.

Lemma mul_zero_r_finite (x : float) (s : bool) :
  is_finite x = true -> exists s', mul x (S754_zero s) = S754_zero s'.
Proof. destruct x; try discriminate; cbn; eauto. Qed.

(** X10: with brightness 0.0 (or -0.0) and a finite contrast every 8-bit
    pixel gets the first glyph of the ramp when gamma is finite and
    positive, and raises ZeroDivisionError when gamma is finite and
    negative. *)
Theorem brightness_zero_first_glyph (libm_pow : float -> float -> float)
    (c : ascii) (rest : string) (color : bool)
    (brightness contrast gamma : float) (px : Z * Z * Z) :
  F64.eqb brightness zero = true ->
  valid contrast -> is_finite contrast = true ->
  is_finite gamma = true -> F64.eqb gamma zero = false ->
  rgb8 px -> ramp_length (String c rest) <= 2 ^ 53 ->
  pixel_part libm_pow (String c rest) color brightness contrast gamma px =
    if F64.ltb gamma zero then Raise ZeroDivisionError
    else Ok (cell color px c).
Proof.
  intros Eb Vc Fc Fg Eg Hpx HN.
  destruct (rgb8_luminance px Hpx) as (l & El & Gl & L0 & L1).
  destruct (contrast_finite l contrast Gl L0 L1 (conj Vc Fc)) as [V1 F1].
  destruct (eqb_zero_inv brightness Eb) as [sb ->].
  destruct (mul_zero_r_finite _ sb F1) as [s2 E2].
  destruct px as [[r g] b]. cbn [fst snd] in El.
  rewrite pixel_part_cell. unfold pixel_glyph, tone. rewrite El. cbn [bind].
  rewrite adjust_gamma_step, E2, clamp_zero_s. unfold gamma_step.
  rewrite py_pow_unit; [| reflexivity | destruct s2; reflexivity
                        | destruct s2; reflexivity].
  rewrite Eg.
  assert (Ng : is_nan gamma = false) by (destruct gamma; try discriminate; reflexivity).
  assert (Ig : is_inf gamma = false) by (destruct gamma; try discriminate; reflexivity).
  rewrite Ng, Ig.
  replace (F64.eqb (S754_zero s2) zero) with true by (destruct s2; reflexivity).
  destruct (F64.ltb gamma zero); [reflexivity |].
  cbn [bind as_ordered].
  assert (HN' : 1 <= ramp_length (String c rest) <= 2 ^ 53).
  { split; [| assumption]. unfold ramp_length. cbn [String.length]. lia. }
  assert (G : forall s, glyph (String c rest) (clamp (S754_zero s) zero one) = Ok c).
  { intros s. rewrite clamp_zero_s. unfold glyph.
    rewrite glyph_index_zero by assumption. cbn [bind]. apply py_getitem_head. }
  destruct (is_odd_integer gamma); [rewrite G | change zero with (S754_zero false);
    rewrite G]; reflexivity.
Qed.

Lemma brightness_zero_first_glyph_witness :
  pixel_part sample_pow ALT_RAMP true zero (of_Z 7) (of_Z (-2)) (9, 8, 7) =
    (if F64.ltb (of_Z (-2)) zero then Raise ZeroDivisionError
     else Ok (cell true (9, 8, 7) " "%char)) /\
  pixel_part sample_pow ALT_RAMP true zero (of_Z 7) (of_Z 2) (9, 8, 7) =
    (if F64.ltb (of_Z 2) zero then Raise ZeroDivisionError
     else Ok (cell true (9, 8, 7) " "%char)).
Proof.
  split.
  - apply (brightness_zero_first_glyph sample_pow " " ".:-=+*#%@" true zero
             (of_Z 7) (of_Z (-2)) (9, 8, 7));
      try reflexivity; [unfold rgb8; lia | vm_compute; discriminate].
  - apply (brightness_zero_first_glyph sample_pow " " ".:-=+*#%@" true zero
             (of_Z 7) (of_Z 2) (9, 8, 7));
      try reflexivity; [unfold rgb8; lia | vm_compute; discriminate].
Defined.

(** ** The failures of the dimension formula *)

Lemma py_int_truediv_cases (a b : Z) :
  (b = 0 /\ py_int_truediv a b = Raise ZeroDivisionError) \/
  (b <> 0 /\ (py_int_truediv a b = Raise OverflowError \/
              exists q, py_int_truediv a b = Ok q)).
Proof.
  unfold py_int_truediv. destruct (Z.eqb_spec b 0) as [->|Hb]; [left; auto |].
  right. split; [assumption |].
  match goal with |- context [is_inf ?q] => destruct (is_inf q) end; eauto.
Qed.

Lemma py_float_of_int_cases (n : Z) :
  py_float_of_int n = Raise OverflowError \/ exists w, py_float_of_int n = Ok w.
Proof. unfold py_float_of_int. destruct (is_inf (of_Z n)); eauto. Qed.

Lemma py_int_cases (x : float) :
  (is_nan x = true /\ py_int x = Raise ValueError) \/
  (is_inf x = true /\ py_int x = Raise OverflowError) \/
  (is_finite x = true /\ py_int x = Ok (trunc x)).
Proof. destruct x; cbn; auto. Qed.

(** X5: the failures of the height computation of lines 41-42: it raises
    ZeroDivisionError exactly when the source width is 0 (and then
    [image_to_ascii] raises it, whatever the resizing would do), ValueError
    exactly when the float product is not a number, and no exception other
    than these two and OverflowError. *)
Theorem target_height_errors (ow oh width : Z) (aspect : float) :
  (target_height (ow, oh) width aspect = Raise ZeroDivisionError <-> ow = 0) /\
  (target_height (ow, oh) width aspect = Raise ValueError <->
   exists q w, py_int_truediv oh ow = Ok q /\ py_float_of_int width = Ok w /\
               is_nan (mul (mul q w) aspect) = true) /\
  (forall e, target_height (ow, oh) width aspect = Raise e ->
     e = ZeroDivisionError \/ e = OverflowError \/ e = ValueError) /\
  (forall libm_pow convert_RGB resize img ramp color brightness contrast gamma,
     size (convert_RGB img) = (0, oh) ->
     image_to_ascii libm_pow convert_RGB resize img width ramp color brightness
       contrast gamma aspect = Raise ZeroDivisionError).
Proof.
  assert (T : target_height (ow, oh) width aspect =
              (q <- py_int_truediv oh ow ;; w <- py_float_of_int width ;;
               h <- py_int (mul (mul q w) aspect) ;; Ok (Z.max 1 h)))
    by reflexivity.
  split; [| split; [| split]].
  - rewrite T.
    destruct (py_int_truediv_cases oh ow) as [[-> E]|[Hb [E|[q E]]]]; rewrite E;
      cbn [bind]; try (split; [discriminate | congruence]); [tauto |].
    destruct (py_float_of_int_cases width) as [E'|[w E']]; rewrite E'; cbn [bind];
      [split; [discriminate | congruence] |].
    destruct (py_int_cases (mul (mul q w) aspect)) as [[_ E2]|[[_ E2]|[_ E2]]];
      rewrite E2; cbn [bind]; (split; [discriminate | congruence]).
  - rewrite T. split.
    + intros H.
      destruct (py_int_truediv_cases oh ow) as [[_ E]|[_ [E|[q E]]]];
        rewrite E in H; cbn [bind] in H; try discriminate.
      destruct (py_float_of_int_cases width) as [E'|[w E']]; rewrite E' in H;
        cbn [bind] in H; [discriminate |].
      exists q, w. split; [assumption | split; [assumption |]].
      destruct (py_int_cases (mul (mul q w) aspect)) as [[N _]|[[_ E2]|[_ E2]]];
        [assumption | rewrite E2 in H; discriminate
        | rewrite E2 in H; discriminate].
    + intros (q & w & -> & -> & N). cbn [bind].
      destruct (mul (mul q w) aspect); try discriminate. reflexivity.
  - intros e. rewrite T.
    destruct (py_int_truediv_cases oh ow) as [[_ E]|[_ [E|[q E]]]]; rewrite E;
      cbn [bind]; try (intros [= <-]; tauto).
    destruct (py_float_of_int_cases width) as [E'|[w E']]; rewrite E'; cbn [bind];
      try (intros [= <-]; tauto).
    destruct (py_int_cases (mul (mul q w) aspect)) as [[_ E2]|[[_ E2]|[_ E2]]];
      rewrite E2; cbn [bind]; try (intros [= <-]; tauto); discriminate.
  - intros libm_pow convert_RGB resize img ramp color brightness contrast gamma Hs.
    unfold image_to_ascii. rewrite Hs. reflexivity.
Qed.


(** ** Colour as a decoration of the plain text *)

Lemma visible_skip (s t : string) :
  lacks "m" s -> visible_from true (s ++ String "m" t) = visible_from false t.
Proof.
  induction s as [|a s IH]; cbn [append visible_from lacks].
  - intros _. reflexivity.
  - intros [Ha Hs]. apply Ascii.eqb_neq in Ha. rewrite Ha. cbn [negb]. auto.
Qed.

Lemma visible_char (c : ascii) (t : string) :
  c <> ESC -> visible_from false (String c t) = String c (visible_from false t).
Proof. intros H. cbn [visible_from]. apply Ascii.eqb_neq in H. now rewrite H. Qed.

Lemma visible_plain (s t : string) :
  lacks ESC s -> visible_from false (s ++ t) = s ++ visible_from false t.
Proof.
  induction s as [|a s IH]; cbn [append lacks]; [reflexivity |].
  intros [Ha Hs]. rewrite visible_char by assumption. now rewrite IH.
Qed.

Lemma visible_ansi_fg (r g b : Z) (t : string) :
  visible_from false (ansi_fg r g b ++ t) = visible_from false t.
Proof.
  unfold ansi_fg. cbn [append visible_from].
  replace (Ascii.eqb ESC ESC) with true by reflexivity.
  change (visible_from true
            (String "[" (String "3" (String "8" (String ";" (String "2"
               (String ";"
                 ((py_str_of_int r ++ ";" ++ py_str_of_int g ++ ";"
                     ++ py_str_of_int b ++ "m") ++ t)))))))
          = visible_from false t).
  cbn [visible_from Ascii.eqb Bool.eqb negb andb].
  replace ((py_str_of_int r ++ ";" ++ py_str_of_int g ++ ";"
              ++ py_str_of_int b ++ "m") ++ t)
    with ((py_str_of_int r ++ ";" ++ py_str_of_int g ++ ";" ++ py_str_of_int b)
            ++ String "m" t).
  - apply visible_skip.
    repeat (apply lacks_app; [try (apply lacks_int; reflexivity) |]);
      try (apply lacks_int; reflexivity);
      cbn; repeat split; discriminate.
  - rewrite !append_assoc. cbn [append]. reflexivity.
Qed.

Lemma visible_RESET (t : string) :
  visible_from false (RESET ++ t) = visible_from false t.
Proof. reflexivity. Qed.

Lemma visible_cell (px : Z * Z * Z) (ch : ascii) (t : string) :
  ch <> ESC ->
  visible_from false (cell true px ch ++ t)
  = cell false px ch ++ visible_from false t.
Proof.
  intros H. destruct px as [[r g] b]. unfold cell.
  rewrite append_assoc, visible_ansi_fg. cbn [append].
  now apply visible_char.
Qed.

Lemma visible_cells (img : Image) (y : Z) (l : list (Z * ascii)) (t : string) :
  Forall (fun xc => snd xc <> ESC) l ->
  visible_from false
    (String.concat ""
       (map (fun xc => cell true (getpixel img (fst xc) y) (snd xc)) l) ++ t)
  = String.concat ""
      (map (fun xc => cell false (getpixel img (fst xc) y) (snd xc)) l)
    ++ visible_from false t.
Proof.
  induction 1 as [|xc l Hx Hl IH]; [reflexivity |].
  cbn [map]. rewrite !concat_empty_cons, !append_assoc.
  rewrite visible_cell by assumption. now rewrite IH.
Qed.

Lemma Forall_combine_snd {A B : Type} (P : B -> Prop) (xs : list A) (ys : list B) :
  Forall P ys -> Forall (fun p => P (snd p)) (combine xs ys).
Proof.
  intros H. revert xs. induction H as [|y ys Hy Hys IH]; intros [|x xs];
    cbn [combine]; constructor; auto.
Qed.

Lemma visible_line (img : Image) (width y : Z) (glyphs : list ascii) (t : string) :
  Forall (fun ch => ch <> ESC) glyphs ->
  visible_from false (line_of img width true y glyphs ++ t)
  = line_of img width false y glyphs ++ visible_from false t.
Proof.
  intros H. unfold line_of. rewrite !append_assoc.
  rewrite visible_cells
    by (now apply (Forall_combine_snd (fun ch => ch <> ESC))).
  rewrite visible_RESET. reflexivity.
Qed.

Lemma concat_cons2 (sep x y : string) (l : list string) :
  String.concat sep (x :: y :: l) = x ++ sep ++ String.concat sep (y :: l).
Proof. reflexivity. Qed.

Lemma visible_lines (img : Image) (width : Z) (l : list (Z * list ascii)) :
  Forall (fun yr => Forall (fun ch => ch <> ESC) (snd yr)) l ->
  visible
    (String.concat newline
       (map (fun yr => line_of img width true (fst yr) (snd yr)) l))
  = String.concat newline
      (map (fun yr => line_of img width false (fst yr) (snd yr)) l).
Proof.
  unfold visible. induction 1 as [|yr l Hy Hl IH]; [reflexivity |].
  destruct l as [|yr' l].
  - cbn [map String.concat].
    rewrite <- (append_empty_r (line_of img width true _ _)).
    rewrite visible_line by assumption. cbn [visible_from].
    now rewrite append_empty_r.
  - cbn [map] in *. rewrite !concat_cons2.
    rewrite visible_line by assumption. f_equal.
    unfold newline at 1 3. cbn [append].
    rewrite visible_char by discriminate. f_equal. exact IH.
Qed.

Lemma visible_text (img : Image) (width height : Z) (rows : list (list ascii)) :
  Forall (Forall (fun ch => ch <> ESC)) rows ->
  visible (text_of img width height true rows)
  = text_of img width height false rows.
Proof.
  intros H. unfold text_of. apply visible_lines.
  now apply (Forall_combine_snd (Forall (fun ch => ch <> ESC))).
Qed.

Lemma get_occurs (s : string) (n : nat) (c : ascii) :
  String.get n s = Some c -> occurs c s.
Proof.
  revert n. induction s as [|a s IH]; intros [|n]; cbn; try discriminate.
  - intros [= ->]. now left.
  - intros H. right. eauto.
Qed.

Lemma py_getitem_occurs (s : string) (i : Z) (c : ascii) :
  py_getitem s i = Ok c -> occurs c s.
Proof.
  unfold py_getitem.
  destruct (_ || _); [discriminate |].
  destruct (String.get _ s) eqn:E; [| discriminate].
  intros H. apply Ok_inj in H. subst. eapply get_occurs; eassumption.
Qed.

Lemma mapM_Forall {A B : Type} (f : A -> result B) (P : B -> Prop)
    (xs : list A) (ys : list B) :
  (forall x y, f x = Ok y -> P y) -> mapM f xs = Ok ys -> Forall P ys.
Proof.
  intros Hf. revert ys. induction xs as [|x xs IH]; intros ys H; cbn [mapM] in H.
  - apply Ok_inj in H. subst. constructor.
  - inv_bind H. inv_bind H. apply Ok_inj in H. subst. constructor; eauto.
Qed.

Lemma pixel_glyph_occurs (libm_pow : float -> float -> float) (ramp : string)
    (brightness contrast gamma : float) (px : Z * Z * Z) (ch : ascii) :
  pixel_glyph libm_pow ramp brightness contrast gamma px = Ok ch ->
  occurs ch ramp.
Proof.
  destruct px as [[r g] b]. unfold pixel_glyph, glyph. intros H.
  inv_bind H. inv_bind H. eapply py_getitem_occurs; eassumption.
Qed.

Lemma glyph_grid_occurs (libm_pow : float -> float -> float) (img : Image)
    (width height : Z) (ramp : string) (brightness contrast gamma : float)
    (rows : list (list ascii)) :
  glyph_grid libm_pow img width height ramp brightness contrast gamma = Ok rows ->
  Forall (Forall (fun ch => occurs ch ramp)) rows.
Proof.
  unfold glyph_grid. apply mapM_Forall. intros y row.
  apply mapM_Forall. intros x ch. apply pixel_glyph_occurs.
Qed.

Lemma occurs_lacks (c d : ascii) (s : string) :
  lacks d s -> occurs c s -> c <> d.
Proof.
  induction s as [|a s IH]; cbn; [tauto |].
  intros [Ha Hs] [->|H]; auto.
Qed.

(** The text that [image_to_ascii] returns, when it returns one. *)
Lemma image_to_ascii_Ok (libm_pow : float -> float -> float)
    (convert_RGB : Image -> Image) (resize : Image -> Z * Z -> result Image)
    (img : Image) (width : Z) (ramp : string) (color : bool)
    (brightness contrast gamma aspect : float) (out : string) :
  image_to_ascii libm_pow convert_RGB resize img width ramp color brightness
    contrast gamma aspect = Ok out ->
  exists height img' rows,
    target_height (size (convert_RGB img)) width aspect = Ok height /\
    resize (convert_RGB img) (width, height) = Ok img' /\
    glyph_grid libm_pow img' width height ramp brightness contrast gamma
      = Ok rows /\
    out = text_of img' width height color rows.
Proof.
  intros H. pose proof H as H'. unfold image_to_ascii in H'.
  apply bind_Ok in H'. destruct H' as (height & Hh & H').
  apply bind_Ok in H'. destruct H' as (img' & Hr & _).
  rewrite (image_to_ascii_text libm_pow convert_RGB resize img img' width height
             ramp color brightness contrast gamma aspect Hh Hr) in H.
  inv_bind H. apply Ok_inj in H. exists height, img', a. auto.
Qed.

(** X15: colour only adds escape sequences: when the ramp holds no escape
    character, the coloured text with its escape sequences removed is
    exactly the text rendered without colour. *)
Theorem colour_only_adds_escapes (libm_pow : float -> float -> float)
    (convert_RGB : Image -> Image) (resize : Image -> Z * Z -> result Image)
    (img : Image) (width : Z) (ramp : string)
    (brightness contrast gamma aspect : float) (out : string) :
  lacks ESC ramp ->
  image_to_ascii libm_pow convert_RGB resize img width ramp true brightness
    contrast gamma aspect = Ok out ->
  image_to_ascii libm_pow convert_RGB resize img width ramp false brightness
    contrast gamma aspect = Ok (visible out).
Proof.
  intros Hramp H.
  destruct (image_to_ascii_Ok _ _ _ _ _ _ _ _ _ _ _ _ H)
    as (height & img' & rows & Hh & Hr & Hg & ->).
  rewrite (image_to_ascii_text libm_pow convert_RGB resize img img' width height
             ramp false brightness contrast gamma aspect Hh Hr).
  rewrite Hg. cbn [bind]. f_equal. symmetry. apply visible_text.
  apply glyph_grid_occurs in Hg.
  eapply Forall_impl; [| exact Hg]. intros row Hrow.
  eapply Forall_impl; [| exact Hrow]. intros ch Hch.
  now apply (occurs_lacks ch ESC ramp).
Qed.

Lemma colour_only_adds_escapes_witness :
  image_to_ascii sample_pow sample_convert sample_resize sample_image 2
    ALT_RAMP false one one one one
  = Ok (visible
          (String ESC "[38;2;0;0;0m " ++ String ESC "[38;2;255;0;0m."
           ++ RESET ++ newline
           ++ String ESC "[38;2;0;255;0m*" ++ String ESC "[38;2;255;255;0m%"
           ++ RESET)).
Proof.
  apply (colour_only_adds_escapes sample_pow sample_convert sample_resize
           sample_image 2 ALT_RAMP one one one one).
  - cbn. repeat split; discriminate.
  - reflexivity.
Defined.

(** ** The alphabet and the line breaks of the text *)

Lemma plain_cells_alphabet (P : ascii -> Prop) (img : Image) (y : Z)
    (l : list (Z * ascii)) :
  Forall (fun xc => P (snd xc)) l ->
  each_char P
    (String.concat ""
       (map (fun xc => cell false (getpixel img (fst xc) y) (snd xc)) l)).
Proof.
  induction 1 as [|xc l Hx Hl IH]; [exact I |].
  cbn [map]. rewrite concat_empty_cons.
  destruct (getpixel img (fst xc) y) as [[r g] b]. cbn [cell append].
  split; assumption.
Qed.

Lemma plain_line_alphabet (P : ascii -> Prop) (img : Image) (width y : Z)
    (glyphs : list ascii) :
  Forall P glyphs -> each_char P (line_of img width false y glyphs).
Proof.
  intros H. unfold line_of. rewrite append_empty_r.
  apply plain_cells_alphabet. now apply (Forall_combine_snd P).
Qed.

Lemma lines_alphabet (P : ascii -> Prop) (lines : list string) :
  P LF -> Forall (each_char P) lines ->
  each_char P (String.concat newline lines).
Proof.
  intros HP. induction 1 as [|x l Hx Hl IH]; [exact I |].
  destruct l as [|y l]; [exact Hx |].
  rewrite concat_cons2. apply each_char_app; [assumption |].
  cbn [newline append each_char]. split; [exact HP | exact IH].
Qed.

(** X16: without colour, every character of the text is a line break or a
    glyph of the ramp. *)
Theorem plain_text_alphabet (libm_pow : float -> float -> float)
    (convert_RGB : Image -> Image) (resize : Image -> Z * Z -> result Image)
    (img : Image) (width : Z) (ramp : string)
    (brightness contrast gamma aspect : float) (out : string) :
  image_to_ascii libm_pow convert_RGB resize img width ramp false brightness
    contrast gamma aspect = Ok out ->
  each_char (fun c => c = LF \/ occurs c ramp) out.
Proof.
  intros H.
  destruct (image_to_ascii_Ok _ _ _ _ _ _ _ _ _ _ _ _ H)
    as (height & img' & rows & Hh & Hr & Hg & ->).
  apply glyph_grid_occurs in Hg. unfold text_of.
  apply lines_alphabet; [now left |].
  apply Forall_map.
  apply (Forall_combine_snd (Forall (fun ch => occurs ch ramp)) (range height))
    in Hg.
  eapply Forall_impl; [| exact Hg]. intros yr Hrow.
  apply plain_line_alphabet.
  eapply Forall_impl; [| exact Hrow]. intros ch Hch. now right.
Qed.

Lemma plain_text_alphabet_witness :
  each_char (fun c => c = LF \/ occurs c ALT_RAMP) (" ." ++ newline ++ "*%").
Proof.
  apply (plain_text_alphabet sample_pow sample_convert sample_resize
           sample_image 2 ALT_RAMP one one one one).
  reflexivity.
Defined.

Lemma count_char_app (c : ascii) (s t : string) :
  count_char c (s ++ t) = (count_char c s + count_char c t)%nat.
Proof.
  induction s as [|a s IH]; cbn [append count_char]; [reflexivity |].
  rewrite IH. lia.
Qed.

Lemma count_char_lacks (c : ascii) (s : string) :
  lacks c s -> count_char c s = 0%nat.
Proof.
  induction s as [|a s IH]; cbn; [reflexivity |].
  intros [Ha Hs]. apply Ascii.eqb_neq in Ha. rewrite Ha. now apply IH.
Qed.

Lemma lacks_ansi_fg (c : ascii) (r g b : Z) :
  numeric c = false -> c <> ESC -> c <> "["%char -> c <> ";"%char ->
  c <> "m"%char -> lacks c (ansi_fg r g b).
Proof.
  intros Hn H1 H2 H3 H4. unfold ansi_fg.
  assert (D : forall d, numeric d = true -> d <> c)
    by (intros d Hd; now apply (numeric_neq c d)).
  repeat (apply lacks_app; [try (now apply lacks_int) |]);
    try (now apply lacks_int); unfold lacks; cbn [each_char];
    repeat split; auto; apply D; reflexivity.
Qed.

Lemma lacks_line (c : ascii) (img : Image) (width y : Z) (color : bool)
    (glyphs : list ascii) :
  numeric c = false -> c <> ESC -> c <> "["%char -> c <> ";"%char ->
  c <> "m"%char ->
  Forall (fun ch => ch <> c) glyphs ->
  lacks c (line_of img width color y glyphs).
Proof.
  intros Hn H1 H2 H3 H4 H. unfold line_of. apply lacks_app.
  - apply (Forall_combine_snd (fun ch => ch <> c) (range width)) in H.
    induction H as [|xc l Hx Hl IH]; [exact I |].
    cbn [map]. rewrite concat_empty_cons. apply lacks_app; [| exact IH].
    unfold cell. destruct (getpixel img (fst xc) y) as [[r g] b].
    apply lacks_app; [| split; [assumption | exact I]].
    destruct color; [now apply lacks_ansi_fg | exact I].
  - destruct color; [| exact I].
    unfold RESET, lacks. cbn [each_char].
    assert (D : "0"%char <> c) by (apply (numeric_neq c); [assumption | reflexivity]).
    repeat split; auto.
Qed.

Lemma count_lines (c : ascii) (lines : list string) :
  Forall (lacks c) lines ->
  count_char c (String.concat (String c "") lines) = Nat.pred (List.length lines).
Proof.
  induction 1 as [|x l Hx Hl IH]; [reflexivity |].
  destruct l as [|y l]; [now apply count_char_lacks |].
  rewrite concat_cons2, !count_char_app, IH.
  rewrite (count_char_lacks c x Hx). cbn [count_char List.length Nat.pred].
  rewrite Ascii.eqb_refl. lia.
Qed.

(** X17: when the ramp holds no line break, the text has exactly
    [height - 1] line breaks, with or without colour; [height] is at
    least 1. *)
Theorem line_break_count (libm_pow : float -> float -> float)
    (convert_RGB : Image -> Image) (resize : Image -> Z * Z -> result Image)
    (img : Image) (width height : Z) (ramp : string) (color : bool)
    (brightness contrast gamma aspect : float) (out : string) :
  lacks LF ramp ->
  target_height (size (convert_RGB img)) width aspect = Ok height ->
  image_to_ascii libm_pow convert_RGB resize img width ramp color brightness
    contrast gamma aspect = Ok out ->
  1 <= height /\ count_char LF out = Z.to_nat (height - 1).
Proof.
  intros Hramp Hh H.
  destruct (image_to_ascii_Ok _ _ _ _ _ _ _ _ _ _ _ _ H)
    as (height' & img' & rows & Hh' & Hr & Hg & ->).
  rewrite Hh in Hh'. apply Ok_inj in Hh'. subst height'.
  assert (H1 : 1 <= height).
  { destruct (size (convert_RGB img)) as [ow oh]. unfold target_height in Hh.
    inv_bind Hh. inv_bind Hh. inv_bind Hh. apply Ok_inj in Hh. lia. }
  split; [exact H1 |].
  pose proof (glyph_grid_shape _ _ _ _ _ _ _ _ _ Hg) as [Hlen _].
  apply glyph_grid_occurs in Hg. unfold text_of.
  change newline with (String LF "").
  rewrite count_lines.
  - rewrite length_map, length_combine, range_length, Hlen. lia.
  - apply Forall_map.
    apply (Forall_combine_snd (Forall (fun ch => occurs ch ramp)) (range height))
      in Hg.
    eapply Forall_impl; [| exact Hg]. intros yr Hrow.
    apply lacks_line; try discriminate; try reflexivity.
    eapply Forall_impl; [| exact Hrow]. intros ch Hch.
    now apply (occurs_lacks ch LF ramp).
Qed.

Lemma line_break_count_witness :
  1 <= 2 /\
  count_char LF
    (String ESC "[38;2;0;0;0m " ++ String ESC "[38;2;255;0;0m."
     ++ RESET ++ newline
     ++ String ESC "[38;2;0;255;0m*" ++ String ESC "[38;2;255;255;0m%"
     ++ RESET) = Z.to_nat (2 - 1).
Proof.
  apply (line_break_count sample_pow sample_convert sample_resize sample_image
           2 2 ALT_RAMP true one one one one).
  - cbn. repeat split; discriminate.
  - reflexivity.
  - reflexivity.
Defined.


(** ** The last bin of the quantizer *)

Lemma below_one (x : float) :
  valid x -> F64.leb zero x = true -> F64.ltb x one = true ->
  good x /\ (0 <= B2Q x)%Q /\ (B2Q x <= B2Q pred_one)%Q.
Proof.
  intros V H0 H1.
  assert (L1 : F64.leb x one = true) by now apply ltb_leb.
  destruct (unit_interval x V H0 L1) as [[s ->]|(m & e & -> & C & He & Hv)].
  - split; [split; reflexivity |]. split; [cbn; lra | vm_compute; discriminate].
  - split; [split; [assumption | reflexivity] |].
    cbn [B2Q cond_Zopp]. split; [apply F2Q_nonneg; lia |].
    apply ltb_B2Q in H1; try assumption; try reflexivity.
    rewrite B2Q_one in H1. cbn [B2Q cond_Zopp] in H1.
    pose proof (canonical_digits _ _ C) as [D _].
    pose proof (Zdigits2_bounds (Zpos m) ltac:(lia)) as [_ U].
    assert (Hm : Zpos m < 2 ^ 53).
    { eapply Z.lt_le_trans; [exact U |]. apply Z.pow_le_mono_r; lia. }
    assert (He' : e <= -53).
    { destruct (Z.eq_dec e (-52)) as [->|]; [| lia]. exfalso.
      pose proof (canonical_normal _ _ C ltac:(lia)) as [L _].
      assert (G : (F2Q (2 ^ 52) (-52) <= F2Q (Zpos m) (-52))%Q)
        by (apply F2Q_le; assumption).
      assert (E1 : (F2Q (2 ^ 52) (-52) == 1)%Q) by reflexivity.
      lra. }
    unfold pred_one. cbn [B2Q cond_Zopp].
    apply (F2Q_le_at e); try lia.
    rewrite Z.sub_diag, Z.pow_0_r, Z.mul_1_r.
    assert (1 <= 2 ^ (-53 - e)) by (apply (Z.pow_le_mono_r 2 0); lia).
    rewrite pow2_53 in Hm. nia.
Qed.

Lemma rne_down (m k : Z) :
  0 < k -> 2 * (m mod 2 ^ k) < 2 ^ k -> rne m k = m / 2 ^ k.
Proof.
  intros Hk H. unfold rne.
  replace (k <=? 0) with false by (symmetry; apply Z.leb_gt; lia).
  apply Z.compare_lt_iff in H. now rewrite H.
Qed.

(** The product of the largest float below 1.0 and a float of mantissa [mk]
    rounds down. *)
Lemma rne_pred (mk : Z) :
  2 ^ 52 <= mk < 2 ^ 53 ->
  let M := (2 ^ 53 - 1) * mk in
  let s := Zdigits2 M - 53 in
  0 < s /\ rne M s = M / 2 ^ s.
Proof.
  intros Hmk M s.
  change (2 ^ 52) with 4503599627370496 in Hmk.
  change (2 ^ 53) with 9007199254740992 in Hmk.
  destruct (Z.eq_dec mk 4503599627370496) as [->|Hne].
  - subst M s. vm_compute. split; reflexivity.
  - assert (D : Zdigits2 M = 106).
    { apply Zdigits2_unique; [| lia]. subst M.
      change (2 ^ 53) with 9007199254740992.
      change (2 ^ (106 - 1)) with 40564819207303340847894502572032.
      change (2 ^ 106) with 81129638414606681695789005144064. nia. }
    subst s. rewrite D. change (106 - 53) with 53. split; [lia |].
    apply rne_down; [lia |].
    assert (R : M mod 2 ^ 53 = 2 ^ 53 - mk).
    { symmetry. apply (Z.mod_unique M (2 ^ 53) (mk - 1)).
      - left. change (2 ^ 53) with 9007199254740992. lia.
      - subst M. change (2 ^ 53) with 9007199254740992. lia. }
    rewrite R. change (2 ^ 53) with 9007199254740992. lia.
Qed.

Lemma mul_pred_one (mk : positive) (ek k : Z) :
  canonical (Zpos mk) ek -> (F2Q (Zpos mk) ek == inject_Z k)%Q ->
  1 <= k <= 2 ^ 53 ->
  valid (S754_finite false mk ek) /\
  is_finite (mul pred_one (S754_finite false mk ek)) = true /\
  (B2Q (mul pred_one (S754_finite false mk ek)) < inject_Z k)%Q.
Proof.
  intros C Hv Hk.
  pose proof (canonical_digits _ _ C) as [D Hmin].
  pose proof (Zdigits2_bounds (Zpos mk) ltac:(lia)) as [_ U].
  assert (Hm : Zpos mk < 2 ^ 53).
  { eapply Z.lt_le_trans; [exact U |]. apply Z.pow_le_mono_r; lia. }
  (* the exponent of an integer of [[1, 2 ^ 53]] *)
  assert (Hlo : -53 < ek).
  { destruct (Z.le_gt_cases ek (-53)) as [L|G]; [| lia]. exfalso.
    assert (A : (F2Q (Zpos mk) ek < F2Q 1 0)%Q).
    { apply (F2Q_lt_at ek); try lia.
      rewrite Z.sub_diag, Z.pow_0_r, Z.mul_1_r, Z.mul_1_l.
      eapply Z.lt_le_trans; [exact Hm |]. apply Z.pow_le_mono_r; lia. }
    rewrite Hv in A. rewrite F2Q_int in A. rewrite <- Zlt_Qlt in A. lia. }
  assert (Hhi : ek <= 1).
  { destruct (Z.le_gt_cases ek 1) as [L|G]; [assumption |]. exfalso.
    pose proof (canonical_normal _ _ C ltac:(lia)) as [L52 _].
    assert (A : (F2Q (2 ^ 52 * 2 ^ 2) 0 <= F2Q (Zpos mk) ek)%Q).
    { apply (F2Q_le_at 0); try lia. rewrite !Z.sub_0_r, Z.pow_0_r, Z.mul_1_r.
      assert (2 ^ 2 <= 2 ^ ek) by (apply Z.pow_le_mono_r; lia). nia. }
    rewrite Hv in A. rewrite F2Q_int in A. rewrite <- Zle_Qle in A.
    change (2 ^ 52 * 2 ^ 2) with (2 * 2 ^ 53) in A. lia. }
  pose proof (canonical_normal _ _ C ltac:(lia)) as Hn.
  assert (VK : valid (S754_finite false mk ek))
    by (apply valid_finite; split; [assumption | lia]).
  split; [exact VK |].
  assert (VP : valid pred_one) by reflexivity.
  destruct (mul_value pred_one (S754_finite false mk ek) VP VK eq_refl eq_refl)
    as (V & N & E).
  cbn [sign xorb mant expo pred_one] in E.
  set (M := 9007199254740991 * Zpos mk) in *.
  assert (HM : 0 < M) by (subst M; lia).
  destruct (rne_pred (Zpos mk) Hn) as [Hs Hr].
  change ((2 ^ 53 - 1) * Zpos mk) with M in Hs, Hr.
  set (s := Zdigits2 M - 53) in *.
  (* the rounded product *)
  assert (Hsh : round_shift M (-53 + ek) = s).
  { unfold round_shift, mag, fexp64. subst s. lia. }
  assert (Hex : round_exp M (-53 + ek) = -53 + ek + s).
  { unfold round_exp, mag, fexp64. subst s. lia. }
  assert (R : (rval M (-53 + ek) < inject_Z k)%Q).
  { unfold rval. rewrite (round_exact_value M (-53 + ek) HM).
    unfold round_mant. rewrite Hsh, Hex, Hr, <- Hv.
    apply (F2Q_lt_at (-53 + ek)); try lia.
    replace (-53 + ek + s - (-53 + ek)) with s by lia.
    replace (ek - (-53 + ek)) with 53 by lia.
    assert (P : 0 < 2 ^ s) by (apply Z.pow_pos_nonneg; lia).
    pose proof (Z.mul_div_le M (2 ^ s) P) as Q.
    change (2 ^ 53) with 9007199254740992. subst M. lia. }
  assert (B : (inject_Z k < F2Q 1 1024)%Q).
  { rewrite <- F2Q_int. apply (F2Q_lt_at 0); lia. }
  assert (Ec : (clip (rval M (-53 + ek)) == rval M (-53 + ek))%Q).
  { unfold clip. destruct (Qlt_le_dec _ _) as [L|G]; [reflexivity | lra]. }
  rewrite Ec in E.
  assert (F : is_finite (mul pred_one (S754_finite false mk ek)) = true).
  { apply (finite_between zero _ max_float); try reflexivity; try assumption.
    - rewrite B2Qx_zero, E. apply rval_nonneg. lia.
    - rewrite E.
      assert ((inject_Z k <= B2Qx max_float)%Q).
      { assert (T : (inject_Z (2 ^ 53) <= B2Qx max_float)%Q) by (vm_compute; discriminate).
        assert ((inject_Z k <= inject_Z (2 ^ 53))%Q) by (rewrite <- Zle_Qle; lia).
        lra. }
      lra. }
  split; [exact F |]. rewrite <- (B2Qx_finite _ F), E. exact R.
Qed.

Lemma glyph_index_below (lum : float) (N : Z) :
  valid lum -> F64.leb zero lum = true -> F64.ltb lum one = true ->
  2 <= N <= 2 ^ 53 ->
  exists idx, glyph_index lum N = Ok idx /\ 0 <= idx <= N - 2.
Proof.
  intros V H0 H1 HN.
  destruct (below_one lum V H0 H1) as ([_ Fl] & L0 & L1).
  destruct (py_float_of_int_exact (N - 1) ltac:(lia)) as (mk & ek & Ek & C & _ & Hv).
  destruct (mul_pred_one mk ek (N - 1) C Hv ltac:(lia)) as (VK & Fp & Bp).
  set (K := S754_finite false mk ek) in *.
  assert (VP : valid pred_one) by reflexivity.
  destruct (mul_value lum K V VK Fl eq_refl) as (Vm & Nm & _).
  assert (U : (B2Qx (mul lum K) <= B2Qx (mul pred_one K))%Q).
  { apply mul_mono_finite; try assumption; try reflexivity.
    apply leb_B2Q; try assumption; reflexivity. }
  assert (L : (B2Qx (mul zero K) <= B2Qx (mul lum K))%Q)
    by (apply mul_mono_finite; try assumption; reflexivity).
  change (B2Qx (mul zero K)) with 0%Q in L.
  assert (F : is_finite (mul lum K) = true).
  { apply (finite_between zero _ (mul pred_one K)); try assumption;
      try reflexivity. now apply mul_valid. }
  rewrite (B2Qx_finite _ F) in U, L. rewrite (B2Qx_finite _ Fp) in U.
  unfold glyph_index. rewrite Ek. cbn [bind]. fold K.
  destruct (mul lum K) as [s|s| |s m e] eqn:Em; try discriminate; cbn [py_int].
  - exists 0. split; [reflexivity | lia].
  - eexists. split; [reflexivity |].
    destruct (trunc_towards_zero s m e) as (T1 & T2 & T3).
    cbn [B2Q] in U, L.
    destruct s; cbn [cond_Zopp] in *.
    + exfalso. change (Z.neg m) with (- Zpos m) in L. rewrite F2Q_opp in L.
      pose proof (F2Q_pos (Zpos m) e ltac:(lia)). lra.
    + set (t := Z.abs (trunc (S754_finite false m e))) in *.
      assert (Ht : t < N - 1) by (rewrite Zlt_Qlt; lra).
      assert (0 <= t) by (subst t; lia).
      rewrite T1. lia.
Qed.

(** X11: on a ramp of at least two glyphs a final luminance below 1.0 never
    gets the last glyph, its index is at most [N - 2]; luminance 1.0 itself
    gets index [N - 1]. *)
Theorem last_glyph_only_at_one (ramp : string) (lum : float) :
  valid lum -> F64.leb zero lum = true -> F64.ltb lum one = true ->
  2 <= ramp_length ramp <= 2 ^ 53 ->
  (exists idx ch,
     glyph_index lum (ramp_length ramp) = Ok idx /\
     0 <= idx <= ramp_length ramp - 2 /\ glyph ramp lum = Ok ch) /\
  glyph_index one (ramp_length ramp) = Ok (ramp_length ramp - 1).
Proof.
  intros V H0 H1 HN. split.
  - destruct (glyph_index_below lum _ V H0 H1 HN) as (idx & Ei & Hi).
    destruct (py_getitem_in_range ramp idx ltac:(lia)) as [ch Ech].
    exists idx, ch. split; [assumption | split; [assumption |]].
    unfold glyph. rewrite Ei. exact Ech.
  - apply glyph_index_one. lia.
Qed.

Lemma last_glyph_only_at_one_witness :
  (exists idx ch,
     glyph_index pred_one (ramp_length ALT_RAMP) = Ok idx /\
     0 <= idx <= ramp_length ALT_RAMP - 2 /\
     glyph ALT_RAMP pred_one = Ok ch) /\
  glyph_index one (ramp_length ALT_RAMP) = Ok (ramp_length ALT_RAMP - 1).
Proof.
  apply (last_glyph_only_at_one ALT_RAMP pred_one); try reflexivity.
  vm_compute. split; discriminate.
Defined.


(** ** Monotonicity in the pixel and in the parameters *)

(** Lines 65-69 are monotone in the luminance they are given. *)
Lemma post_gamma_mono (libm_pow : float -> float -> float) (N : Z)
    (gamma xa xb : float) (ia ib : Z) :
  pow_monotone libm_pow gamma -> valid xa -> valid xb -> mle xa xb -> 1 <= N ->
  (f <- gamma_step libm_pow (clamp xa zero one) gamma ;; glyph_index f N) = Ok ia ->
  (f <- gamma_step libm_pow (clamp xb zero one) gamma ;; glyph_index f N) = Ok ib ->
  ia <= ib.
Proof.
  intros Hp Va Vb M HN Ha Hb. inv_bind Ha. inv_bind Hb.
  rename a into fa, a0 into fb.
  destruct (gamma_step_mono libm_pow _ _ gamma fa fb Hp
              (clamp_valid _ Va) (clamp_valid _ Vb)
              (clamp_unit_or_nan _) (clamp_unit_or_nan _)
              (clamp_mono _ _ Va Vb M) Ha0 Ha1) as (Vfa & Vfb & Mf).
  exact (glyph_index_mono fa fb N ia ib Vfa Vfb HN Mf Ha Hb).
Qed.

Lemma luminance_index_steps (libm_pow : float -> float -> float) (lum : float)
    (N : Z) (brightness contrast gamma : float) :
  luminance_index libm_pow lum N brightness contrast gamma =
  (f <- gamma_step libm_pow
          (clamp (mul (add (mul (sub lum half) contrast) half) brightness)
             zero one) gamma ;;
   glyph_index f N).
Proof. reflexivity. Qed.

Lemma pre_gamma_valid (lum brightness contrast : float) :
  valid lum -> valid brightness -> valid contrast ->
  valid (add (mul (sub lum half) contrast) half) /\
  valid (mul (add (mul (sub lum half) contrast) half) brightness).
Proof.
  intros Vl Vb Vc.
  assert (V1 : valid (add (mul (sub lum half) contrast) half)).
  { apply add_valid; [| reflexivity]. apply mul_valid; [| assumption].
    rewrite sub_add_opp. apply add_valid; [assumption | reflexivity]. }
  split; [assumption | now apply mul_valid].
Qed.

(** X12: with finite contrast and brightness that are not negative (and a
    [pow] monotone in its base) an 8-bit pixel whose three channels are at
    least those of another never gets the smaller index. *)
Theorem pixel_index_monotone (libm_pow : float -> float -> float) (N : Z)
    (brightness contrast gamma : float) (r g b r' g' b' ia ib : Z) :
  pow_monotone libm_pow gamma ->
  valid brightness -> valid contrast ->
  is_finite brightness = true -> is_finite contrast = true ->
  F64.leb zero brightness = true -> F64.leb zero contrast = true ->
  1 <= N ->
  0 <= r <= r' -> 0 <= g <= g' -> 0 <= b <= b' ->
  r' <= 255 -> g' <= 255 -> b' <= 255 ->
  (l <- luminance r g b ;;
   luminance_index libm_pow l N brightness contrast gamma) = Ok ia ->
  (l <- luminance r' g' b' ;;
   luminance_index libm_pow l N brightness contrast gamma) = Ok ib ->
  ia <= ib.
Proof.
  intros Hp Vbr Vc Fbr Fc Hbr Hc HN Hr Hg Hb Hr' Hg' Hb' Ha Hb2.
  destruct (luminance_bounds r g b r' g' b' Hr Hg Hb Hr' Hg' Hb')
    as (la & lb & Ea & Eb & Ga & Gb & _ & Hle & _).
  rewrite Ea in Ha. rewrite Eb in Hb2. cbn [bind] in Ha, Hb2.
  rewrite luminance_index_steps in Ha, Hb2.
  destruct Ga as [Va Fa], Gb as [Vb Fb].
  assert (M0 : mle la lb) by (right; right; now apply leb_B2Q).
  destruct (pre_gamma_mono la lb brightness contrast Va Vb Vbr Vc Fbr Fc Hbr Hc M0)
    as (V1 & V2 & M).
  inv_bind Ha. inv_bind Hb2. rename a into fa, a0 into fb.
  destruct (gamma_step_mono libm_pow _ _ gamma fa fb Hp V1 V2
              (clamp_unit_or_nan _) (clamp_unit_or_nan _) M Ha0 Ha1)
    as (Vfa & Vfb & Mf).
  exact (glyph_index_mono fa fb N ia ib Vfa Vfb HN Mf Ha Hb2).
Qed.

Lemma pixel_index_monotone_witness :
  (l <- luminance 40 40 40 ;; luminance_index sample_pow l 10 one one one) = Ok 1 /\
  (l <- luminance 150 150 150 ;; luminance_index sample_pow l 10 one one one)
    = Ok 5 /\
  1 <= 5.
Proof.
  split; [reflexivity | split; [reflexivity |]].
  apply (pixel_index_monotone sample_pow 10 one one one 40 40 40 150 150 150);
    try reflexivity; try lia; try apply sample_pow_monotone.
Defined.

(** A number that is not positive clamps to zero. *)
Lemma clamp_nonpos (x : float) :
  valid x -> is_nan x = false -> (B2Qx x <= 0)%Q ->
  (B2Qx (clamp x zero one) == 0)%Q.
Proof.
  intros V N H.
  destruct (clamp_value x V N) as [[_ E]|[[L _]|[[L _] E]]].
  - exact E.
  - lra.
  - rewrite E. lra.
Qed.

(** Line 64 then line 65, in the brightness. *)
Lemma brightness_mono (l b1 b2 : float) :
  valid l -> valid b1 -> valid b2 ->
  is_finite b1 = true -> is_finite b2 = true ->
  F64.leb zero b1 = true -> F64.leb b1 b2 = true ->
  mle (clamp (mul l b1) zero one) (clamp (mul l b2) zero one).
Proof.
  intros Vl V1 V2 F1 F2 H0 H12.
  assert (H02 : F64.leb zero b2 = true).
  { apply leb_B2Q; try assumption; try reflexivity.
    apply leb_B2Q in H0; try assumption; try reflexivity.
    apply leb_B2Q in H12; try assumption. lra. }
  destruct l as [s|s| |s m e].
  - (* a zero *)
    apply clamp_mono; try (now apply mul_valid).
    apply mle_of_values; try (now apply mul_valid);
      try (apply mul_value; assumption || reflexivity).
    rewrite (mul_comm _ b1), (mul_comm _ b2).
    apply mul_mono_finite; try assumption; reflexivity.
  - (* an infinity *)
    destruct b1 as [s1| | |s1 m1 e1]; try discriminate.
    + left. reflexivity.
    + destruct s1; [discriminate |].
      destruct b2 as [s2| | |s2 m2 e2]; try discriminate.
      destruct s2; [discriminate |].
      right. right. cbn [mul SFmul xorb]. rewrite xorb_false_r.
      destruct s; reflexivity.
  - left. reflexivity.
  - destruct s.
    + (* a negative number: both products clamp to zero *)
      assert (P : forall b, valid b -> is_finite b = true ->
                    F64.leb zero b = true ->
                    valid (mul (S754_finite true m e) b) /\
                    is_nan (mul (S754_finite true m e) b) = false /\
                    (B2Qx (mul (S754_finite true m e) b) <= 0)%Q).
      { intros b Vb Fb Hb.
        destruct (mul_value (S754_finite true m e) b Vl Vb eq_refl Fb) as (V & N & _).
        split; [assumption | split; [assumption |]].
        assert (U : (B2Qx (mul (S754_finite true m e) b) <= B2Qx (mul zero b))%Q)
          by (apply mul_mono_finite; try assumption; reflexivity).
        assert (Z0 : (B2Qx (mul zero b) == 0)%Q)
          by (destruct b; try discriminate; reflexivity).
        lra. }
      destruct (P b1 V1 F1 H0) as (Va & Na & La).
      destruct (P b2 V2 F2 H02) as (Vb & Nb & Lb).
      apply mle_of_values; try (now apply clamp_valid);
        try (now rewrite clamp_unit_nan).
      rewrite (clamp_nonpos _ Va Na La), (clamp_nonpos _ Vb Nb Lb). lra.
    + apply clamp_mono; try (now apply mul_valid).
      apply mle_of_values; try (now apply mul_valid);
        try (apply mul_value; assumption || reflexivity).
      rewrite (mul_comm _ b1), (mul_comm _ b2).
      apply mul_mono_finite; try assumption; reflexivity.
Qed.

(** X13: for a fixed luminance, contrast and gamma, raising a finite
    brightness that is not negative never lowers the index. *)
Theorem index_monotone_brightness (libm_pow : float -> float -> float) (N : Z)
    (lum contrast gamma b1 b2 : float) (ia ib : Z) :
  pow_monotone libm_pow gamma ->
  valid lum -> valid contrast -> valid b1 -> valid b2 ->
  is_finite b1 = true -> is_finite b2 = true ->
  F64.leb zero b1 = true -> F64.leb b1 b2 = true ->
  1 <= N ->
  luminance_index libm_pow lum N b1 contrast gamma = Ok ia ->
  luminance_index libm_pow lum N b2 contrast gamma = Ok ib ->
  ia <= ib.
Proof.
  intros Hp Vl Vc V1 V2 F1 F2 H0 H12 HN Ha Hb.
  rewrite luminance_index_steps in Ha, Hb.
  destruct (pre_gamma_valid lum b1 contrast Vl V1 Vc) as [Vl1 Va].
  destruct (pre_gamma_valid lum b2 contrast Vl V2 Vc) as [_ Vb].
  pose proof (brightness_mono _ b1 b2 Vl1 V1 V2 F1 F2 H0 H12) as M.
  inv_bind Ha. inv_bind Hb. rename a into fa, a0 into fb.
  destruct (gamma_step_mono libm_pow _ _ gamma fa fb Hp
              (clamp_valid _ Va) (clamp_valid _ Vb)
              (clamp_unit_or_nan _) (clamp_unit_or_nan _) M Ha0 Ha1)
    as (Vfa & Vfb & Mf).
  exact (glyph_index_mono fa fb N ia ib Vfa Vfb HN Mf Ha Hb).
Qed.

Lemma index_monotone_brightness_witness :
  luminance_index sample_pow half 10 (lit 1 2) one one = Ok 2 /\
  luminance_index sample_pow half 10 (lit 3 2) one one = Ok 6 /\
  2 <= 6.
Proof.
  split; [reflexivity | split; [reflexivity |]].
  apply (index_monotone_brightness sample_pow 10 half one one (lit 1 2) (lit 3 2));
    try reflexivity; try lia; try apply sample_pow_monotone.
Defined.

(** Line 63, in the contrast: the luminance moves away from mid-grey. *)
Lemma sub_half_sign (lum : float) :
  good lum -> (0 <= B2Q lum)%Q -> (B2Q lum <= 1)%Q ->
  good (sub lum half) /\
  ((B2Q half <= B2Q lum)%Q -> (0 <= B2Q (sub lum half))%Q) /\
  ((B2Q lum <= B2Q half)%Q -> (B2Q (sub lum half) <= 0)%Q).
Proof.
  intros [Vl Fl] L0 L1. rewrite sub_add_opp.
  assert (Vo : valid (opp half)) by reflexivity.
  assert (Vh : valid half) by reflexivity.
  destruct (add_value lum (opp half) Vl Vo Fl eq_refl) as (V & N & _).
  assert (A : (B2Qx (add zero (opp half)) <= B2Qx (add lum (opp half)))%Q)
    by (apply add_mono_finite; try assumption; try reflexivity; apply Qle_refl).
  assert (B : (B2Qx (add lum (opp half)) <= B2Qx (add one (opp half)))%Q).
  { apply add_mono_finite; try assumption; try reflexivity; try apply Qle_refl.
    rewrite B2Q_one. exact L1. }
  assert (F : is_finite (add lum (opp half)) = true).
  { apply (finite_between (add zero (opp half)) _ (add one (opp half)));
      try assumption; reflexivity. }
  split; [now split |].
  rewrite <- (B2Qx_finite _ F). split; intros H.
  - assert (C : (B2Qx (add half (opp half)) <= B2Qx (add lum (opp half)))%Q)
      by (apply add_mono_finite; try assumption; try reflexivity; apply Qle_refl).
    assert (E : (B2Qx (add half (opp half)) == 0)%Q) by reflexivity.
    lra.
  - assert (C : (B2Qx (add lum (opp half)) <= B2Qx (add half (opp half)))%Q)
      by (apply add_mono_finite; try assumption; try reflexivity; apply Qle_refl).
    assert (E : (B2Qx (add half (opp half)) == 0)%Q) by reflexivity.
    lra.
Qed.

Lemma sub_half_range (lum : float) :
  good lum -> (0 <= B2Q lum)%Q -> (B2Q lum <= 1)%Q ->
  (- (1 # 2) <= B2Q (sub lum half))%Q /\ (B2Q (sub lum half) <= 1 # 2)%Q.
Proof.
  intros [Vl Fl] L0 L1.
  destruct (sub_half_sign lum (conj Vl Fl) L0 L1) as ([_ F] & _).
  rewrite sub_add_opp in *.
  assert (Vo : valid (opp half)) by reflexivity.
  assert (A : (B2Qx (add zero (opp half)) <= B2Qx (add lum (opp half)))%Q)
    by (apply add_mono_finite; try assumption; try reflexivity; apply Qle_refl).
  assert (B : (B2Qx (add lum (opp half)) <= B2Qx (add one (opp half)))%Q).
  { apply add_mono_finite; try assumption; try reflexivity; try apply Qle_refl.
    rewrite B2Q_one. exact L1. }
  assert (EA : (B2Qx (add zero (opp half)) == - (1 # 2))%Q) by reflexivity.
  assert (EB : (B2Qx (add one (opp half)) == 1 # 2)%Q) by reflexivity.
  rewrite (B2Qx_finite _ F) in A, B. lra.
Qed.

Lemma contrast_mono (lum c1 c2 : float) :
  good lum -> (0 <= B2Q lum)%Q -> (B2Q lum <= 1)%Q ->
  good c1 -> good c2 -> (B2Q c1 <= B2Q c2)%Q ->
  let f := fun c => add (mul (sub lum half) c) half in
  good (f c1) /\ good (f c2) /\
  ((B2Q half <= B2Q lum)%Q -> (B2Q (f c1) <= B2Q (f c2))%Q) /\
  ((B2Q lum <= B2Q half)%Q -> (B2Q (f c2) <= B2Q (f c1))%Q).
Proof.
  intros Gl L0 L1 G1 G2 H12 f.
  pose proof (contrast_finite lum c1 Gl L0 L1 G1) as Gf1.
  pose proof (contrast_finite lum c2 Gl L0 L1 G2) as Gf2.
  split; [exact Gf1 | split; [exact Gf2 |]].
  destruct (sub_half_sign lum Gl L0 L1) as (Gs & Sp & Sn).
  destruct (sub_half_range lum Gl L0 L1) as [R0 R1].
  destruct (mul_half_good _ c1 Gs G1 R0 R1) as (Gt1 & _).
  destruct (mul_half_good _ c2 Gs G2 R0 R1) as (Gt2 & _).
  set (s := sub lum half) in *.
  assert (Gh : good half) by (split; reflexivity).
  assert (Add : forall t t', good t -> good t' -> (B2Q t <= B2Q t')%Q ->
                  good (add t half) -> good (add t' half) ->
                  (B2Q (add t half) <= B2Q (add t' half))%Q).
  { intros t t' [Vt Ft] [Vt' Ft'] Ht [_ Fa] [_ Fa'].
    rewrite <- (B2Qx_finite _ Fa), <- (B2Qx_finite _ Fa').
    apply add_mono_finite; try assumption; try reflexivity; apply Qle_refl. }
  destruct Gs as [Vs Fs], G1 as [V1 F1], G2 as [V2 F2].
  split; intros H.
  - apply Add; try assumption.
    destruct Gt1 as [? Ft1], Gt2 as [? Ft2].
    rewrite <- (B2Qx_finite _ Ft1), <- (B2Qx_finite _ Ft2).
    apply mul_mono_finite_l; try assumption.
    apply leb_B2Q; try assumption; try reflexivity. now apply Sp.
  - apply Add; try assumption.
    destruct Gt1 as [? Ft1], Gt2 as [? Ft2].
    assert (M : (B2Qx (mul (opp s) c1) <= B2Qx (mul (opp s) c2))%Q).
    { apply mul_mono_finite_l; try assumption; try (now apply valid_opp);
        try (now rewrite is_finite_opp).
      apply leb_B2Q; try (now apply valid_opp); try reflexivity;
        try (now rewrite is_finite_opp).
      rewrite B2Q_opp. specialize (Sn H). change (B2Q zero) with 0%Q. lra. }
    rewrite !mul_opp_l, !B2Qx_opp in M.
    rewrite (B2Qx_finite _ Ft1), (B2Qx_finite _ Ft2) in M. lra.
Qed.

(** X14: the contrast pivots on mid-grey: for a luminance of [[0, 1]], a
    finite brightness that is not negative and a [pow] monotone in its base,
    raising the (finite) contrast never lowers the index of a luminance at
    or above 0.5, and never raises that of a luminance below 0.5, whenever
    both indices are computed. *)
Theorem index_contrast_pivot (libm_pow : float -> float -> float) (N : Z)
    (lum brightness gamma c1 c2 : float) (ia ib : Z) :
  pow_monotone libm_pow gamma ->
  valid lum -> F64.leb zero lum = true -> F64.leb lum one = true ->
  valid brightness -> is_finite brightness = true ->
  F64.leb zero brightness = true ->
  valid c1 -> valid c2 -> is_finite c1 = true -> is_finite c2 = true ->
  F64.leb c1 c2 = true ->
  1 <= N ->
  luminance_index libm_pow lum N brightness c1 gamma = Ok ia ->
  luminance_index libm_pow lum N brightness c2 gamma = Ok ib ->
  if F64.leb half lum then ia <= ib else ib <= ia.
Proof.
  intros Hp Vl H0 H1 Vb Fb Hb V1 V2 F1 F2 H12 HN Ha Hb2.
  assert (Fl : is_finite lum = true).
  { destruct lum as [s|s| |s m e]; try reflexivity;
      [destruct s; discriminate | discriminate]. }
  assert (Gh : good half) by (split; reflexivity).
  pose proof H0 as L0. apply leb_B2Q in L0; try assumption; try reflexivity.
  pose proof H1 as L1. apply leb_B2Q in L1; try assumption; try reflexivity.
  change (B2Q zero) with 0%Q in L0. rewrite B2Q_one in L1.
  apply leb_B2Q in H12; try assumption.
  destruct (contrast_mono lum c1 c2 (conj Vl Fl) L0 L1 (conj V1 F1) (conj V2 F2) H12)
    as ([Vf1 Ff1] & [Vf2 Ff2] & Up & Down).
  rewrite luminance_index_steps in Ha, Hb2.
  assert (Mul : forall x y, valid x -> valid y -> is_finite x = true ->
                  is_finite y = true -> (B2Q x <= B2Q y)%Q ->
                  mle (mul x brightness) (mul y brightness)).
  { intros x y Vx Vy Fx Fy H.
    apply mle_of_values; try (now apply mul_valid);
      try (apply mul_value; assumption).
    apply mul_mono_finite; try assumption. now apply leb_B2Q. }
  destruct (F64.leb half lum) eqn:Hh.
  - apply leb_B2Q in Hh; try assumption; try reflexivity.
    refine (post_gamma_mono libm_pow N gamma _ _ ia ib Hp _ _ _ HN Ha Hb2);
      try (now apply mul_valid).
    apply Mul; try assumption. now apply Up.
  - assert (Hl : (B2Q lum <= B2Q half)%Q).
    { destruct (Qlt_le_dec (B2Q lum) (B2Q half)) as [L|G]; [lra |].
      apply leb_B2Q in G; try assumption; try reflexivity. congruence. }
    refine (post_gamma_mono libm_pow N gamma _ _ ib ia Hp _ _ _ HN Hb2 Ha);
      try (now apply mul_valid).
    apply Mul; try assumption. now apply Down.
Qed.

Lemma index_contrast_pivot_witness :
  (luminance_index sample_pow (lit 3 4) 10 one one one = Ok 6 /\
   luminance_index sample_pow (lit 3 4) 10 one (of_Z 2) one = Ok 9 /\
   if F64.leb half (lit 3 4) then 6 <= 9 else 9 <= 6) /\
  (luminance_index sample_pow (lit 1 4) 10 one one one = Ok 2 /\
   luminance_index sample_pow (lit 1 4) 10 one (of_Z 2) one = Ok 0 /\
   if F64.leb half (lit 1 4) then 2 <= 0 else 0 <= 2).
Proof.
  split; (split; [reflexivity | split; [reflexivity |]]).
  - apply (index_contrast_pivot sample_pow 10 (lit 3 4) one one one (of_Z 2));
      try reflexivity; try lia; try apply sample_pow_monotone.
  - apply (index_contrast_pivot sample_pow 10 (lit 1 4) one one one (of_Z 2));
      try reflexivity; try lia; try apply sample_pow_monotone.
Defined.


(** ** The program as a whole *)

Lemma select_width_positive (args : Args) (term_w : Z) :
  0 < term_w -> 0 < select_width args term_w.
Proof.
  intros H. unfold select_width.
  destruct (Z.ltb_spec 0 (arg_width args)); assumption.
Qed.

(** X18: [main] returns the text of the grid of glyphs computed with the
    width, the ramp and the tone options it selects from the command line,
    whenever the tone options are finite with gamma not negative, the
    platform's [pow] is finite on bases between 0 and 1, the ramp has at
    most [2 ^ 53] glyphs, the height is computed and the image library
    delivers 8-bit pixels; the width it passes on is positive when the
    terminal's is. *)
Theorem main_total (libm_pow : float -> float -> float)
    (convert_RGB : Image -> Image) (resize : Image -> Z * Z -> result Image)
    (cl : CommandLine) (term_w : Z) (img img' : Image) (height : Z) :
  let args := parse_args cl in
  let width := select_width args term_w in
  pow_finite libm_pow (arg_gamma args) ->
  valid (arg_brightness args) -> is_finite (arg_brightness args) = true ->
  valid (arg_contrast args) -> is_finite (arg_contrast args) = true ->
  is_finite (arg_gamma args) = true -> F64.leb zero (arg_gamma args) = true ->
  ramp_length (select_ramp args) <= 2 ^ 53 ->
  target_height (size (convert_RGB img)) width (arg_aspect args) = Ok height ->
  resize (convert_RGB img) (width, height) = Ok img' ->
  (forall x y, 0 <= x < width -> 0 <= y < height -> rgb8 (getpixel img' x y)) ->
  exists rows,
    glyph_grid libm_pow img' width height (select_ramp args)
      (arg_brightness args) (arg_contrast args) (arg_gamma args) = Ok rows /\
    main libm_pow convert_RGB resize args term_w img
      = Ok (text_of img' width height (negb (cl_no_color cl)) rows) /\
    (0 < term_w -> 0 < width).
Proof.
  intros args width P Vb Fb Vc Fc Fg Hg HN Hh Hr Hpx.
  pose proof (select_ramp_length args) as H1.
  destruct (glyph_grid_total libm_pow img' width height (select_ramp args)
              (arg_brightness args) (arg_contrast args) (arg_gamma args))
    as [rows Er].
  { intros x y Hx Hy.
    destruct (pixel_total libm_pow (select_ramp args) true (arg_brightness args)
                (arg_contrast args) (arg_gamma args) (getpixel img' x y)
                P Vb Fb Vc Fc Fg Hg (conj H1 HN) (Hpx x y Hx Hy))
      as (idx & ch & _ & _ & E & _).
    now exists ch. }
  exists rows. split; [exact Er |]. split; [| apply select_width_positive].
  unfold main. fold args. fold width.
  rewrite (image_to_ascii_text libm_pow convert_RGB resize img img' width height
             _ _ _ _ _ _ Hh Hr).
  rewrite Er. reflexivity.
Qed.

Lemma main_total_witness :
  exists rows,
    glyph_grid sample_pow sample_image 2 1 ALT_RAMP (lit 105 100) (lit 125 100)
      (lit 85 100) = Ok rows /\
    main sample_pow sample_convert sample_resize
      (parse_args (no_options "sample.png")) 2 sample_image
      = Ok (text_of sample_image 2 1 (negb false) rows) /\
    (0 < 2 -> 0 < 2).
Proof.
  apply (main_total sample_pow sample_convert sample_resize
           (no_options "sample.png") 2 sample_image sample_image 1);
    try reflexivity; try apply sample_pow_finite.
  - vm_compute. discriminate.
  - intros x y Hx Hy. change (0 <= x < 2) in Hx. change (0 <= y < 1) in Hy.
    unfold rgb8, sample_image. cbn [getpixel]. lia.
Defined.

(** ** The quotient of two integers is a well-formed float *)

Lemma shr_m_1 (mrs : shr_record) :
  0 <= shr_m mrs -> shr_m (shr_1 mrs) = shr_m mrs / 2.
Proof.
  destruct mrs as [m r s]. cbn [shr_m]. intros H.
  now rewrite shr_1_nonneg.
Qed.

Lemma shr_m_iter (n : nat) (mrs : shr_record) :
  0 <= shr_m mrs ->
  shr_m (Nat.iter n shr_1 mrs) = shr_m mrs / 2 ^ Z.of_nat n.
Proof.
  intros H. induction n as [|n IH].
  - cbn [Nat.iter nat_rect Z.of_nat]. now rewrite Z.pow_0_r, Z.div_1_r.
  - rewrite Nat.iter_succ, shr_m_1.
    + rewrite IH, Nat2Z.inj_succ, Z.pow_succ_r by lia.
      assert (0 < 2 ^ Z.of_nat n) by (apply Z.pow_pos_nonneg; lia).
      rewrite Z.div_div by lia. rewrite Z.mul_comm. reflexivity.
    + rewrite IH. apply Z.div_pos; [assumption | apply Z.pow_pos_nonneg; lia].
Qed.

Lemma shr_m_shift (mrs : shr_record) (e k : Z) :
  0 <= shr_m mrs -> 0 <= k ->
  shr_m (fst (shr mrs e k)) = shr_m mrs / 2 ^ k /\ snd (shr mrs e k) = e + k.
Proof.
  intros H Hk. destruct k as [|p|p]; try lia; cbn [shr fst snd].
  - rewrite Z.pow_0_r, Z.div_1_r. split; [reflexivity | lia].
  - rewrite iter_pos_nat, shr_m_iter by assumption.
    rewrite positive_nat_Z. split; reflexivity.
Qed.

Lemma round_nearest_even_range (m : Z) (l : location) :
  m <= round_nearest_even m l <= m + 1.
Proof.
  destruct l as [|[| |]]; cbn [round_nearest_even]; try lia.
  destruct (Z.even m); lia.
Qed.

Lemma shr_record_of_loc_m (m : Z) (l : location) :
  shr_m (shr_record_of_loc m l) = m.
Proof. destruct l as [|[| |]]; reflexivity. Qed.

(** The rounding of a mantissa fine enough for its exponent is a valid
    float, whatever the location of the exact value above it. *)
Lemma binary_round_aux_valid (s : bool) (mx ex : Z) (l : location) :
  0 <= mx -> ex <= fexp64 (Zdigits2 mx + ex) ->
  valid (binary_round_aux prec emax s mx ex l) /\
  is_nan (binary_round_aux prec emax s mx ex l) = false /\
  (is_finite (binary_round_aux prec emax s mx ex l) = true ->
   sign (binary_round_aux prec emax s mx ex l) = s).
Proof.
  intros Hm Hex.
  unfold binary_round_aux, shr_fexp. change (fexp prec emax) with fexp64.
  set (F := fexp64 (Zdigits2 mx + ex)) in *.
  destruct (shr_m_shift (shr_record_of_loc mx l) ex (F - ex)) as [M1 E1];
    [now rewrite shr_record_of_loc_m | lia |].
  rewrite shr_record_of_loc_m in M1.
  destruct (shr (shr_record_of_loc mx l) ex (F - ex)) as [mrs1 e1].
  cbn [fst snd] in M1, E1. replace (ex + (F - ex)) with F in E1 by lia. subst e1.
  set (m1 := shr_m mrs1) in *.
  assert (P : 0 < 2 ^ (F - ex)) by (apply Z.pow_pos_nonneg; lia).
  (* the mantissa after the first shift *)
  assert (H1 : 0 <= m1 < 2 ^ 53 /\ (2 ^ 52 <= m1 \/ F = -1074) /\ -1074 <= F).
  { assert (HF : -1074 <= F) by (unfold F, fexp64; lia).
    destruct (Z.eq_dec mx 0) as [->|Hnz].
    - rewrite M1, Z.div_0_l by lia. split; [lia |]. split; [| assumption].
      right. unfold F, fexp64 in *. cbn [Zdigits2] in *. lia.
    - pose proof (Zdigits2_bounds mx ltac:(lia)) as [L U].
      set (d := Zdigits2 mx) in *.
      assert (Hd : 0 < d) by (apply Zdigits2_pos; lia).
      split; [| split; [| assumption]].
      + rewrite M1. split; [apply Z.div_pos; lia |].
        apply Z.div_lt_upper_bound; [lia |].
        rewrite <- Z.pow_add_r by lia.
        eapply Z.lt_le_trans; [exact U |].
        apply Z.pow_le_mono_r; [lia |]. unfold F, fexp64. lia.
      + destruct (Z.eq_dec F (-1074)) as [|Hn]; [now right | left].
        assert (EF : F = d + ex - 53) by (unfold F, fexp64 in *; lia).
        rewrite M1. apply Z.div_le_lower_bound; [lia |].
        rewrite Z.mul_comm, <- Z.pow_add_r by lia.
        replace (52 + (F - ex)) with (d - 1) by lia. exact L. }
  destruct H1 as ((H0 & H53) & Hn & HF).
  pose proof (round_nearest_even_range m1 (loc_of_shr_record mrs1)) as R.
  set (m2 := round_nearest_even m1 (loc_of_shr_record mrs1)) in *.
  cbn [shr_record_of_loc].
  pose proof (shr_exact m2 F (fexp64 (Zdigits2 m2 + F) - F) ltac:(lia)) as H2.
  destruct (shr _ F _) as [mrs2 e2]. destruct H2 as (_ & M2 & E2).
  rewrite M2, E2. clear M2 E2.
  (* the second shift *)
  assert (C : (m2 = 2 ^ 53 /\ fexp64 (Zdigits2 m2 + F) - F = 1) \/
              (m2 < 2 ^ 53 /\ fexp64 (Zdigits2 m2 + F) - F = 0 /\
               (m2 = 0 \/ canonical m2 F))).
  { destruct (Z.eq_dec m2 (2 ^ 53)) as [E|N]; [left | right].
    - split; [assumption |]. rewrite E. change (Zdigits2 (2 ^ 53)) with 54.
      assert (2 ^ 52 <= m1) by (rewrite pow2_53 in *; change (2 ^ 52) with 4503599627370496; lia).
      destruct Hn as [Hn|Hn]; unfold fexp64; [| rewrite Hn; reflexivity].
      unfold F, fexp64 in *. lia.
    - assert (L53 : m2 < 2 ^ 53) by lia. split; [assumption |].
      destruct (Z.eq_dec m2 0) as [Z|NZ].
      + split; [| now left]. rewrite Z. cbn [Zdigits2].
        assert (F = -1074).
        { destruct Hn as [Hn|Hn]; [| assumption].
          change (2 ^ 52) with 4503599627370496 in Hn. lia. }
        subst F. rewrite H. reflexivity.
      + assert (D : Zdigits2 m2 <= 53) by (apply digits_le_53; lia).
        pose proof (Zdigits2_pos m2 ltac:(lia)) as Dp.
        assert (E0 : fexp64 (Zdigits2 m2 + F) = F).
        { destruct (Z.le_gt_cases (2 ^ 52) m2) as [G|G].
          - pose proof (digits_ge_53 m2 G). unfold fexp64. lia.
          - assert (F = -1074) by lia. unfold fexp64. lia. }
        split; [lia |]. right. split; [lia | exact E0]. }
  destruct C as [[E K]|(L & K & Cn)]; rewrite K.
  - rewrite E. cbn [Z.ltb Z.compare].
    change (2 ^ 53 / 2 ^ 1) with 4503599627370496.
    destruct (F + Z.max 0 1 <=? emax - prec) eqn:Hle.
    + split; [| split; [reflexivity | reflexivity]].
      apply valid_finite. split.
      * split; [lia |]. change (Zdigits2 4503599627370496) with 53.
        unfold fexp64. lia.
      * apply Z.leb_le in Hle. unfold emax, prec in Hle. lia.
    + repeat split; discriminate.
  - cbn [Z.ltb Z.compare]. rewrite Z.add_0_r.
    destruct Cn as [Z|Cn].
    + rewrite Z. repeat split; reflexivity.
    + pose proof (proj1 Cn) as Cp.
      destruct m2 as [|p|p]; try lia.
      destruct (F <=? emax - prec) eqn:Hle.
      * split; [| split; [reflexivity | reflexivity]].
        apply valid_finite. split; [assumption |].
        apply Z.leb_le in Hle. unfold emax, prec in Hle. lia.
      * repeat split; discriminate.
Qed.

Lemma Zdigits2_lower (q k : Z) : 0 < q -> 2 ^ (k - 1) <= q -> k <= Zdigits2 q.
Proof.
  intros Hq H. pose proof (Zdigits2_bounds q Hq) as [_ U].
  pose proof (Zdigits2_pos q Hq) as P.
  destruct (Z.le_gt_cases k (Zdigits2 q)) as [L|G]; [assumption | exfalso].
  assert (2 ^ Zdigits2 q <= 2 ^ (k - 1)) by (apply Z.pow_le_mono_r; lia). lia.
Qed.

(** The quotient that the division hands to the rounding has as many digits
    as its exponent calls for. *)
Lemma SFdiv_core_fine (m1 m2 : positive) (e1 e2 : Z) :
  0 <= fst (fst (SFdiv_core_binary prec emax (Zpos m1) e1 (Zpos m2) e2)) /\
  snd (fst (SFdiv_core_binary prec emax (Zpos m1) e1 (Zpos m2) e2))
  <= fexp64 (Zdigits2 (fst (fst (SFdiv_core_binary prec emax (Zpos m1) e1
                                   (Zpos m2) e2)))
             + snd (fst (SFdiv_core_binary prec emax (Zpos m1) e1 (Zpos m2) e2))).
Proof.
  unfold SFdiv_core_binary. change (fexp prec emax) with fexp64.
  set (d1 := Zdigits2 (Zpos m1)). set (d2 := Zdigits2 (Zpos m2)).
  set (delta := d1 + e1 - (d2 + e2)).
  set (e' := Z.min (fexp64 delta) (e1 - e2)).
  set (s := e1 - e2 - e').
  assert (Hs : 0 <= s) by (unfold s, e'; lia).
  set (m' := match s with
             | 0 => Zpos m1
             | Zpos _ => Z.shiftl (Zpos m1) s
             | Zneg _ => 0
             end).
  assert (Em : m' = Zpos m1 * 2 ^ s).
  { unfold m'. destruct s as [|p|p] eqn:Es; try lia.
    rewrite Z.shiftl_mul_pow2 by lia. reflexivity. }
  assert (Eq : fst (Z.div_eucl m' (Zpos m2)) = m' / Zpos m2) by reflexivity.
  destruct (Z.div_eucl m' (Zpos m2)) as [q r]. cbn [fst snd] in *. subst q.
  pose proof (Zdigits2_bounds (Zpos m1) ltac:(lia)) as [L1 U1].
  pose proof (Zdigits2_bounds (Zpos m2) ltac:(lia)) as [L2 U2].
  fold d1 in L1, U1. fold d2 in L2, U2.
  pose proof (Zdigits2_pos (Zpos m1) ltac:(lia)) as P1. fold d1 in P1.
  pose proof (Zdigits2_pos (Zpos m2) ltac:(lia)) as P2. fold d2 in P2.
  assert (Ps : 0 < 2 ^ s) by (apply Z.pow_pos_nonneg; lia).
  assert (Hm' : 2 ^ (d1 - 1 + s) <= m') by (rewrite Em, Z.pow_add_r by lia; nia).
  assert (Hq : 0 <= m' / Zpos m2) by (apply Z.div_pos; lia).
  split; [assumption |].
  destruct (Z.eq_dec (m' / Zpos m2) 0) as [Z|NZ].
  - rewrite Z. cbn [Zdigits2].
    apply Z.div_small_iff in Z; [| lia]. destruct Z as [Z|Z]; [| lia].
    assert (2 ^ (d1 - 1 + s) < 2 ^ d2) by lia.
    assert (d1 - 1 + s < d2) by (apply (Z.pow_lt_mono_r_iff 2); lia).
    unfold fexp64 in *. lia.
  - assert (D : delta - e' <= Zdigits2 (m' / Zpos m2)).
    { destruct (Z.le_gt_cases (delta - e') 0) as [T|T].
      - pose proof (Zdigits2_pos (m' / Zpos m2) ltac:(lia)). lia.
      - apply Zdigits2_lower; [lia |].
        apply Z.div_le_lower_bound; [lia |].
        replace (delta - e' - 1) with (d1 - 1 + s - d2) by (unfold delta, s; lia).
        assert (2 ^ d2 * 2 ^ (d1 - 1 + s - d2) = 2 ^ (d1 - 1 + s)).
        { rewrite <- Z.pow_add_r by (unfold delta, s in *; lia). f_equal. lia. }
        assert (0 < 2 ^ (d1 - 1 + s - d2))
          by (apply Z.pow_pos_nonneg; unfold delta, s in *; lia).
        nia. }
    assert (fexp64 delta <= fexp64 (Zdigits2 (m' / Zpos m2) + e'))
      by (apply fexp64_mono; lia).
    unfold e' in *. lia.
Qed.

Lemma div_finite_valid (sx sy : bool) (mx my : positive) (ex ey : Z) :
  let q := div (S754_finite sx mx ex) (S754_finite sy my ey) in
  valid q /\ is_nan q = false /\ (is_finite q = true -> sign q = xorb sx sy).
Proof.
  cbn zeta. unfold div. cbn [SFdiv].
  pose proof (SFdiv_core_fine mx my ex ey) as [H0 H1].
  destruct (SFdiv_core_binary prec emax (Zpos mx) ex (Zpos my) ey) as [[q e'] l].
  cbn [fst snd] in H0, H1. now apply binary_round_aux_valid.
Qed.

(** [a / b] on two ints is a well-formed float, not negative when neither
    [a] nor [b] is. *)
Lemma py_int_truediv_valid (a b : Z) (q : float) :
  py_int_truediv a b = Ok q ->
  valid q /\ is_finite q = true /\
  (0 <= a -> 0 < b -> F64.leb zero q = true).
Proof.
  unfold py_int_truediv. destruct (b =? 0) eqn:Hb; [discriminate |].
  apply Z.eqb_neq in Hb.
  match goal with |- context [is_inf ?d] => set (d0 := d) end.
  destruct (is_inf d0) eqn:I; [discriminate |]. intros H. apply Ok_inj in H.
  subst q. unfold d0 in *. clear d0.
  destruct b as [|pb|pb]; try lia; destruct a as [|pa|pa];
    try (repeat split; intros; reflexivity || lia).
  all: match goal with
       | |- context [div (S754_finite ?sx ?mx ?ex) (S754_finite ?sy ?my ?ey)] =>
           destruct (div_finite_valid sx sy mx my ex ey) as (V & N & S)
       end; cbn zeta in *.
  all: match goal with
       | |- context [div ?x ?y] => set (d := div x y) in *
       end.
  all: assert (F : is_finite d = true)
         by (destruct d; try discriminate; reflexivity).
  all: split; [assumption | split; [assumption |]]; intros Ha Hb'; try lia.
  specialize (S F). destruct d as [s|s| |s m e]; try discriminate;
    cbn [sign xorb] in S; subst s; reflexivity.
Qed.

(** ** The height in the width and in the aspect *)

Lemma of_Z_mono (a b : Z) (x y : float) :
  a <= b -> py_float_of_int a = Ok x -> py_float_of_int b = Ok y ->
  good x /\ good y /\ (B2Q x <= B2Q y)%Q.
Proof.
  intros Hab Hx Hy. unfold py_float_of_int in *.
  destruct (is_inf (of_Z a)) eqn:Ia; [discriminate |].
  destruct (is_inf (of_Z b)) eqn:Ib; [discriminate |].
  apply Ok_inj in Hx, Hy. subst x y.
  pose proof (of_Z_valid a) as Va. pose proof (of_Z_valid b) as Vb.
  destruct (normalize_value a 0) as (_ & Na & _).
  destruct (normalize_value b 0) as (_ & Nb & _).
  fold (of_Z a) in Na. fold (of_Z b) in Nb.
  assert (Fa : is_finite (of_Z a) = true)
    by (destruct (of_Z a); try discriminate; reflexivity).
  assert (Fb : is_finite (of_Z b) = true)
    by (destruct (of_Z b); try discriminate; reflexivity).
  split; [now split | split; [now split |]].
  rewrite <- (B2Qx_finite _ Fa), <- (B2Qx_finite _ Fb).
  apply normalize_mono. apply F2Q_le. exact Hab.
Qed.

Lemma py_int_Ok (x : float) (t : Z) :
  py_int x = Ok t -> is_finite x = true /\ t = trunc x.
Proof.
  destruct x; cbn [py_int]; try discriminate; intros H; apply Ok_inj in H;
    auto.
Qed.

Lemma finite_factors (x y : float) :
  is_finite (mul x y) = true -> is_finite x = true /\ is_finite y = true.
Proof. destruct x, y; cbn; try discriminate; auto. Qed.

(** X19: for a source of positive width and an aspect that is not negative,
    a greater width never gives a smaller height; and for a width that is
    not negative a greater aspect never does either. *)
Theorem height_monotone (ow oh w1 w2 : Z) (a1 a2 : float) (h1 h2 : Z) :
  0 < ow -> 0 <= oh -> 0 <= w1 <= w2 ->
  valid a1 -> valid a2 -> F64.leb zero a1 = true -> F64.leb a1 a2 = true ->
  target_height (ow, oh) w1 a1 = Ok h1 ->
  target_height (ow, oh) w2 a2 = Ok h2 ->
  h1 <= h2.
Proof.
  intros How Hoh Hw Va1 Va2 H0 H12 E1 E2.
  unfold target_height in E1, E2.
  apply bind_Ok in E1. destruct E1 as (q & Hq & E1).
  apply bind_Ok in E1. destruct E1 as (x1 & Hx1 & E1).
  apply bind_Ok in E1. destruct E1 as (t1 & Ht1 & E1). apply Ok_inj in E1.
  apply bind_Ok in E2. destruct E2 as (q' & Hq' & E2).
  apply bind_Ok in E2. destruct E2 as (x2 & Hx2 & E2).
  apply bind_Ok in E2. destruct E2 as (t2 & Ht2 & E2). apply Ok_inj in E2.
  rewrite Hq in Hq'. apply Ok_inj in Hq'. subst q' h1 h2.
  destruct (py_int_truediv_valid oh ow q Hq) as (Vq & Fq & Sq).
  specialize (Sq Hoh How).
  destruct (of_Z_mono w1 w2 x1 x2 ltac:(lia) Hx1 Hx2) as ([V1 F1] & [V2 F2] & L12).
  destruct (of_Z_mono 0 w1 zero x1 ltac:(lia) eq_refl Hx1) as (_ & _ & L01).
  change (B2Q zero) with 0%Q in L01.
  destruct (py_int_Ok _ _ Ht1) as [Fr1 ->].
  destruct (py_int_Ok _ _ Ht2) as [Fr2 ->].
  destruct (finite_factors _ _ Fr1) as [Fp1 Fa1].
  destruct (finite_factors _ _ Fr2) as [Fp2 Fa2].
  pose proof (mul_valid q x1 Vq V1) as Vp1.
  pose proof (mul_valid q x2 Vq V2) as Vp2.
  (* the products with the width *)
  assert (P0 : (0 <= B2Q (mul q x1))%Q).
  { rewrite <- (B2Qx_finite _ Fp1).
    assert (Z0 : (B2Qx (mul q zero) == 0)%Q)
      by (destruct q; try discriminate; reflexivity).
    rewrite <- Z0. apply mul_mono_finite_l; try assumption; reflexivity. }
  assert (P12 : (B2Q (mul q x1) <= B2Q (mul q x2))%Q).
  { rewrite <- (B2Qx_finite _ Fp1), <- (B2Qx_finite _ Fp2).
    now apply mul_mono_finite_l. }
  (* the products with the aspect *)
  assert (A12 : (B2Q a1 <= B2Q a2)%Q) by (now apply leb_B2Q in H12).
  assert (A0 : (0 <= B2Q a1)%Q)
    by (apply leb_B2Q in H0; try assumption; try reflexivity; exact H0).
  assert (R1 : (B2Qx (mul (mul q x1) a1) <= B2Qx (mul (mul q x1) a2))%Q).
  { apply mul_mono_finite_l; try assumption.
    apply leb_B2Q; try assumption; reflexivity. }
  assert (R2 : (B2Qx (mul (mul q x1) a2) <= B2Qx (mul (mul q x2) a2))%Q).
  { apply mul_mono_finite; try assumption.
    - apply leb_B2Q; try assumption; try reflexivity.
      change (B2Q zero) with 0%Q. lra.
    - now apply leb_B2Q. }
  rewrite (B2Qx_finite _ Fr1) in R1. rewrite (B2Qx_finite _ Fr2) in R2.
  assert (T : trunc (mul (mul q x1) a1) <= trunc (mul (mul q x2) a2)).
  { apply trunc_mono; try assumption; try (now apply mul_valid). lra. }
  lia.
Qed.

Lemma height_monotone_witness :
  target_height (100, 50) 80 default_aspect = Ok 22 /\
  target_height (100, 50) 120 (lit 6 10) = Ok 36 /\
  22 <= 36.
Proof.
  split; [reflexivity | split; [reflexivity |]].
  apply (height_monotone 100 50 80 120 default_aspect (lit 6 10));
    try reflexivity; lia.
Defined.

(** ** The lines of the text *)

Lemma split_lines_lacks (s : string) : lacks LF s -> split_lines s = [s].
Proof.
  induction s as [|a s IH]; cbn [split_lines lacks each_char]; [reflexivity |].
  intros [Ha Hs]. apply Ascii.eqb_neq in Ha. rewrite Ha, (IH Hs). reflexivity.
Qed.

Lemma split_lines_app (s t : string) :
  lacks LF s -> split_lines (s ++ String LF t) = s :: split_lines t.
Proof.
  induction s as [|a s IH]; cbn [append split_lines lacks each_char].
  - intros _. now rewrite Ascii.eqb_refl.
  - intros [Ha Hs]. apply Ascii.eqb_neq in Ha. rewrite Ha, (IH Hs). reflexivity.
Qed.

(** Splitting undoes the join of lines that hold no line break. *)
Lemma split_lines_concat (lines : list string) :
  Forall (lacks LF) lines -> lines <> [] ->
  split_lines (String.concat newline lines) = lines.
Proof.
  induction 1 as [|x l Hx Hl IH]; [congruence |]. intros _.
  destruct l as [|y l]; [now apply split_lines_lacks |].
  rewrite concat_cons2. change (newline ++ ?t) with (String LF t).
  rewrite split_lines_app by assumption. f_equal. apply IH. discriminate.
Qed.

(** The lines of the text of a grid whose glyphs are no line breaks. *)
Lemma text_of_lines (img : Image) (width height : Z) (color : bool)
    (rows : list (list ascii)) :
  Forall (Forall (fun ch => ch <> LF)) rows ->
  Forall (lacks LF)
    (map (fun yr => line_of img width color (fst yr) (snd yr))
       (combine (range height) rows)).
Proof.
  intros H. apply Forall_map.
  apply (Forall_combine_snd (Forall (fun ch => ch <> LF)) (range height)) in H.
  eapply Forall_impl; [| exact H]. intros yr Hrow.
  apply lacks_line; try discriminate; try reflexivity. exact Hrow.
Qed.

(** What a terminal shows of a line is its row of glyphs. *)
Lemma visible_line_length (img : Image) (width y : Z) (color : bool)
    (glyphs : list ascii) :
  Forall (fun ch => ch <> ESC) glyphs ->
  List.length glyphs = Z.to_nat width ->
  String.length (visible (line_of img width color y glyphs)) = Z.to_nat width.
Proof.
  intros H Hl. unfold visible.
  assert (P : visible_from false (line_of img width false y glyphs)
              = line_of img width false y glyphs).
  { rewrite <- (append_empty_r (line_of img width false y glyphs)) at 1.
    rewrite visible_plain; [apply append_empty_r |].
    now apply plain_line_alphabet. }
  destruct color.
  - rewrite <- (append_empty_r (line_of img width true y glyphs)).
    rewrite visible_line by assumption. cbn [visible_from].
    rewrite append_empty_r. now apply line_of_plain_length.
  - rewrite P. now apply line_of_plain_length.
Qed.

(** C6: for a ramp that holds no line break, the text read line by line is
    exactly [height] lines (it has [height - 1] line breaks, one between two
    lines, and no line holds one), line [y] being the cells of row [y] of
    the resampled grid from left to right: [width] glyphs, each after its
    escape sequence when colour is on, and the reset sequence at the end,
    so that with the escape sequences taken out a line is [width]
    characters long.  The lines come in top-to-bottom order, and the text
    is produced as soon as every pixel has a glyph. *)
Theorem image_to_ascii_lines (libm_pow : float -> float -> float)
    (convert_RGB : Image -> Image) (resize : Image -> Z * Z -> result Image)
    (img img' : Image) (width height : Z) (ramp : string) (color : bool)
    (brightness contrast gamma aspect : float) :
  lacks LF ramp ->
  target_height (size (convert_RGB img)) width aspect = Ok height ->
  resize (convert_RGB img) (width, height) = Ok img' ->
  (forall out,
     image_to_ascii libm_pow convert_RGB resize img width ramp color brightness
       contrast gamma aspect = Ok out ->
     exists (rows : list (list ascii)) (lines : list string),
       glyph_grid libm_pow img' width height ramp brightness contrast gamma
         = Ok rows /\
       out = String.concat newline lines /\
       split_lines out = lines /\
       count_char LF out = Z.to_nat (height - 1) /\
       1 <= height /\
       List.length lines = Z.to_nat height /\
       forall y, (y < Z.to_nat height)%nat ->
         lacks LF (nth y lines "") /\
         nth y lines "" = line_of img' width color (Z.of_nat y) (nth y rows []) /\
         List.length (nth y rows []) = Z.to_nat width /\
         (color = false -> String.length (nth y lines "") = Z.to_nat width) /\
         (lacks ESC ramp ->
          String.length (visible (nth y lines "")) = Z.to_nat width) /\
         forall x, (x < Z.to_nat width)%nat ->
           pixel_glyph libm_pow ramp brightness contrast gamma
             (getpixel img' (Z.of_nat x) (Z.of_nat y))
           = Ok (nth x (nth y rows []) ESC)) /\
  ((forall x y, 0 <= x < width -> 0 <= y < height ->
      exists ch, pixel_glyph libm_pow ramp brightness contrast gamma
                   (getpixel img' x y) = Ok ch) ->
   exists out,
     image_to_ascii libm_pow convert_RGB resize img width ramp color brightness
       contrast gamma aspect = Ok out).
Proof.
  intros Hramp Hh Hr.
  pose proof (target_height_positive _ _ _ _ Hh) as H1.
  rewrite (image_to_ascii_text _ _ _ _ img' _ height) by assumption.
  split.
  - intros out H. inv_bind H. apply Ok_inj in H. rename a into rows.
    destruct (glyph_grid_shape _ _ _ _ _ _ _ _ _ Ha) as [Hlen Hrows].
    pose proof (glyph_grid_occurs _ _ _ _ _ _ _ _ _ Ha) as Hocc.
    assert (Hlf : Forall (Forall (fun ch => ch <> LF)) rows).
    { eapply Forall_impl; [| exact Hocc]. intros row Hrow.
      eapply Forall_impl; [| exact Hrow]. intros ch Hch.
      now apply (occurs_lacks ch LF ramp). }
    set (lines := map (fun yr => line_of img' width color (fst yr) (snd yr))
                    (combine (range height) rows)).
    assert (Hll : List.length lines = Z.to_nat height)
      by (unfold lines; rewrite length_map, length_combine, range_length; lia).
    assert (Hfl : Forall (lacks LF) lines) by (now apply text_of_lines).
    assert (E : forall y, (y < Z.to_nat height)%nat ->
                nth y lines "" = line_of img' width color (Z.of_nat y) (nth y rows [])).
    { intros y Hy. unfold lines.
      set (f := fun yr : Z * list ascii =>
                  line_of img' width color (fst yr) (snd yr)).
      rewrite (nth_indep _ "" (f (0, [])))
        by (rewrite length_map, length_combine, range_length; lia).
      rewrite (map_nth f).
      rewrite combine_nth by (rewrite range_length; lia).
      rewrite range_nth by assumption. reflexivity. }
    exists rows, lines. subst out. unfold text_of. fold lines.
    split; [assumption |]. split; [reflexivity |].
    split.
    { apply split_lines_concat; [assumption |].
      intros E0. rewrite E0 in Hll. cbn in Hll. lia. }
    split.
    { change newline with (String LF ""). rewrite count_lines by assumption.
      rewrite Hll. lia. }
    split; [assumption |]. split; [assumption |].
    intros y Hy. destruct (Hrows y Hy) as [Hw Hg].
    split.
    { rewrite Forall_forall in Hfl. apply Hfl. apply nth_In. lia. }
    split; [now apply E |]. split; [exact Hw |].
    split; [intros ->; rewrite E by assumption; now apply line_of_plain_length |].
    split; [| exact Hg].
    intros Hesc. rewrite E by assumption. apply visible_line_length; [| exact Hw].
    assert (Hrow : Forall (fun ch => occurs ch ramp) (nth y rows [])).
    { rewrite Forall_forall in Hocc. apply Hocc. apply nth_In. lia. }
    eapply Forall_impl; [| exact Hrow]. intros ch Hch.
    now apply (occurs_lacks ch ESC ramp).
  - intros Hpx. destruct (glyph_grid_total _ _ _ _ _ _ _ _ Hpx) as [rows ->].
    cbn [bind]. eauto.
Qed.

Lemma image_to_ascii_lines_witness :
  (forall out,
     image_to_ascii sample_pow sample_convert sample_resize sample_image 2
       ALT_RAMP true one one one one = Ok out ->
     exists (rows : list (list ascii)) (lines : list string),
       glyph_grid sample_pow sample_image 2 2 ALT_RAMP one one one = Ok rows /\
       out = String.concat newline lines /\
       split_lines out = lines /\
       count_char LF out = Z.to_nat (2 - 1) /\
       1 <= 2 /\
       List.length lines = Z.to_nat 2 /\
       forall y, (y < Z.to_nat 2)%nat ->
         lacks LF (nth y lines "") /\
         nth y lines "" = line_of sample_image 2 true (Z.of_nat y) (nth y rows []) /\
         List.length (nth y rows []) = Z.to_nat 2 /\
         (true = false -> String.length (nth y lines "") = Z.to_nat 2) /\
         (lacks ESC ALT_RAMP ->
          String.length (visible (nth y lines "")) = Z.to_nat 2) /\
         forall x, (x < Z.to_nat 2)%nat ->
           pixel_glyph sample_pow ALT_RAMP one one one
             (getpixel sample_image (Z.of_nat x) (Z.of_nat y))
           = Ok (nth x (nth y rows []) ESC)) /\
  ((forall x y, 0 <= x < 2 -> 0 <= y < 2 ->
      exists ch, pixel_glyph sample_pow ALT_RAMP one one one
                   (getpixel sample_image x y) = Ok ch) ->
   exists out,
     image_to_ascii sample_pow sample_convert sample_resize sample_image 2
       ALT_RAMP true one one one one = Ok out).
Proof.
  apply (image_to_ascii_lines sample_pow sample_convert sample_resize
           sample_image sample_image 2 2 ALT_RAMP true one one one one).
  - cbn. repeat split; discriminate.
  - reflexivity.
  - reflexivity.
Defined.

(** C6, as the specification states it, fails on a ramp that holds a line
    break: with the ramp of a space, a line break and [#] the 2 x 2 sample
    image, of height 2, is rendered as a text of three line breaks, four
    lines when read line by line. *)
Lemma ramp_line_break_adds_lines :
  target_height (size (sample_convert sample_image)) 2 one = Ok 2 /\
  image_to_ascii sample_pow sample_convert sample_resize sample_image 2
    (" " ++ newline ++ "#") false one one one one
    = Ok ("  " ++ newline ++ newline ++ newline) /\
  count_char LF ("  " ++ newline ++ newline ++ newline) = 3%nat /\
  split_lines ("  " ++ newline ++ newline ++ newline) = ["  "; ""; ""; ""] /\
  ~ (forall ramp out,
       image_to_ascii sample_pow sample_convert sample_resize sample_image 2
         ramp false one one one one = Ok out ->
       List.length (split_lines out) = Z.to_nat 2).
Proof.
  do 4 (split; [reflexivity |]).
  intros H.
  specialize (H (" " ++ newline ++ "#") ("  " ++ newline ++ newline ++ newline)
                eq_refl).
  discriminate.
Qed.
